(** * vr_webxr: the audio-reactive spectrum and the VR tracking snapshot

    A shallow embedding of the two stateful classes of the repository,
    [AudioSpectrum] (frequency bands, exponential smoothing, the particle
    pool and its emission timers, the colour gradient of the bars) and
    [VRSceneManager] (the session data object, head tracking, the snapshot
    getter), with the properties the specification states about them.

    Numbers.  A JavaScript [number] is modelled by [number]: a rational,
    or one of the three IEEE special values [NaN], [+Infinity],
    [-Infinity], which is what a division by zero produces.  The sign of
    zero is not modelled.  There are two arithmetics on it.  The operations
    of [JS] are exact: they say which formula a line of the source
    evaluates, and they are used where a property is about that formula or
    is a bound that rounding respects.  The operations of [B64] round every
    result to binary64 (53 bits, to nearest, ties to even, gradual
    underflow, overflow to an infinity), as the engine does: they are used
    where rounding decides what is stored, in the rounding of the tracking
    poll, in the convergence of the smoothing, and in the launch and the
    life of a particle.  [Kernel64] checks [B64] against the binary64
    numbers of Rocq's kernel.

    Objects.  [AudioSpectrum] owns its arrays and never hands a particle
    out, so its state is a record of lists, updated by index where the
    source mutates the element found in the array.  [VRSceneManager] hands
    out objects that share structure with its own, so its state is a store
    of objects addressed by location. *)

From Stdlib Require Import QArith Qround Qabs Qpower Lqa Lia ZArith.
From Stdlib.Strings Require Import Byte.
From Stdlib Require Floats.
From stdpp Require Import base list option gmap.

Set Default Proof Using "Type".

(** ** JavaScript numbers *)

Module JS.

#[local] Open Scope Q_scope.

Inductive number : Type :=
| Fin (q : Q)
| PInf
| NInf
| NaN.

(** Equality of numbers as values: rationals up to [Qeq]. *)
Definition eqv (a b : number) : Prop :=
  match a, b with
  | Fin p, Fin q => p == q
  | PInf, PInf | NInf, NInf | NaN, NaN => True
  | _, _ => False
  end.

Definition of_nat (n : nat) : number := Fin (inject_Z (Z.of_nat n)).
Definition of_byte (b : byte) : number := Fin (inject_Z (Z.of_N (Byte.to_N b))).

Definition neg (a : number) : number :=
  match a with
  | Fin p => Fin (- p)
  | PInf => NInf
  | NInf => PInf
  | NaN => NaN
  end.

Definition add (a b : number) : number :=
  match a, b with
  | NaN, _ | _, NaN => NaN
  | Fin p, Fin q => Fin (p + q)
  | PInf, NInf | NInf, PInf => NaN
  | PInf, _ | _, PInf => PInf
  | NInf, _ | _, NInf => NInf
  end.

Definition sub (a b : number) : number := add a (neg b).

(** The sign of a rational: -1, 0 or 1. *)
Definition sgn (q : Q) : Z := Z.sgn (Qnum q).

(** An infinity times a value of sign [s]: [Infinity * 0] is [NaN]. *)
Definition scale_inf (positive : bool) (s : Z) : number :=
  match s with
  | Z0 => NaN
  | Zpos _ => if positive then PInf else NInf
  | Zneg _ => if positive then NInf else PInf
  end.

Definition mul (a b : number) : number :=
  match a, b with
  | NaN, _ | _, NaN => NaN
  | Fin p, Fin q => Fin (p * q)
  | PInf, Fin q | Fin q, PInf => scale_inf true (sgn q)
  | NInf, Fin q | Fin q, NInf => scale_inf false (sgn q)
  | PInf, PInf | NInf, NInf => PInf
  | PInf, NInf | NInf, PInf => NInf
  end.

(** [p / 0] is [NaN] for [p = 0] and an infinity of the sign of [p]
    otherwise; a finite value over an infinity is 0. *)
Definition div (a b : number) : number :=
  match a, b with
  | NaN, _ | _, NaN => NaN
  | Fin p, Fin q =>
      if Qeq_bool q 0 then scale_inf true (sgn p) else Fin (p / q)
  | Fin _, (PInf | NInf) => Fin 0
  | PInf, Fin q => if Qle_bool 0 q then PInf else NInf
  | NInf, Fin q => if Qle_bool 0 q then NInf else PInf
  | (PInf | NInf), (PInf | NInf) => NaN
  end.

(** [a <= b] and [a < b]: false as soon as one side is [NaN]. *)
Definition le (a b : number) : bool :=
  match a, b with
  | NaN, _ | _, NaN => false
  | Fin p, Fin q => Qle_bool p q
  | NInf, _ | _, PInf => true
  | _, _ => false
  end.

Definition lt (a b : number) : bool :=
  match a, b with
  | NaN, _ | _, NaN => false
  | Fin p, Fin q => negb (Qle_bool q p)
  | PInf, _ | _, NInf => false
  | _, _ => true
  end.

Definition gt (a b : number) : bool := lt b a.

(** [Math.min] and [Math.max]: [NaN] as soon as one argument is. *)
Definition min (a b : number) : number :=
  match a, b with
  | NaN, _ | _, NaN => NaN
  | _, _ => if le a b then a else b
  end.

Definition max (a b : number) : number :=
  match a, b with
  | NaN, _ | _, NaN => NaN
  | _, _ => if le a b then b else a
  end.

(** [Math.floor] and [Math.round] (the nearest integer, halves upwards). *)
Definition floor (a : number) : number :=
  match a with
  | Fin p => Fin (inject_Z (Qfloor p))
  | _ => a
  end.

Definition round (a : number) : number :=
  match a with
  | Fin p => Fin (inject_Z (Qfloor (p + (1 # 2))))
  | _ => a
  end.

(** [a || 0] on a number: 0 and [NaN] are the falsy numbers. *)
Definition or_zero (a : number) : number :=
  match a with
  | NaN => Fin 0
  | Fin p => if Qeq_bool p 0 then Fin 0 else a
  | _ => a
  end.

(** [Math.PI], the double nearest to pi. *)
Definition PI : number := Fin (7074237752028440 # 2251799813685248).

(** Reading an array of numbers: an index out of range reads [undefined],
    which every arithmetic operation and comparison of the program turns
    into [NaN]. *)
Definition get (l : list number) (i : nat) : number :=
  default NaN (l !! i).

(** Writing an array: an index past the end extends the array, the holes
    in between reading as [undefined]. *)
Definition set (l : list number) (i : nat) (v : number) : list number :=
  if decide (i < length l)%nat then <[i := v]> l
  else l ++ replicate (i - length l) NaN ++ [v].

(** The values the smoothed intensities live in. *)
Definition unit_interval (a : number) : Prop :=
  match a with
  | Fin p => 0 <= p <= 1
  | _ => False
  end.

Definition finite (a : number) : Prop :=
  match a with
  | Fin _ => True
  | _ => False
  end.

End JS.

Abbreviation number := JS.number.
Abbreviation Fin := JS.Fin.
Abbreviation NaN := JS.NaN.

Declare Scope js_scope.
Delimit Scope js_scope with js.
Infix "+" := JS.add : js_scope.
Infix "-" := JS.sub : js_scope.
Infix "*" := JS.mul : js_scope.
Infix "/" := JS.div : js_scope.
Infix "=j=" := JS.eqv (at level 70, no associativity).

(** A decimal literal of the source. *)
Abbreviation lit q := (JS.Fin q%Q).

(** ** Binary64: the arithmetic of the engine

    A finite [number] of the engine is a binary64 number, and every
    arithmetic operation returns the binary64 number nearest to the exact
    result.  [rnd] is that rounding on the rationals. *)

Module B64.

#[local] Open Scope Q_scope.

#[local] Open Scope Q_scope.

Definition pow2 (e : Z) : Q := 2 ^ e.

(** [floor (log2 |q|)], for [q] other than 0. *)
Definition ilog2 (q : Q) : Z :=
  let k := (Z.log2 (Z.abs (Qnum q)) - Z.log2 (Z.pos (Qden q)))%Z in
  if Qle_bool (pow2 k) (Qabs q) then k else (k - 1)%Z.

(** The nearest integer, a tie going to the even one. *)
Definition nearest_even (m : Q) : Z :=
  let f := Qfloor m in
  match Qcompare (m - inject_Z f) (1 # 2) with
  | Lt => f
  | Gt => (f + 1)%Z
  | Eq => if Z.even f then f else (f + 1)%Z
  end.

(** The exponent of the unit in the last place of a binary64 number near
    [q]: 53 significant bits, and no unit below [2^-1074]. *)
Definition ulp_exp (q : Q) : Z := Z.max (ilog2 q - 52) (-1074).

(** Round to nearest, ties to even, with no upper end to the exponents. *)
Definition rnd (q : Q) : Q :=
  Qred (inject_Z (nearest_even (q / pow2 (ulp_exp q))) * pow2 (ulp_exp q)).

(** The unit roundoff, and half the smallest unit. *)
Definition u : Q := pow2 (-53).
Definition eta : Q := pow2 (-1075).

(** The binary64 numbers, but for the upper end of the exponents: an
    integer of less than 53 bits times a power of two from [2^-1074]. *)
Definition format (f : Q) : Prop :=
  exists m e : Z,
    (-1074 <= e)%Z /\ (Z.abs m < 2 ^ 53)%Z /\ f == inject_Z m * pow2 e.

(** The result of an operation whose exact value is [a]: rounded, and an
    infinity from [2^1024] on. *)
Definition nearest (a : number) : number :=
  match a with
  | JS.Fin q =>
      let r := rnd q in
      if Qle_bool (pow2 1024) (Qabs r)
      then (if Qle_bool 0 r then JS.PInf else JS.NInf)
      else JS.Fin r
  | _ => a
  end.

Definition add (a b : number) : number := nearest (JS.add a b).
Definition sub (a b : number) : number := nearest (JS.sub a b).
Definition mul (a b : number) : number := nearest (JS.mul a b).
Definition div (a b : number) : number := nearest (JS.div a b).

(** A decimal literal of the source, as the engine reads it. *)
Definition lit (q : Q) : number := nearest (JS.Fin q).

End B64.

Declare Scope b64_scope.
Delimit Scope b64_scope with b64.
Infix "+" := B64.add : b64_scope.
Infix "-" := B64.sub : b64_scope.
Infix "*" := B64.mul : b64_scope.
Infix "/" := B64.div : b64_scope.

(** ** The binary64 numbers of the kernel *)

(** Rocq's kernel has the binary64 numbers of the machine.  [agree] says
    that [B64.rnd] of an exact result is the value of the float the
    kernel computes, or that both are beyond the largest double. *)
Module Kernel64.
Import PrimFloat FloatOps SpecFloat.

Definition toQ (f : float) : option Q :=
  match Prim2SF f with
  | S754_zero _ => Some 0%Q
  | S754_finite s m e =>
      Some (Qred ((if s then - 1 else 1) * inject_Z (Zpos m) * Qpower 2 e))%Q
  | _ => None
  end.

Definition value (f : float) : Q := default 0%Q (toQ f).

Definition agree (exact : Q) (f : float) : bool :=
  match toQ f with
  | Some r => Qeq_bool (B64.rnd exact) r
  | None => Qle_bool (B64.pow2 1024) (Qabs (B64.rnd exact))
  end.

(** The four operations on a pair of floats. *)
Definition agree_on (p : float * float) : bool :=
  let '(a, b) := p in
  agree (value a + value b) (a + b)%float
  && agree (value a - value b) (a - b)%float
  && agree (value a * value b) (a * b)%float
  && (if Qeq_bool (value b) 0 then true
      else agree (value a / value b) (a / b)%float).

(** The numbers at which the properties below depend on rounding, the
    ends of the range, and pairs drawn at random. *)
Definition cases : list (float * float) :=
  [(0x1.5666666666666p+1, 0x1.9000000000000p+6);
   (0x1.0b7ffffffffffp+8, 0x1.9000000000000p+6);
   (0x1.8000000000000p+1, 0x1.999999999999ap-5);
   (0x1.999999999999ap-5, 0x1.999999999999ap-5);
   (0x1.6666666666666p-1, 0x1.3333333333333p-2);
   (0x1.9191919191919p-4, 0x1.6666666666666p-1);
   (0x1.ffffffffffffep-1, 0x1.0000000000000p-1);
   (0x1.0000000000000p+0, 0x1.ffffffffffffep-2);
   ((-0x1.921cd938f5a5ap+1), 0x1.6800000000000p+7);
   ((-0x1.1abc48bc0cb87p+9), 0x1.921fb54442d18p+1);
   (0x0.0000000000001p-1022, 0x1.0000000000000p+1);
   (0x1.fffffffffffffp+1023, 0x1.fffffffffffffp+1023);
   (0x1.0000000000000p+0, 0x1.8000000000000p+1);
   (0x1.999999999999ap-4, 0x1.999999999999ap-3);
   (0x1.0000000000000p-1022, 0x1.8000000000000p-1);
   (0x1.1c37937e08000p+53, 0x1.0000000000000p+0);
   (0x1.6573793d4af83p+613, (-0x1.c8b1d361458b8p+0));
   (0x1.5055747215dbbp-90, (-0x0.000000007a145p-1022));
   (0x1.aab0c01cf5c0fp-327, 0x1.034cd36c4abe8p-851);
   (0x1.8457b034a0114p+51, 0x1.05bd9a7913051p+993);
   (0x1.a40cca1015901p-575, 0x0.0p+0);
   (0x1.dd3313a0b9965p-205, 0x1.c725c4787f93bp+52);
   (0x1.4b8d8c44da161p-692, 0x1.2281e993a6688p+910);
   (0x1.e228923a5ef88p+753, (-0x1.ee91531dec4f4p+312));
   ((-0x1.e469f5f4aebebp-972), (-0x1.0f91972f92026p-601));
   (0x1.3e7c01b3bb890p-867, (-0x1.691c982643e32p+2));
   ((-0x0.000000008127fp-1022), 0x1.9d0a89a2ef80fp+468);
   ((-0x1.d4972d1cee715p-885), (-0x1.4f9f810e1fec9p+532));
   (0x0.0p+0, (-0x1.192d4ca922db2p+3));
   (0x1.4fa5f4ef04d07p-725, (-0x1.f794d7205bc40p+0));
   (0x1.1494e7691b06fp+621, (-0x1.c67c215bd448fp-103));
   ((-0x1.96eaa7df720e2p+2), 0x1.174c6466417fap+3);
   ((-0x1.3289150505652p+114), 0x1.44e651478c7b9p-801);
   (0x1.a9a5b7e530b40p-1, (-0x1.b9af2e8912218p+49));
   ((-0x0.00000000880d9p-1022), (-0x1.f1a7cf6798fa5p+270));
   (0x1.d581d6e2b830ap+612, (-0x0.0p+0));
   (0x1.356fb9b4972a7p-190, 0x1.a5f3511e701d0p+50);
   (0x1.344e5496db084p+3, 0x1.9ee0ff6aa7663p-436);
   ((-0x1.9ba7f84d76779p+660), 0x1.b2c68774b15d7p+944);
   ((-0x1.53dc06fc04d79p-231), 0x1.33c396b297188p+3);
   (0x1.b1d943e0e3be0p+1, (-0x1.50df2e5a3863ep+111));
   (0x1.10300ee379c65p-160, (-0x1.0634bdb4a926bp+3));
   ((-0x0.000000003ca1fp-1022), (-0x1.54414a7babdf9p+2));
   (0x1.508cb3286dfaep+1002, 0x0.0p+0);
   ((-0x1.8c3b22d18485cp-652), 0x1.71b9abd87a865p+61);
   (0x1.9edf21445d340p-467, (-0x1.87456ccb0b4a0p+0));
   ((-0x1.a5b41f38a1e14p+781), (-0x1.8496bd5fa6f44p+1));
   (0x1.4c63f7b949e54p+265, 0x1.10bf55a2e8cfap+3);
   (0x1.18e36d8c3695ep+903, (-0x1.2e0eb47ea975fp-647));
   (0x1.d1ff4cb03a43cp+530, 0x1.7e44863087e52p-164);
   (0x1.059390d0d7314p+50, (-0x1.9efe7129dc9e0p+0));
   (0x1.232e097a4c700p+3, (-0x1.ee8fc2a23534ap+870))]%float.

End Kernel64.

(** ** Completions: a call returns normally or throws *)

Inductive completion (A : Type) : Type :=
| Normal (a : A)
| Throw.
Arguments Normal {A} a.
Arguments Throw {A}.

#[global] Instance completion_bind : MBind completion :=
  fun A B (k : A -> completion B) (c : completion A) =>
    match c with
    | Normal a => k a
    | Throw => Throw
    end.

(** [for (let i = start; i < start + count; i++) body] *)
Fixpoint for_range {S : Type} (start count : nat)
    (body : nat -> S -> completion S) (s : S) : completion S :=
  match count with
  | O => Normal s
  | Datatypes.S c => s' ← body start s; for_range (Datatypes.S start) c body s'
  end.

(** ** The engine objects the visualizer reads and writes *)

Module Vector3.
Record t : Type := make { x : number; y : number; z : number }.
Definition Zero : t := make (lit 0) (lit 0) (lit 0).
Definition One : t := make (lit 1) (lit 1) (lit 1).
Definition setAll (v : number) : t := make v v v.
Definition scale (v : t) (k : number) : t :=
  make (x v * k)%js (y v * k)%js (z v * k)%js.
Definition add (a b : t) : t :=
  make (x a + x b)%js (y a + y b)%js (z a + z b)%js.
Definition with_y (v : t) (n : number) : t := make (x v) n (z v).
End Vector3.

Module Color3.
Record t : Type := make { r : number; g : number; b : number }.
Definition scale (c : t) (k : number) : t :=
  make (r c * k)%js (g c * k)%js (b c * k)%js.
End Color3.

Module PBRMaterial.
Record t : Type := make {
  baseColor : Color3.t;
  roughness : number;
  metallicFactor : number;
  emissiveColor : Color3.t;
  alpha : number }.
Definition with_alpha (m : t) (a : number) : t :=
  make (baseColor m) (roughness m) (metallicFactor m) (emissiveColor m) a.
Definition with_emissiveColor (m : t) (c : Color3.t) : t :=
  make (baseColor m) (roughness m) (metallicFactor m) c (alpha m).
End PBRMaterial.

(** A mesh with its material.  [name] is the index [i] of the template
    literal the mesh is named with ([particle_i], [spectrumBar_i]); a bar's
    material is the object the source also keeps in [this.materials[i]]. *)
Module Mesh.
Record t : Type := make {
  name : nat;
  position : Vector3.t;
  scaling : Vector3.t;
  rotation : Vector3.t;
  enabled : bool;
  material : PBRMaterial.t }.
Definition with_position (m : t) (p : Vector3.t) : t :=
  make (name m) p (scaling m) (rotation m) (enabled m) (material m).
Definition with_scaling (m : t) (s : Vector3.t) : t :=
  make (name m) (position m) s (rotation m) (enabled m) (material m).
Definition with_rotation (m : t) (s : Vector3.t) : t :=
  make (name m) (position m) (scaling m) s (enabled m) (material m).
Definition setEnabled (m : t) (e : bool) : t :=
  make (name m) (position m) (scaling m) (rotation m) e (material m).
Definition with_material (m : t) (a : PBRMaterial.t) : t :=
  make (name m) (position m) (scaling m) (rotation m) (enabled m) a.
End Mesh.

Module PointLight.
Record t : Type := make {
  position : Vector3.t;
  diffuse : Color3.t;
  intensity : number;
  range : number }.
End PointLight.

(** ** AudioSpectrum: the data *)

Record ParticleData : Type := mkParticle {
  mesh : Mesh.t;
  velocity : Vector3.t;
  life : number;
  maxLife : number;
  active : bool;
  cylinderIndex : nat }.

Record AudioSpectrumConfig : Type := mkConfig {
  bandCount : nat;
  radius : number;
  maxHeight : number;
  smoothingFactor : number }.

(** A callback registered with [setTimeout(() => this.emitParticle(i,
    intensity), delay)] that has not run yet. *)
Record Timeout : Type := mkTimeout {
  timeout_delay : nat;
  timeout_band : nat;
  timeout_intensity : number }.

(** The fields of the class the frame loop touches.  [this.materials[i]]
    is [Mesh.material] of [spectrumBars[i]] (one object, pushed to both
    arrays together); [pending] holds the registered timeouts and
    [random_calls] counts the calls of [Math.random] made so far. *)
Record AudioSpectrum : Type := mkSpectrum {
  config : AudioSpectrumConfig;
  frequencyData : option (list byte);
  spectrumBars : list Mesh.t;
  spectrumLights : list PointLight.t;
  smoothedData : list number;
  particlePool : list ParticleData;
  particleEmissionTimers : list number;
  pending : list Timeout;
  random_calls : nat }.

Definition maxParticlesPerCylinder : nat := 10.

Definition with_frequencyData (st : AudioSpectrum) (d : option (list byte)) :=
  mkSpectrum (config st) d (spectrumBars st) (spectrumLights st)
    (smoothedData st) (particlePool st) (particleEmissionTimers st)
    (pending st) (random_calls st).

Definition with_bars (st : AudioSpectrum) (bars : list Mesh.t)
    (lights : list PointLight.t) :=
  mkSpectrum (config st) (frequencyData st) bars lights
    (smoothedData st) (particlePool st) (particleEmissionTimers st)
    (pending st) (random_calls st).

Definition with_smoothedData (st : AudioSpectrum) (d : list number) :=
  mkSpectrum (config st) (frequencyData st) (spectrumBars st)
    (spectrumLights st) d (particlePool st) (particleEmissionTimers st)
    (pending st) (random_calls st).

Definition with_particlePool (st : AudioSpectrum) (p : list ParticleData) :=
  mkSpectrum (config st) (frequencyData st) (spectrumBars st)
    (spectrumLights st) (smoothedData st) p (particleEmissionTimers st)
    (pending st) (random_calls st).

Definition with_timers (st : AudioSpectrum) (t : list number) :=
  mkSpectrum (config st) (frequencyData st) (spectrumBars st)
    (spectrumLights st) (smoothedData st) (particlePool st) t
    (pending st) (random_calls st).

Definition with_pending (st : AudioSpectrum) (p : list Timeout) :=
  mkSpectrum (config st) (frequencyData st) (spectrumBars st)
    (spectrumLights st) (smoothedData st) (particlePool st)
    (particleEmissionTimers st) p (random_calls st).

Definition with_random_calls (st : AudioSpectrum) (n : nat) :=
  mkSpectrum (config st) (frequencyData st) (spectrumBars st)
    (spectrumLights st) (smoothedData st) (particlePool st)
    (particleEmissionTimers st) (pending st) n.

(** ** AudioSpectrum: construction *)

(** [getCyberpunkColor(progress)], the three-segment gradient. *)
Definition getCyberpunkColor (progress : number) : Color3.t :=
  if JS.lt progress (lit 0.33) then
    let t := (progress / lit 0.33)%js in
    Color3.make
      (lit 0 * (lit 1 - t) + lit 0 * t)%js
      (lit 0.5 * (lit 1 - t) + lit 1 * t)%js
      (lit 1)
  else if JS.lt progress (lit 0.66) then
    let t := ((progress - lit 0.33) / lit 0.33)%js in
    Color3.make
      (lit 0 * (lit 1 - t) + lit 1 * t)%js
      (lit 1 * (lit 1 - t) + lit 0 * t)%js
      (lit 1)
  else
    let t := ((progress - lit 0.66) / lit 0.34)%js in
    Color3.make
      (lit 1)
      (lit 0 * (lit 1 - t) + lit 0.2 * t)%js
      (lit 1 * (lit 1 - t) + lit 0.8 * t)%js.

(** The position of band [i] on the gradient, [i / (bandCount - 1)]. *)
Definition progress_of (n i : nat) : number :=
  (JS.of_nat i / (JS.of_nat n - lit 1))%js.

(** One iteration of the loop of [createSpectrumBars]: the bar with its
    material, and its light.  What the loop does not set keeps the
    engine's default: scaling 1, rotation 0, enabled, alpha 1. *)
Definition createSpectrumBar (n i : nat) : Mesh.t * PointLight.t :=
  let spacing := lit 1.5 in
  let totalWidth := ((JS.of_nat n - lit 1) * spacing)%js in
  let startX := (JS.neg totalWidth / lit 2)%js in
  let x := (startX + JS.of_nat i * spacing)%js in
  let position := Vector3.make x (lit 0.25) (lit 8) in
  let progress := progress_of n i in
  let baseColor := getCyberpunkColor progress in
  let material :=
    PBRMaterial.make (Color3.scale baseColor (lit 0.4)) (lit 0.05) (lit 0.9)
      (Color3.scale baseColor (lit 1.5)) (lit 1) in
  let bar := Mesh.make i position Vector3.One Vector3.Zero true material in
  let light := PointLight.make position baseColor (lit 3.0) (lit 15) in
  (bar, light).

Definition createSpectrumBars (n : nat) : list Mesh.t * list PointLight.t :=
  let made := map (createSpectrumBar n) (seq 0 n) in
  (map fst made, map snd made).

(** One iteration of the loop of [initializeParticlePool]. *)
Definition createParticle (n i : nat) : ParticleData :=
  let cylinderIndex := (i / maxParticlesPerCylinder)%nat in
  let progress := progress_of n cylinderIndex in
  let baseColor := getCyberpunkColor progress in
  let material :=
    PBRMaterial.make (Color3.scale baseColor (lit 0.3)) (lit 0.1) (lit 0.8)
      (Color3.scale baseColor (lit 1.2)) (lit 0.8) in
  let particle :=
    Mesh.make i Vector3.Zero Vector3.One Vector3.Zero false material in
  mkParticle particle Vector3.Zero (lit 0) (lit 3.0) false cylinderIndex.

Definition initializeParticlePool (n : nat) : list ParticleData :=
  let totalParticles := (n * maxParticlesPerCylinder)%nat in
  map (createParticle n) (seq 0 totalParticles).

(** The constructor, up to the asynchronous [initializeAudio]. *)
Definition constructor (cfg : AudioSpectrumConfig) : AudioSpectrum :=
  let n := bandCount cfg in
  let '(bars, lights) := createSpectrumBars n in
  mkSpectrum cfg None bars lights
    (replicate n (lit 0)) (initializeParticlePool n) (replicate n (lit 0))
    [] 0.

(** [analyser.frequencyBinCount] for [fftSize = 256]. *)
Definition frequencyBinCount : nat := 128.

(** [initializeAudio] succeeded: the buffer exists. *)
Definition initializeAudio (st : AudioSpectrum) : AudioSpectrum :=
  with_frequencyData st (Some (replicate frequencyBinCount "000"%byte)).

(** [analyser.getByteFrequencyData(buffer)]: the analyser's [sample]
    overwrites the buffer, which keeps its length. *)
Definition getByteFrequencyData (buffer sample : list byte) : list byte :=
  take (length buffer) sample ++ drop (length sample) buffer.

(** ** AudioSpectrum: band aggregation *)

(** The exponential smoothing of one band. *)
Definition smooth (old normalized : number) : number :=
  (old * lit 0.7 + normalized * lit 0.3)%js.

(** The same assignment as the engine computes it: two products and a
    sum, each rounded, on the doubles nearest to 0.7 and 0.3. *)
Definition smooth64 (old normalized : number) : number :=
  (old * B64.lit 0.7 + normalized * B64.lit 0.3)%b64.

(** [sum += this.frequencyData[j]] for [j] from [startIndex] to
    [endIndex - 1]. *)
Definition sumBins (data : list byte) (startIndex endIndex : nat) : number :=
  fold_left
    (fun sum j => (sum + default NaN (JS.of_byte <$> data !! j))%js)
    (seq startIndex (endIndex - startIndex)) (lit 0).

(** What one iteration of the loop of [processFrequencyBands] computes
    from the sample.  [bandsPerBar] is only read inside the loop, where
    [bandCount > 0], and is then the quotient of two naturals; for the
    bands of the loop, [i < bandCount], [startIndex] never exceeds
    [endIndex], so their difference is the one of naturals. *)
Definition normalizedBand (data : list byte) (n i : nat) : number :=
  let bandsPerBar := (length data / n)%nat in
  let startIndex := (i * bandsPerBar)%nat in
  let endIndex := Nat.min (startIndex + bandsPerBar) (length data) in
  let sum := sumBins data startIndex endIndex in
  let average := (sum / JS.of_nat (endIndex - startIndex))%js in
  JS.min (average / lit 255 * lit 2.5)%js (lit 1).

Definition processBand (data : list byte) (n : nat)
    (smoothed : list number) (i : nat) : list number :=
  JS.set smoothed i (smooth (JS.get smoothed i) (normalizedBand data n i)).

Definition processFrequencyBands (st : AudioSpectrum) : AudioSpectrum :=
  match frequencyData st with
  | None => st
  | Some data =>
      let n := bandCount (config st) in
      with_smoothedData st
        (fold_left (processBand data n) (seq 0 n) (smoothedData st))
  end.

(** ** AudioSpectrum: the bars *)

(** One iteration of the loop of [updateSpectrumBars]. *)
Definition updateSpectrumBar (maxH intensity : number)
    (bar : Mesh.t) (light : PointLight.t) : Mesh.t * PointLight.t :=
  let material := Mesh.material bar in
  let targetHeight := (lit 0.5 + intensity * maxH)%js in
  let scaling' := Vector3.with_y (Mesh.scaling bar) targetHeight in
  let position' :=
    Vector3.with_y (Mesh.position bar) (targetHeight / lit 2)%js in
  let lightPosition' :=
    Vector3.with_y (PointLight.position light)
      (Vector3.y position' + targetHeight / lit 2)%js in
  let baseEmissive := lit 0.8 in
  let emissiveIntensity := (baseEmissive + intensity * lit 3.5)%js in
  let baseColor := PBRMaterial.baseColor material in
  let emissive :=
    Color3.make
      (Color3.r baseColor / lit 0.2 * emissiveIntensity * lit 2.0)%js
      (Color3.g baseColor / lit 0.2 * emissiveIntensity * lit 2.0)%js
      (Color3.b baseColor / lit 0.2 * emissiveIntensity * lit 2.0)%js in
  let rotation' :=
    Vector3.with_y (Mesh.rotation bar)
      (Vector3.y (Mesh.rotation bar) + lit 0.005 * (lit 1 + intensity))%js in
  (Mesh.make (Mesh.name bar) position' scaling' rotation' (Mesh.enabled bar)
     (PBRMaterial.with_emissiveColor material emissive),
   PointLight.make lightPosition' (PointLight.diffuse light)
     (lit 2.0 + intensity * lit 8.0)%js (lit 12 + intensity * lit 8)%js).

(** One iteration of the bar loop of the fallback animation, for the
    value [wave] of the sine term. *)
Definition fallbackBar (maxH wave : number)
    (bar : Mesh.t) (light : PointLight.t) : Mesh.t * PointLight.t :=
  let material := Mesh.material bar in
  let intensity := (wave * lit 0.3 + lit 0.1)%js in
  let targetHeight := (lit 0.5 + intensity * maxH * lit 0.5)%js in
  let scaling' := Vector3.with_y (Mesh.scaling bar) targetHeight in
  let position' :=
    Vector3.with_y (Mesh.position bar) (targetHeight / lit 2)%js in
  let lightPosition' :=
    Vector3.with_y (PointLight.position light)
      (Vector3.y position' + targetHeight / lit 2)%js in
  let baseColor := PBRMaterial.baseColor material in
  let emissiveIntensity := (lit 1.2 + intensity * lit 2.0)%js in
  let emissive :=
    Color3.make
      (Color3.r baseColor / lit 0.4 * emissiveIntensity * lit 1.8)%js
      (Color3.g baseColor / lit 0.4 * emissiveIntensity * lit 1.8)%js
      (Color3.b baseColor / lit 0.4 * emissiveIntensity * lit 1.8)%js in
  let rotation' :=
    Vector3.with_y (Mesh.rotation bar)
      (Vector3.y (Mesh.rotation bar) + lit 0.002)%js in
  (Mesh.make (Mesh.name bar) position' scaling' rotation' (Mesh.enabled bar)
     (PBRMaterial.with_emissiveColor material emissive),
   PointLight.make lightPosition' (PointLight.diffuse light)
     (lit 2.5 + intensity * lit 4.0)%js (lit 12 + intensity * lit 6)%js).

(** The body of a bar loop: bar [i] and light [i] are replaced by what
    [f] makes of them; a missing light is a [TypeError]. *)
Definition updateBarAt (f : nat -> Mesh.t -> PointLight.t -> Mesh.t * PointLight.t)
    (i : nat) (st : AudioSpectrum) : completion AudioSpectrum :=
  match spectrumBars st !! i, spectrumLights st !! i with
  | Some bar, Some light =>
      let '(bar', light') := f i bar light in
      Normal (with_bars st (<[i := bar']> (spectrumBars st))
                (<[i := light']> (spectrumLights st)))
  | _, _ => Throw
  end.

Definition updateSpectrumBars (st : AudioSpectrum) : completion AudioSpectrum :=
  for_range 0 (length (spectrumBars st))
    (updateBarAt (fun i =>
       updateSpectrumBar (maxHeight (config st)) (JS.get (smoothedData st) i)))
    st.

(** ** AudioSpectrum: the particle pool *)

(** [getInactiveParticle]: the first pool entry of the cylinder that is
    not active, with its place in the pool. *)
Definition getInactiveParticle (cylinder : nat) (pool : list ParticleData)
  : option (nat * ParticleData) :=
  list_find (fun particle =>
    active particle = false /\ cylinderIndex particle = cylinder) pool.

(** The body of the loop of [updateParticles]. *)
Definition updateParticle (deltaTime : number) (particle : ParticleData)
  : ParticleData :=
  if negb (active particle) then particle
  else
    let life' := (life particle - deltaTime)%js in
    if JS.le life' (lit 0) then
      mkParticle (Mesh.setEnabled (mesh particle) false) (velocity particle)
        life' (maxLife particle) false (cylinderIndex particle)
    else
      let position' :=
        Vector3.add (Mesh.position (mesh particle))
          (Vector3.scale (velocity particle) deltaTime) in
      let velocity1 :=
        Vector3.with_y (velocity particle)
          (Vector3.y (velocity particle) - lit 0.2 * deltaTime)%js in
      let velocity' := Vector3.scale velocity1 (lit 0.98) in
      let lifeRatio := (life' / maxLife particle)%js in
      let alpha := JS.min (lit 0.8) (lifeRatio * lit 1.2)%js in
      let scale := (lit 0.5 + lifeRatio * lit 0.5)%js in
      let material := Mesh.material (mesh particle) in
      let emissiveIntensity := (lifeRatio * lit 1.2)%js in
      let baseColor := PBRMaterial.baseColor material in
      let emissive :=
        Color3.make
          (Color3.r baseColor / lit 0.3 * emissiveIntensity)%js
          (Color3.g baseColor / lit 0.3 * emissiveIntensity)%js
          (Color3.b baseColor / lit 0.3 * emissiveIntensity)%js in
      let material' :=
        PBRMaterial.with_emissiveColor
          (PBRMaterial.with_alpha material alpha) emissive in
      let mesh' :=
        Mesh.make (Mesh.name (mesh particle)) position'
          (Vector3.setAll scale) (Mesh.rotation (mesh particle))
          (Mesh.enabled (mesh particle)) material' in
      mkParticle mesh' velocity' life' (maxLife particle) true
        (cylinderIndex particle).

Definition updateParticles (deltaTime : number) (st : AudioSpectrum)
  : AudioSpectrum :=
  with_particlePool st (map (updateParticle deltaTime) (particlePool st)).

(** The reset value of an emission timer. *)
Definition emissionRate (intensity : number) : number :=
  let baseEmissionRate := lit 0.3 in
  let intensityEmissionRate :=
    JS.max (lit 0.05) (lit 0.3 - intensity * lit 0.25)%js in
  JS.min baseEmissionRate intensityEmissionRate.

Section Frames.

(** The values [Math.random()] returns, in the order of the calls, and
    [Math.sin]. *)
Variable random_source : nat -> Q.
Variable Math_sin : number -> number.

Definition random (st : AudioSpectrum) (k : nat) : number :=
  Fin (random_source (random_calls st + k)).

(** What [emitParticle] makes of the particle it found. *)
Definition launch (st : AudioSpectrum) (bar : Mesh.t) (particle : ParticleData)
  : ParticleData :=
  let topY :=
    (Vector3.y (Mesh.position bar) + Vector3.y (Mesh.scaling bar) * lit 0.5)%js in
  let position' :=
    Vector3.make
      (Vector3.x (Mesh.position bar) + (random st 0 - lit 0.5) * lit 0.3)%js
      topY
      (Vector3.z (Mesh.position bar) + (random st 1 - lit 0.5) * lit 0.3)%js in
  let velocity' :=
    Vector3.make
      ((random st 2 - lit 0.5) * lit 0.5)%js
      (lit 1.0 + random st 3 * lit 0.5)%js
      ((random st 4 - lit 0.5) * lit 0.5)%js in
  let material' :=
    PBRMaterial.with_alpha (Mesh.material (mesh particle)) (lit 0.8) in
  let mesh' :=
    Mesh.make (Mesh.name (mesh particle)) position' (Vector3.setAll (lit 1.0))
      (Mesh.rotation (mesh particle)) true material' in
  mkParticle mesh' velocity' (maxLife particle) (maxLife particle) true
    (cylinderIndex particle).

Definition emitParticle (cylinder : nat) (intensity : number)
    (st : AudioSpectrum) : completion AudioSpectrum :=
  match getInactiveParticle cylinder (particlePool st) with
  | None => Normal st
  | Some (k, particle) =>
      match spectrumBars st !! cylinder with
      | None => Throw
      | Some bar =>
          Normal
            (with_random_calls
               (with_particlePool st
                  (<[k := launch st bar particle]> (particlePool st)))
               (random_calls st + 5))
      end
  end.

(** The timeouts of a burst: [burstCount] callbacks, staggered by 50 ms. *)
Definition burstTimeouts (i : nat) (intensity : number) (burstCount : Z)
  : list Timeout :=
  map (fun burst => mkTimeout (burst * 50) i intensity)
      (seq 0 (Z.to_nat burstCount)).

(** The body of the loop of [updateParticleEmission]. *)
Definition emissionStep (deltaTime : number) (i : nat) (st : AudioSpectrum)
  : completion AudioSpectrum :=
  let intensity := JS.get (smoothedData st) i in
  let st1 :=
    with_timers st
      (JS.set (particleEmissionTimers st) i
         (JS.get (particleEmissionTimers st) i - deltaTime)%js) in
  if JS.le (JS.get (particleEmissionTimers st1) i) (lit 0) then
    st2 ← emitParticle i intensity st1;
    let st3 :=
      with_timers st2
        (JS.set (particleEmissionTimers st2) i (emissionRate intensity)) in
    if JS.gt intensity (lit 0.7) then
      let st4 := with_random_calls st3 (random_calls st3 + 1) in
      if JS.lt (random st3 0) (lit 0.3) then
        let burstCount := (Qfloor (random_source (random_calls st4) * 2) + 1)%Z in
        Normal
          (with_pending
             (with_random_calls st4 (random_calls st4 + 1))
             (pending st4 ++ burstTimeouts i intensity burstCount))
      else Normal st4
    else Normal st3
  else Normal st1.

Definition updateParticleEmission (deltaTime : number) (st : AudioSpectrum)
  : completion AudioSpectrum :=
  for_range 0 (bandCount (config st)) (emissionStep deltaTime) st.

(** ** AudioSpectrum: the callbacks *)

(** The callback of [startVisualization], for the [sample] the analyser
    holds and the seconds since the previous callback. *)
Definition animate (sample : list byte) (deltaTime : number)
    (st : AudioSpectrum) : completion AudioSpectrum :=
  match frequencyData st with
  | None => Normal st
  | Some buffer =>
      let st1 :=
        with_frequencyData st (Some (getByteFrequencyData buffer sample)) in
      let st2 := processFrequencyBands st1 in
      st3 ← updateSpectrumBars st2;
      updateParticleEmission deltaTime (updateParticles deltaTime st3)
  end.

(** The callback of [createFallbackAnimation]; [time] is the value of
    its counter after [time += 0.02]. *)
Definition animateFallback (time deltaTime : number) (st : AudioSpectrum)
  : completion AudioSpectrum :=
  st1 ← for_range 0 (length (spectrumBars st))
          (updateBarAt (fun i =>
             let wave :=
               (Math_sin (time + JS.of_nat i * lit 0.5) * lit 0.5 + lit 0.5)%js in
             fallbackBar (maxHeight (config st)) wave))
          st;
  updateParticleEmission deltaTime (updateParticles deltaTime st1).

(** The [k]-th registered timeout runs. *)
Definition runTimeout (k : nat) (st : AudioSpectrum)
  : completion AudioSpectrum :=
  match pending st !! k with
  | None => Normal st
  | Some t =>
      emitParticle (timeout_band t) (timeout_intensity t)
        (with_pending st (delete k (pending st)))
  end.

(** What happens to a visualizer between its construction and its
    disposal. *)
Inductive event : Type :=
| AudioReady
| AnimationFrame (sample : list byte) (deltaTime : Q)
| FallbackFrame (time : number) (deltaTime : Q)
| TimeoutFired (k : nat).

Definition handle (e : event) (st : AudioSpectrum) : completion AudioSpectrum :=
  match e with
  | AudioReady => Normal (initializeAudio st)
  | AnimationFrame sample deltaTime => animate sample (Fin deltaTime) st
  | FallbackFrame time deltaTime => animateFallback time (Fin deltaTime) st
  | TimeoutFired k => runTimeout k st
  end.

(** The states of a live visualizer built with [cfg]: those the callbacks
    reach from the constructor.  [dispose] is not a step here; [lifetime],
    below, is the same relation with [dispose] as a further step. *)
Inductive reachable (cfg : AudioSpectrumConfig) : AudioSpectrum -> Prop :=
| reachable_constructor : reachable cfg (constructor cfg)
| reachable_handle st e st' :
    reachable cfg st -> handle e st = Normal st' -> reachable cfg st'.

(** Running a list of events, for concrete scenarios. *)
Fixpoint run (es : list event) (st : AudioSpectrum) : completion AudioSpectrum :=
  match es with
  | [] => Normal st
  | e :: es' => st' ← handle e st; run es' st'
  end.

End Frames.

(** ** VRSceneManager: session data, head tracking, snapshots *)

Module VR.

Definition loc : Type := positive.

(** The objects the manager creates and hands out.  The id of a
    controller is the index [i] of its name [controller_i]. *)
Inductive object : Type :=
| Coordinates (v : Vector3.t)
| ControllerData (id : nat) (position rotation : loc) (connected : bool)
| ControllerArray (items : list loc)
| SessionData (isActive isSupported : bool)
    (controllers headPosition headRotation : loc).

Definition alloc (o : object) (h : gmap loc object) : loc * gmap loc object :=
  let l := fresh (dom h) in (l, <[l := o]> h).

(** The manager.  [isActive] to [headRotation] are the fields of
    [this.vrSessionData], an object that is created by the constructor
    and never leaves the class; the objects its fields refer to live in
    [store], with the snapshots handed out. *)
Record VRSceneManager : Type := mkManager {
  store : gmap loc object;
  isActive : bool;
  isSupported : bool;
  controllers : loc;
  headPosition : loc;
  headRotation : loc;
  headTrackingInterval : option positive }.

Definition constructor : VRSceneManager :=
  let '(cs, h1) := alloc (ControllerArray []) ∅ in
  let '(hp, h2) := alloc (Coordinates Vector3.Zero) h1 in
  let '(hr, h3) := alloc (Coordinates Vector3.Zero) h2 in
  mkManager h3 false false cs hp hr None.

(** What the XR runtime shows to the tracking callback. *)
Record XRPose : Type := mkPose { position : Vector3.t; rotation : Vector3.t }.
Record XRController : Type := mkController {
  pointer : option XRPose;
  connected : bool }.
Record XRReading : Type := mkReading {
  camera : option XRPose;
  inputControllers : option (list XRController) }.

(** [Math.round(a * 100) / 100], in binary64: the product and the
    quotient are rounded, [Math.round] is exact. *)
Definition round2 (a : number) : number :=
  (JS.round (a * B64.lit 100) / B64.lit 100)%b64.

(** [Math.round((a * 180 / Math.PI) * 100) / 100], in binary64. *)
Definition degrees2 (a : number) : number :=
  (JS.round (a * B64.lit 180 / JS.PI * B64.lit 100) / B64.lit 100)%b64.

Definition onEach (f : number -> number) (v : Vector3.t) : Vector3.t :=
  Vector3.make (f (Vector3.x v)) (f (Vector3.y v)) (f (Vector3.z v)).

(** [controller.pointer?.position.x || 0] and its like. *)
Definition pointerPosition (c : XRController) : Vector3.t :=
  match pointer c with
  | Some p => onEach JS.or_zero (position p)
  | None => Vector3.Zero
  end.

Definition pointerRotation (c : XRController) : Vector3.t :=
  match pointer c with
  | Some p => onEach JS.or_zero (rotation p)
  | None => Vector3.Zero
  end.

(** The callback of [controllers.map]: three new objects. *)
Definition mapController (index : nat) (c : XRController)
    (h : gmap loc object) : loc * gmap loc object :=
  let '(p, h1) := alloc (Coordinates (onEach round2 (pointerPosition c))) h in
  let '(r, h2) := alloc (Coordinates (onEach degrees2 (pointerRotation c))) h1 in
  alloc (ControllerData index p r (connected c)) h2.

Fixpoint mapControllers (index : nat) (cs : list XRController)
    (h : gmap loc object) : list loc * gmap loc object :=
  match cs with
  | [] => ([], h)
  | c :: cs' =>
      let '(l, h1) := mapController index c h in
      let '(ls, h2) := mapControllers (S index) cs' h1 in
      (l :: ls, h2)
  end.

(** The callback of [setInterval] in [startHeadTracking]. *)
Definition trackHead (xr : XRReading) (m : VRSceneManager) : VRSceneManager :=
  match camera xr with
  | None => m
  | Some cam =>
      let '(hp, h1) :=
        alloc (Coordinates (onEach round2 (position cam))) (store m) in
      let '(hr, h2) :=
        alloc (Coordinates (onEach degrees2 (rotation cam))) h1 in
      match inputControllers xr with
      | None =>
          mkManager h2 (isActive m) (isSupported m) (controllers m) hp hr
            (headTrackingInterval m)
      | Some cs =>
          let '(ls, h3) := mapControllers 0 cs h2 in
          let '(arr, h4) := alloc (ControllerArray ls) h3 in
          mkManager h4 (isActive m) (isSupported m) arr hp hr
            (headTrackingInterval m)
      end
  end.

(** [startHeadTracking]; [id] is what [setInterval] returns. *)
Definition startHeadTracking (id : positive) (m : VRSceneManager)
  : VRSceneManager :=
  mkManager (store m) (isActive m) (isSupported m) (controllers m)
    (headPosition m) (headRotation m) (Some id).

Definition stopHeadTracking (m : VRSceneManager) : VRSceneManager :=
  let '(hp, h1) := alloc (Coordinates Vector3.Zero) (store m) in
  let '(hr, h2) := alloc (Coordinates Vector3.Zero) h1 in
  let '(cs, h3) := alloc (ControllerArray []) h2 in
  mkManager h3 (isActive m) (isSupported m) cs hp hr None.

Inductive WebXRState : Type := ENTERING_XR | EXITING_XR | IN_XR | NOT_IN_XR.

(** The observer of [onStateChangedObservable]. *)
Definition onStateChanged (state : WebXRState) (id : positive)
    (m : VRSceneManager) : VRSceneManager :=
  let m1 :=
    mkManager (store m)
      (match state with IN_XR => true | _ => false end)
      (isSupported m) (controllers m) (headPosition m) (headRotation m)
      (headTrackingInterval m) in
  match state with
  | IN_XR => startHeadTracking id m1
  | NOT_IN_XR => stopHeadTracking m1
  | _ => m1
  end.

(** [setupVR] sets [isSupported] to whether the XR experience was
    created. *)
Definition setupVR (ok : bool) (m : VRSceneManager) : VRSceneManager :=
  mkManager (store m) (isActive m) ok (controllers m) (headPosition m)
    (headRotation m) (headTrackingInterval m).

(** [getVRSessionData]: [{ ...this.vrSessionData }], a new object with
    the five fields of the session data. *)
Definition getVRSessionData (m : VRSceneManager) : loc * VRSceneManager :=
  let '(s, h) :=
    alloc (SessionData (isActive m) (isSupported m) (controllers m)
             (headPosition m) (headRotation m)) (store m) in
  (s, mkManager h (isActive m) (isSupported m) (controllers m)
        (headPosition m) (headRotation m) (headTrackingInterval m)).

(** Everything the class itself does to its tracking state. *)
Inductive event : Type :=
| SetupVR (ok : bool)
| StateChanged (state : WebXRState) (id : positive)
| IntervalElapsed (xr : XRReading)
| SnapshotTaken.

Definition handle (e : event) (m : VRSceneManager) : VRSceneManager :=
  match e with
  | SetupVR ok => setupVR ok m
  | StateChanged state id => onStateChanged state id m
  | IntervalElapsed xr =>
      match headTrackingInterval m with
      | Some _ => trackHead xr m
      | None => m
      end
  | SnapshotTaken => snd (getVRSessionData m)
  end.

Definition run (es : list event) (m : VRSceneManager) : VRSceneManager :=
  fold_left (fun m e => handle e m) es m.

(** *** What an observer sees of an object *)

Record ControllerView : Type := mkControllerView {
  view_id : nat;
  view_position : Vector3.t;
  view_rotation : Vector3.t;
  view_connected : bool }.

Record SessionView : Type := mkSessionView {
  view_isActive : bool;
  view_isSupported : bool;
  view_controllers : list ControllerView;
  view_headPosition : Vector3.t;
  view_headRotation : Vector3.t }.

Definition readCoordinates (h : gmap loc object) (l : loc) : option Vector3.t :=
  match h !! l with
  | Some (Coordinates v) => Some v
  | _ => None
  end.

Definition readController (h : gmap loc object) (l : loc)
  : option ControllerView :=
  match h !! l with
  | Some (ControllerData id p r c) =>
      p' ← readCoordinates h p;
      r' ← readCoordinates h r;
      Some (mkControllerView id p' r' c)
  | _ => None
  end.

Definition readControllers (h : gmap loc object) (l : loc)
  : option (list ControllerView) :=
  match h !! l with
  | Some (ControllerArray items) => mapM (readController h) items
  | _ => None
  end.

(** The session data behind the three references [cs], [hp], [hr]. *)
Definition readFields (h : gmap loc object) (a s : bool) (cs hp hr : loc)
  : option SessionView :=
  cs' ← readControllers h cs;
  hp' ← readCoordinates h hp;
  hr' ← readCoordinates h hr;
  Some (mkSessionView a s cs' hp' hr').

(** The manager's own session data. *)
Definition coreView (m : VRSceneManager) : option SessionView :=
  readFields (store m) (isActive m) (isSupported m) (controllers m)
    (headPosition m) (headRotation m).

(** The session data a snapshot at [l] shows. *)
Definition snapshotView (h : gmap loc object) (l : loc) : option SessionView :=
  match h !! l with
  | Some (SessionData a s cs hp hr) => readFields h a s cs hp hr
  | _ => None
  end.

(** An observer writes [v] to the object [snapshot.headPosition]. *)
Definition writeHeadPosition (snapshot : loc) (v : Vector3.t)
    (m : VRSceneManager) : VRSceneManager :=
  match store m !! snapshot with
  | Some (SessionData _ _ _ hp _) =>
      mkManager (<[hp := Coordinates v]> (store m)) (isActive m)
        (isSupported m) (controllers m) (headPosition m) (headRotation m)
        (headTrackingInterval m)
  | _ => m
  end.

(** An observer assigns the fields of the snapshot object itself. *)
Definition assignSnapshot (snapshot : loc) (a s : bool) (cs hp hr : loc)
    (m : VRSceneManager) : VRSceneManager :=
  mkManager (<[snapshot := SessionData a s cs hp hr]> (store m)) (isActive m)
    (isSupported m) (controllers m) (headPosition m) (headRotation m)
    (headTrackingInterval m).

(** *** A session, for the examples *)

(** The manager at the start of a session, after one poll. *)
Definition reading : XRReading :=
  mkReading
    (Some (mkPose (Vector3.make (B64.lit 1.234) (B64.lit 1.6)
                     (B64.lit (-0.5)))
                  (Vector3.make (B64.lit 0.1) (lit 0) (lit 0))))
    (Some [mkController None true]).

Definition tracking : VRSceneManager :=
  run [SetupVR true; StateChanged IN_XR 1%positive; IntervalElapsed reading]
    constructor.

(** What it then shows. *)
Definition tracked : SessionView :=
  default (mkSessionView false false [] Vector3.Zero Vector3.Zero)
    (coreView tracking).

Definition zeroed (a s : bool) : SessionView :=
  mkSessionView a s [] Vector3.Zero Vector3.Zero.

End VR.

(** ** The vocabulary of the properties *)

Section Vocabulary.
#[local] Open Scope Q_scope.

Definition unit_color (c : Color3.t) : Prop :=
  JS.unit_interval (Color3.r c) /\ JS.unit_interval (Color3.g c) /\
  JS.unit_interval (Color3.b c).

(** A band after [k] frames with the same normalized input [x], in
    binary64. *)
Definition settle64 (x : number) (k : nat) (s : number) : number :=
  Nat.iter k (fun s => smooth64 s x) s.

(** The normalized value of a band whose bins are all 10:
    [Math.min((average / 255) * 2.5, 1)] with [average = 10]. *)
Definition tenInput : number :=
  JS.min (lit 10 / B64.lit 255 * B64.lit 2.5)%b64 (lit 1).

Definition byteQ (b : byte) : Q := inject_Z (Z.of_N (Byte.to_N b)).

Definition byteSum (group : list byte) : Q :=
  fold_right (fun b acc => byteQ b + acc) 0 group.

(** The specification's band [i]: the [i]-th group of [length / n]
    consecutive bins, and its arithmetic mean. *)
Definition bandGroup (data : list byte) (n i : nat) : list byte :=
  let width := (length data / n)%nat in
  take width (drop (i * width) data).

Definition arithmeticMean (group : list byte) : Q :=
  byteSum group / inject_Z (Z.of_nat (length group)).

(** A new visualizer whose buffer holds [sample]. *)
Definition listening (cfg : AudioSpectrumConfig) (sample : list byte)
  : AudioSpectrum :=
  with_frequencyData (constructor cfg) (Some sample).

(** [processFrequencyBands] on a buffer holding [sample]. *)
Definition feed (sample : list byte) (st : AudioSpectrum) : AudioSpectrum :=
  processFrequencyBands (with_frequencyData st (Some sample)).

(** What names a pool entry: its mesh and the band that owns it. *)
Definition identity (particle : ParticleData) : nat * nat :=
  (Mesh.name (mesh particle), cylinderIndex particle).

(** The active entries of band [i]. *)
Definition activeCount (i : nat) (pool : list ParticleData) : nat :=
  length (filter (fun particle =>
            active particle = true /\ cylinderIndex particle = i) pool).

(** A smoothed intensity: in [0, 1], or [NaN] when a band has no bin. *)
Definition band_value (v : number) : Prop := v = NaN \/ JS.unit_interval v.

Definition particle_ok (particle : ParticleData) : Prop :=
  Mesh.enabled (mesh particle) = active particle /\
  JS.finite (life particle) /\
  maxLife particle = lit 3.0.

Record invariant (n : nat) (st : AudioSpectrum) : Prop := mkInvariant {
  inv_bandCount : bandCount (config st) = n;
  inv_buffer : forall data : list byte,
    frequencyData st = Some data -> length data = frequencyBinCount;
  inv_bars : length (spectrumBars st) = n;
  inv_lights : length (spectrumLights st) = n;
  inv_smoothed_length : length (smoothedData st) = n;
  inv_smoothed : Forall band_value (smoothedData st);
  inv_smoothed_unit :
    (n <= frequencyBinCount)%nat -> Forall JS.unit_interval (smoothedData st);
  inv_timers : length (particleEmissionTimers st) = n;
  inv_identity :
    map identity (particlePool st) = map identity (initializeParticlePool n);
  inv_particles : Forall particle_ok (particlePool st) }.

(** What [emitParticle] leaves of a particle it launched. *)
Definition launched (p : ParticleData) : Prop :=
  active p = true /\ Mesh.enabled (mesh p) = true /\ life p = maxLife p.

(** The new pool holds the entries of the old one, except for entries
    just launched. *)
Definition emission_only (pool pool' : list ParticleData) : Prop :=
  forall k p', pool' !! k = Some p' -> pool !! k = Some p' \/ launched p'.

(** The value of timer [i] after the body of the loop. *)
Definition timerAfter (deltaTime : number) (st : AudioSpectrum) (i : nat)
  : number :=
  let t := (JS.get (particleEmissionTimers st) i - deltaTime)%js in
  if JS.le t (lit 0) then emissionRate (JS.get (smoothedData st) i) else t.

(** The specification's reset value of a timer. *)
Definition resetInterval (intensity : number) : number :=
  JS.max (lit 0.05) (lit 0.3 - intensity * lit 0.25)%js.

(** Whether the loop of [updateParticleEmission] finds timer [i] due. *)
Definition due (deltaTime : number) (st : AudioSpectrum) (i : nat) : bool :=
  JS.le (JS.get (particleEmissionTimers st) i - deltaTime)%js (lit 0).

(** The entries of band [i] are the same in both pools. *)
Definition band_untouched (i : nat) (pool pool' : list ParticleData) : Prop :=
  forall k q, pool !! k = Some q -> cylinderIndex q = i -> pool' !! k = Some q.

(** One emission was requested for band [i]: its first inactive entry,
    if it has one, is launched, and its other entries are the same. *)
Definition band_emitted (i : nat) (pool pool' : list ParticleData) : Prop :=
  match getInactiveParticle i pool with
  | Some (k, p) =>
      (exists p', pool' !! k = Some p' /\ launched p' /\
                  identity p' = identity p) /\
      forall k' q, k' <> k -> pool !! k' = Some q -> cylinderIndex q = i ->
                   pool' !! k' = Some q
  | None => band_untouched i pool pool'
  end.

(** How far the loop of [updateParticleEmission] has come after [j]
    bands, from the state [st] it started in. *)
Definition emission_progress (deltaTime : number) (n : nat)
    (st : AudioSpectrum) (j : nat) (s : AudioSpectrum) : Prop :=
  invariant n s /\
  smoothedData s = smoothedData st /\
  (forall i : nat, (i < n)%nat ->
     particleEmissionTimers s !! i
     = Some (if decide (i < j)%nat then timerAfter deltaTime st i
             else JS.get (particleEmissionTimers st) i)) /\
  (forall i : nat,
     if decide (i < j)%nat
     then (if due deltaTime st i
           then band_emitted i (particlePool st) (particlePool s)
           else band_untouched i (particlePool st) (particlePool s))
     else band_untouched i (particlePool st) (particlePool s)).

(** The configuration the scene builds its visualizer with. *)
Definition sceneConfig : AudioSpectrumConfig :=
  mkConfig 8 (lit 12) (lit 4) (lit 0.85).

(** More bands than the analyser has bins. *)
Definition wideConfig : AudioSpectrumConfig :=
  mkConfig 129 (lit 12) (lit 4) (lit 0.85).

Definition evenRandom : nat -> Q := fun _ => (1 # 2)%Q.
Definition flatSine : number -> number := fun _ => lit 0.

Definition silence : list byte := replicate frequencyBinCount "000"%byte.
Definition loud : list byte := replicate frequencyBinCount "255"%byte.

Definition stateAfter (cfg : AudioSpectrumConfig) (es : list event)
  : AudioSpectrum :=
  match run evenRandom flatSine es (constructor cfg) with
  | Normal st => st
  | Throw => constructor cfg
  end.

(** Ten loud frames a quarter of a second apart: every band has launched
    ten particles and none has died yet. *)
Definition crowded : AudioSpectrum :=
  stateAfter sceneConfig (AudioReady :: replicate 10 (AnimationFrame loud 0.25)).

(** The oldest particle of the first band of [crowded], and what is left
    of its life. *)
Definition oldest : ParticleData :=
  default (createParticle 8 0) (particlePool crowded !! 0%nat).

Definition oldestLife : Q :=
  match life oldest with
  | Fin l => l
  | _ => 0
  end.

(** One loud frame: every band has launched its first particle. *)
Definition started : AudioSpectrum :=
  stateAfter sceneConfig [AudioReady; AnimationFrame loud 0.25].

(** The state in which the callback of [startVisualization] calls
    [updateParticleEmission]: the frame up to [updateParticles]. *)
Definition frameBeforeEmission (sample : list byte) (deltaTime : number)
    (st : AudioSpectrum) : AudioSpectrum :=
  match frequencyData st with
  | None => st
  | Some buffer =>
      let st1 :=
        with_frequencyData st (Some (getByteFrequencyData buffer sample)) in
      match updateSpectrumBars (processFrequencyBands st1) with
      | Normal st3 => updateParticles deltaTime st3
      | Throw => st
      end
  end.

(** The frame after [crowded], where it calls [updateParticleEmission]. *)
Definition crowdedUpdated : AudioSpectrum :=
  frameBeforeEmission loud (lit 0.25) crowded.

Definition crowdedEmitted : AudioSpectrum :=
  match updateParticleEmission evenRandom (lit 0.25) crowdedUpdated with
  | Normal st => st
  | Throw => crowdedUpdated
  end.

End Vocabulary.

(** * Further vocabulary *)

(** ** AudioSpectrum: disposal *)

(** [dispose]: the four arrays are emptied ([this.materials] with the
    bars); the smoothed values, the timers and the buffer stay. *)
Definition dispose (st : AudioSpectrum) : AudioSpectrum :=
  with_particlePool (with_bars st [] []) [].

(** ** More vocabulary *)

(** Where [createSpectrumBars] puts bar [i] of [n]: 1.5 apart, centred. *)
Definition barX (n i : nat) : Q :=
  (1.5 * inject_Z (Z.of_nat i) - 0.75 * (inject_Z (Z.of_nat n) - 1))%Q.

(** What construction fixes of a bar, of a light and of a pool entry. *)
Definition barKey (bar : Mesh.t)
  : nat * number * number * Color3.t * number * number :=
  (Mesh.name bar, Vector3.x (Mesh.position bar),
   Vector3.z (Mesh.position bar), PBRMaterial.baseColor (Mesh.material bar),
   PBRMaterial.roughness (Mesh.material bar),
   PBRMaterial.metallicFactor (Mesh.material bar)).

Definition particleKey (p : ParticleData)
  : nat * nat * Color3.t * number :=
  (Mesh.name (mesh p), cylinderIndex p,
   PBRMaterial.baseColor (Mesh.material (mesh p)), maxLife p).

Definition palette (st : AudioSpectrum)
  : list (nat * number * number * Color3.t * number * number)
    * list Color3.t * list (nat * nat * Color3.t * number) :=
  (map barKey (spectrumBars st), map PointLight.diffuse (spectrumLights st),
   map particleKey (particlePool st)).

(** An entry is active exactly while it has life left. *)
Definition life_matches_active (p : ParticleData) : Prop :=
  match life p with
  | Fin l => active p = true <-> (0 < l)%Q
  | _ => False
  end.

(** The rational a finite number holds. *)
Definition finite_part (v : number) : Q :=
  match v with
  | Fin q => q
  | _ => 0%Q
  end.

(** [Math.random()] returns values in [0, 1). *)
Definition unit_random (random_source : nat -> Q) : Prop :=
  forall k : nat, (0 <= random_source k < 1)%Q.

(** A visualizer with twelve bands, as an earlier scene builds it: the
    128 bins leave eight over. *)
Definition twelveBands : AudioSpectrumConfig :=
  mkConfig 12 (lit 15) (lit 6) (lit 0.8).

Definition loudButTop : list byte :=
  replicate 120 "255"%byte ++ replicate 8 "000"%byte.

(** A timeout that the emission step starting in [st] may register: for
    a due band louder than 0.7, with the band's intensity, at once or 50
    ms later. *)
Definition burst_timeout (deltaTime : number) (st : AudioSpectrum)
    (t : Timeout) : Prop :=
  (timeout_band t < bandCount (config st))%nat /\
  due deltaTime st (timeout_band t) = true /\
  JS.gt (JS.get (smoothedData st) (timeout_band t)) (lit 0.7) = true /\
  timeout_intensity t = JS.get (smoothedData st) (timeout_band t) /\
  (timeout_delay t = 0%nat \/ timeout_delay t = 50%nat).

(** The state is [st] but for the pool, the timers, the registered
    timeouts and the count of random draws. *)
Definition same_scene (st s : AudioSpectrum) : Prop :=
  config s = config st /\ frequencyData s = frequencyData st /\
  spectrumBars s = spectrumBars st /\ spectrumLights s = spectrumLights st /\
  smoothedData s = smoothedData st.

(** Random draws below the burst chance. *)
Definition lowRandom : nat -> Q := fun _ => (1 # 4)%Q.

(** An emission step in [crowded] with such draws. *)
Definition crowdedBurst : AudioSpectrum :=
  match updateParticleEmission lowRandom (lit 0.25) crowded with
  | Normal st => st
  | Throw => crowded
  end.

(** The callbacks of a visualizer whose microphone could not be opened. *)
Definition fallback_event (e : event) : Prop :=
  match e with
  | FallbackFrame _ _ | TimeoutFired _ => True
  | _ => False
  end.

(** After [dispose]: no bar, no light, no pool entry. *)
Definition disposed (st : AudioSpectrum) : Prop :=
  particlePool st = [] /\ spectrumBars st = [] /\ spectrumLights st = [].

(** The states of a visualizer over its whole life: those the callbacks
    reach, and those after [dispose], which cancels the animation frame
    but neither a burst timeout that is already registered nor the
    pending start of the audio, so that callbacks still run. *)
Inductive lifetime (random_source : nat -> Q) (Math_sin : number -> number)
    (cfg : AudioSpectrumConfig) : AudioSpectrum -> Prop :=
| lifetime_constructor : lifetime random_source Math_sin cfg (constructor cfg)
| lifetime_handle st e st' :
    lifetime random_source Math_sin cfg st ->
    handle random_source Math_sin e st = Normal st' ->
    lifetime random_source Math_sin cfg st'
| lifetime_dispose st :
    lifetime random_source Math_sin cfg st ->
    lifetime random_source Math_sin cfg (dispose st).

(** The pool as [initializeParticlePool] built it: [bandCount * 10]
    entries, entry [k] with mesh [k] and band [k / 10]. *)
Definition pool_as_built (cfg : AudioSpectrumConfig) (st : AudioSpectrum)
  : Prop :=
  length (particlePool st) = (bandCount cfg * maxParticlesPerCylinder)%nat /\
  map identity (particlePool st)
  = map identity (particlePool (constructor cfg)).

(** Ten loud frames with random draws below the burst chance: bursts
    have been registered and their timeouts have not fired yet. *)
Definition bursting : AudioSpectrum :=
  match run lowRandom flatSine
          (AudioReady :: replicate 10 (AnimationFrame loud 0.25))
          (constructor sceneConfig) with
  | Normal st => st
  | Throw => constructor sceneConfig
  end.

(** ** The life of a particle, on the engine's numbers *)

(** The body of the loop of [updateParticles] with every sum, product
    and quotient rounded to binary64. *)
Definition updateParticle64 (deltaTime : number) (particle : ParticleData)
  : ParticleData :=
  if negb (active particle) then particle
  else
    let life' := (life particle - deltaTime)%b64 in
    if JS.le life' (lit 0) then
      mkParticle (Mesh.setEnabled (mesh particle) false) (velocity particle)
        life' (maxLife particle) false (cylinderIndex particle)
    else
      let p := Mesh.position (mesh particle) in
      let v := velocity particle in
      let position' :=
        Vector3.make (Vector3.x p + Vector3.x v * deltaTime)%b64
                     (Vector3.y p + Vector3.y v * deltaTime)%b64
                     (Vector3.z p + Vector3.z v * deltaTime)%b64 in
      let vy := (Vector3.y v - B64.lit 0.2 * deltaTime)%b64 in
      let velocity' :=
        Vector3.make (Vector3.x v * B64.lit 0.98)%b64
                     (vy * B64.lit 0.98)%b64
                     (Vector3.z v * B64.lit 0.98)%b64 in
      let lifeRatio := (life' / maxLife particle)%b64 in
      let alpha := JS.min (B64.lit 0.8) (lifeRatio * B64.lit 1.2)%b64 in
      let scale := (B64.lit 0.5 + lifeRatio * B64.lit 0.5)%b64 in
      let material := Mesh.material (mesh particle) in
      let emissiveIntensity := (lifeRatio * B64.lit 1.2)%b64 in
      let baseColor := PBRMaterial.baseColor material in
      let emissive :=
        Color3.make
          (Color3.r baseColor / B64.lit 0.3 * emissiveIntensity)%b64
          (Color3.g baseColor / B64.lit 0.3 * emissiveIntensity)%b64
          (Color3.b baseColor / B64.lit 0.3 * emissiveIntensity)%b64 in
      let material' :=
        PBRMaterial.with_emissiveColor
          (PBRMaterial.with_alpha material alpha) emissive in
      let mesh' :=
        Mesh.make (Mesh.name (mesh particle)) position'
          (Vector3.setAll scale) (Mesh.rotation (mesh particle))
          (Mesh.enabled (mesh particle)) material' in
      mkParticle mesh' velocity' life' (maxLife particle) true
        (cylinderIndex particle).

(** A particle after the updates of several frames. *)
Definition age64 (deltaTimes : list Q) (p : ParticleData) : ParticleData :=
  fold_left (fun p dt => updateParticle64 (Fin dt) p) deltaTimes p.

Definition elapsed (deltaTimes : list Q) : Q :=
  fold_right Qplus 0%Q deltaTimes.

(** What the rounding of one subtraction from a life of at most [l] can
    add to or take off the result. *)
Definition lifeSlack (l : Q) : Q := (B64.u * l + B64.eta)%Q.

(** A particle that has just been launched, with its whole life of three
    seconds, and sixty frames of the double 0.05. *)
Definition newest : ParticleData :=
  default (createParticle 8 0) (particlePool started !! 0%nat).

Definition sixtyFrames : list Q := replicate 60 (B64.rnd 0.05).

(** ** Launching a particle, on the engine's numbers *)

(** [launch] with every sum, difference and product rounded to
    binary64. *)
Definition launch64 (random_source : nat -> Q) (st : AudioSpectrum)
    (bar : Mesh.t) (particle : ParticleData) : ParticleData :=
  let random := random random_source st in
  let topY :=
    (Vector3.y (Mesh.position bar)
     + Vector3.y (Mesh.scaling bar) * B64.lit 0.5)%b64 in
  let position' :=
    Vector3.make
      (Vector3.x (Mesh.position bar)
       + (random 0 - B64.lit 0.5) * B64.lit 0.3)%b64
      topY
      (Vector3.z (Mesh.position bar)
       + (random 1 - B64.lit 0.5) * B64.lit 0.3)%b64 in
  let velocity' :=
    Vector3.make
      ((random 2 - B64.lit 0.5) * B64.lit 0.5)%b64
      (B64.lit 1.0 + random 3 * B64.lit 0.5)%b64
      ((random 4 - B64.lit 0.5) * B64.lit 0.5)%b64 in
  let material' :=
    PBRMaterial.with_alpha (Mesh.material (mesh particle)) (B64.lit 0.8) in
  let mesh' :=
    Mesh.make (Mesh.name (mesh particle)) position'
      (Vector3.setAll (B64.lit 1.0))
      (Mesh.rotation (mesh particle)) true material' in
  mkParticle mesh' velocity' (maxLife particle) (maxLife particle) true
    (cylinderIndex particle).

(** [emitParticle] launching with [launch64]. *)
Definition emitParticle64 (random_source : nat -> Q) (cylinder : nat)
    (intensity : number) (st : AudioSpectrum) : completion AudioSpectrum :=
  match getInactiveParticle cylinder (particlePool st) with
  | None => Normal st
  | Some (k, particle) =>
      match spectrumBars st !! cylinder with
      | None => Throw
      | Some bar =>
          Normal
            (with_random_calls
               (with_particlePool st
                  (<[k := launch64 random_source st bar particle]>
                     (particlePool st)))
               (random_calls st + 5))
      end
  end.

(** [Math.random] returning [1 - 2^-52] on every call. *)
Definition highRandom : nat -> Q := fun _ => (1 - B64.pow2 (-52))%Q.

(** ** The tracking poll, as an observer sees it *)

(** What the poll stores for the controller at [index]. *)
Definition controllerView (index : nat) (c : VR.XRController)
  : VR.ControllerView :=
  VR.mkControllerView index
    (VR.onEach VR.round2 (VR.pointerPosition c))
    (VR.onEach VR.degrees2 (VR.pointerRotation c))
    (VR.connected c).

(** The session data after a poll that saw the camera at [cam], when it
    showed [old] before. *)
Definition polled (xr : VR.XRReading) (cam : VR.XRPose) (old : VR.SessionView)
  : VR.SessionView :=
  VR.mkSessionView (VR.view_isActive old) (VR.view_isSupported old)
    (match VR.inputControllers xr with
     | Some cs => imap controllerView cs
     | None => VR.view_controllers old
     end)
    (VR.onEach VR.round2 (VR.position cam))
    (VR.onEach VR.degrees2 (VR.rotation cam)).

(** Outside a session: no interval, not active, everything zero. *)
Definition idle (m : VR.VRSceneManager) : Prop :=
  VR.headTrackingInterval m = None ->
  VR.isActive m = false /\
  VR.coreView m = Some (VR.zeroed false (VR.isSupported m)).

(** Every reference of the session data resolves, and outside a session
    the data is idle. *)
Definition session_sound (m : VR.VRSceneManager) : Prop :=
  is_Some (VR.coreView m) /\ idle m.

(** A second reading, without a controller list. *)
Definition headPose : VR.XRPose :=
  VR.mkPose (Vector3.make (B64.lit 0.004) (B64.lit 1.7) (B64.lit 2.675))
            (Vector3.make (lit 0) (B64.lit 1.5) (lit 0)).

Definition headOnly : VR.XRReading := VR.mkReading (Some headPose) None.

(** ** The first version of the visualizer: colours from HSL *)

Module Hsl.

#[local] Open Scope Q_scope.

(** [Math.abs] *)
Definition abs (a : number) : number :=
  match a with
  | JS.Fin p => Fin (Qabs p)
  | JS.PInf | JS.NInf => JS.PInf
  | JS.NaN => NaN
  end.






End Hsl.

(** * Properties *)

(** ** Numbers: the lemmas the proofs share *)

Section NumberFacts.
#[local] Open Scope Q_scope.

Lemma Qle_bool_false (p q : Q) : Qle_bool p q = false <-> q < p.
Proof.
  split; intros H.
  - apply Qnot_le_lt. intros c. apply Qle_bool_iff in c. congruence.
  - destruct (Qle_bool p q) eqn:E; [|done].
    apply Qle_bool_iff in E. lra.
Qed.

Lemma Qeq_bool_false (p q : Q) : ~ p == q -> Qeq_bool p q = false.
Proof.
  intros H. destruct (Qeq_bool p q) eqn:E; [|done].
  apply Qeq_bool_iff in E. contradiction.
Qed.

Lemma Qle_bool_proper (p p' q q' : Q) :
  p == p' -> q == q' -> Qle_bool p q = Qle_bool p' q'.
Proof.
  intros Hp Hq. destruct (Qle_bool p' q') eqn:E.
  - apply Qle_bool_iff. apply Qle_bool_iff in E. lra.
  - apply Qle_bool_false. apply Qle_bool_false in E. lra.
Qed.

#[global] Instance eqv_equivalence : Equivalence JS.eqv.
Proof.
  split.
  - intros []; simpl; done.
  - intros [] []; simpl; try done; try (intros H; by symmetry).
  - intros [] [] []; simpl; try done; try (intros H1 H2; by etrans).
Qed.

Lemma le_Fin (p q : Q) : JS.le (Fin p) (Fin q) = true <-> p <= q.
Proof. simpl. apply Qle_bool_iff. Qed.

Lemma min_Fin_eqv (p q c : Q) :
  p == q -> JS.min (Fin p) (Fin c) =j= JS.min (Fin q) (Fin c).
Proof.
  intros H. simpl. rewrite (Qle_bool_proper p q c c H (Qeq_refl c)).
  destruct (Qle_bool q c); simpl; [done | reflexivity].
Qed.

Lemma min_Fin_unit (p : Q) : 0 <= p -> JS.unit_interval (JS.min (Fin p) (lit 1)).
Proof.
  intros H. simpl. destruct (Qle_bool p 1) eqn:E; simpl.
  - apply Qle_bool_iff in E. lra.
  - lra.
Qed.

Lemma get_lookup (l : list number) (i : nat) (v : number) :
  l !! i = Some v -> JS.get l i = v.
Proof. unfold JS.get. by intros ->. Qed.

Lemma set_in_range (l : list number) (i : nat) (v : number) :
  (i < length l)%nat -> JS.set l i v = <[i := v]> l.
Proof. intros H. unfold JS.set. by rewrite decide_True. Qed.

End NumberFacts.

(** ** Binary64: the rounding *)

Module B64Facts.
Import B64.
#[local] Open Scope Q_scope.

Import B64.
#[local] Open Scope Q_scope.

Lemma pow2_pos (e : Z) : 0 < pow2 e.
Proof. apply Qpower_0_lt. reflexivity. Qed.

Lemma pow2_plus (a b : Z) : pow2 (a + b) == pow2 a * pow2 b.
Proof. apply Qpower_plus. discriminate. Qed.

Lemma pow2_succ (a : Z) : pow2 (a + 1) == 2 * pow2 a.
Proof. rewrite pow2_plus. change (pow2 1) with 2. ring. Qed.

Lemma pow2_pred (a : Z) : pow2 (a - 1) == (1 # 2) * pow2 a.
Proof.
  replace a with ((a - 1) + 1)%Z at 2 by lia. rewrite pow2_succ. field.
Qed.

Lemma pow2_le (a b : Z) : (a <= b)%Z -> pow2 a <= pow2 b.
Proof. intros H. apply Qpower_le_compat_l; [done|]. discriminate. Qed.

Lemma pow2_lt (a b : Z) : (a < b)%Z -> pow2 a < pow2 b.
Proof. intros H. apply Qpower_lt_compat_l; [done|]. reflexivity. Qed.

Lemma pow2_lt_inv (a b : Z) : pow2 a < pow2 b -> (a < b)%Z.
Proof. intros H. apply (Qpower_lt_compat_l_inv 2); [done|]. reflexivity. Qed.

Lemma pow2_inject (a : Z) : (0 <= a)%Z -> inject_Z (2 ^ a) == pow2 a.
Proof. intros H. by rewrite Zpower_Qpower. Qed.

Lemma Qabs_num_den (n : Z) (d : positive) :
  Qabs (n # d) * inject_Z (Z.pos d) == inject_Z (Z.abs n).
Proof.
  unfold Qabs, Qeq, Qmult, inject_Z. simpl. lia.
Qed.

Lemma ilog2_spec (q : Q) :
  ~ q == 0 -> pow2 (ilog2 q) <= Qabs q < pow2 (ilog2 q + 1).
Proof.
  intros Hq. destruct q as [n d].
  assert (Hn : (0 < Z.abs n)%Z).
  { destruct n; try lia. exfalso. apply Hq. reflexivity. }
  unfold ilog2. cbn [Qnum Qden].
  set (a := Z.log2 (Z.abs n)). set (b := Z.log2 (Z.pos d)).
  destruct (Z.log2_spec (Z.abs n) Hn) as [Ha1 Ha2]. fold a in Ha1, Ha2.
  destruct (Z.log2_spec (Z.pos d)) as [Hb1 Hb2]; [lia|]. fold b in Hb1, Hb2.
  assert (Ha0 : (0 <= a)%Z) by apply Z.log2_nonneg.
  assert (Hb0 : (0 <= b)%Z) by apply Z.log2_nonneg.
  pose proof (Qabs_num_den n d) as Hx.
  set (x := Qabs (n # d)) in *.
  set (D := inject_Z (Z.pos d)) in *.
  assert (HA1 : pow2 a <= x * D).
  { rewrite Hx, <- pow2_inject by done. by rewrite <- Zle_Qle. }
  assert (HA2 : x * D < 2 * pow2 a).
  { rewrite Hx, <- pow2_succ, <- pow2_inject by lia. by rewrite <- Zlt_Qlt. }
  assert (HB1 : pow2 b <= D).
  { unfold D. rewrite <- pow2_inject by done. by rewrite <- Zle_Qle. }
  assert (HB2 : D < 2 * pow2 b).
  { unfold D. rewrite <- pow2_succ, <- pow2_inject by lia. by rewrite <- Zlt_Qlt. }
  assert (HK : pow2 (a - b) * pow2 b == pow2 a).
  { rewrite <- pow2_plus. by replace (a - b + b)%Z with a by lia. }
  pose proof (pow2_pos a) as PA. pose proof (pow2_pos b) as PB.
  pose proof (pow2_pos (a - b)) as PK.
  assert (Hx0 : 0 <= x) by apply Qabs_nonneg.
  set (A := pow2 a) in *. set (B := pow2 b) in *. set (K := pow2 (a - b)) in *.
  assert (Hlo : (1 # 2) * K < x).
  { apply Qnot_le_lt. intros Hc.
    assert (x * D <= ((1 # 2) * K) * D) by (apply Qmult_le_compat_r; lra).
    assert (((1 # 2) * K) * D < ((1 # 2) * K) * (2 * B)).
    { apply Qmult_lt_l; [|done]. lra. }
    assert (((1 # 2) * K) * (2 * B) == A) by (rewrite <- HK; ring).
    lra. }
  assert (Hhi : x < 2 * K).
  { apply Qnot_le_lt. intros Hc.
    assert ((2 * K) * D <= x * D) by (apply Qmult_le_compat_r; lra).
    assert ((2 * K) * B <= (2 * K) * D).
    { apply Qmult_le_l; [lra|done]. }
    assert ((2 * K) * B == 2 * A) by (rewrite <- HK; ring).
    lra. }
  destruct (Qle_bool K x) eqn:E.
  - apply Qle_bool_iff in E. split; [done|]. fold (pow2 (a - b + 1)).
    rewrite pow2_succ. fold K. done.
  - assert (E' : x < K).
    { apply Qnot_le_lt. intros c. apply Qle_bool_iff in c. congruence. }
    replace (a - b - 1 + 1)%Z with (a - b)%Z by lia.
    rewrite pow2_pred. fold K. split; [lra | done].
Qed.

Lemma nearest_even_spec (m : Q) :
  Qabs (inject_Z (nearest_even m) - m) <= 1 # 2 /\
  forall y : Z, Qabs (inject_Z (nearest_even m) - m) <= Qabs (inject_Z y - m).
Proof.
  pose proof (Qfloor_le m) as Hlo. pose proof (Qlt_floor m) as Hhi.
  rewrite inject_Z_plus in Hhi. change (inject_Z 1) with 1 in Hhi.
  assert (Hy : forall y : Z,
            m - inject_Z (Qfloor m) <= Qabs (inject_Z y - m) \/
            inject_Z (Qfloor m) + 1 - m <= Qabs (inject_Z y - m)).
  { intros y. destruct (Z_le_gt_dec y (Qfloor m)) as [Hle|Hgt].
    - left. rewrite Zle_Qle in Hle.
      apply Qabs_case; intros; lra.
    - right. assert (Hge : (Qfloor m + 1 <= y)%Z) by lia.
      rewrite Zle_Qle, inject_Z_plus in Hge. change (inject_Z 1) with 1 in Hge.
      apply Qabs_case; intros; lra. }
  unfold nearest_even.
  destruct (Qcompare (m - inject_Z (Qfloor m)) (1 # 2)) eqn:E.
  - apply Qeq_alt in E.
    assert (forall z : Z, z = Qfloor m \/ z = (Qfloor m + 1)%Z ->
              Qabs (inject_Z z - m) <= 1 # 2 /\
              forall y, Qabs (inject_Z z - m) <= Qabs (inject_Z y - m)) as H.
    { intros z Hz. assert (Hd : Qabs (inject_Z z - m) == 1 # 2).
      { destruct Hz as [-> | ->].
        - apply Qabs_case; intros; lra.
        - rewrite inject_Z_plus. change (inject_Z 1) with 1.
          apply Qabs_case; intros; lra. }
      split; [lra|]. intros y. destruct (Hy y); lra. }
    destruct (Z.even (Qfloor m)); apply H; auto.
  - apply Qlt_alt in E. split.
    + apply Qabs_case; intros; lra.
    + intros y. assert (Hd : Qabs (inject_Z (Qfloor m) - m)
                             == m - inject_Z (Qfloor m)).
      { apply Qabs_case; intros; lra. }
      destruct (Hy y); lra.
  - apply Qgt_alt in E. rewrite inject_Z_plus. change (inject_Z 1) with 1.
    split.
    + apply Qabs_case; intros; lra.
    + intros y. assert (Hd : Qabs (inject_Z (Qfloor m) + 1 - m)
                             == inject_Z (Qfloor m) + 1 - m).
      { apply Qabs_case; intros; lra. }
      destruct (Hy y); lra.
Qed.

Lemma nearest_even_comp (m m' : Q) :
  m == m' -> nearest_even m = nearest_even m'.
Proof.
  intros H. unfold nearest_even. rewrite (Qfloor_comp _ _ H).
  assert (E : Qcompare (m - inject_Z (Qfloor m')) (1 # 2)
              = Qcompare (m' - inject_Z (Qfloor m')) (1 # 2)).
  { by rewrite H. }
  by rewrite E.
Qed.

Lemma nearest_even_Z (z : Z) : nearest_even (inject_Z z) = z.
Proof.
  destruct (nearest_even_spec (inject_Z z)) as [_ H]. specialize (H z).
  assert (E : Qabs (inject_Z z - inject_Z z) == 0).
  { apply Qabs_case; intros; lra. }
  rewrite E in H.
  assert (E' : inject_Z (nearest_even (inject_Z z)) == inject_Z z).
  { revert H. apply Qabs_case; intros; lra. }
  exact (proj1 (inject_Z_injective _ _) E').
Qed.

Lemma rnd_val (q : Q) :
  rnd q == inject_Z (nearest_even (q / pow2 (ulp_exp q))) * pow2 (ulp_exp q).
Proof. apply Qred_correct. Qed.

(** Scaling an inequality between absolute values. *)
Lemma Qabs_scale (a b p : Q) :
  0 < p -> Qabs a <= Qabs b -> Qabs (a * p) <= Qabs (b * p).
Proof.
  intros Hp H. rewrite !Qabs_Qmult. rewrite (Qabs_pos p) by lra.
  apply Qmult_le_compat_r; lra.
Qed.

Lemma rnd_error_ulp (q : Q) :
  Qabs (rnd q - q) <= (1 # 2) * pow2 (ulp_exp q).
Proof.
  rewrite rnd_val. set (P := pow2 (ulp_exp q)).
  assert (HP : 0 < P) by apply pow2_pos.
  destruct (nearest_even_spec (q / P)) as [H _].
  set (z := inject_Z (nearest_even (q / P))) in *.
  assert (E : z * P - q == (z - q / P) * P) by (field; lra).
  rewrite E, Qabs_Qmult, (Qabs_pos P) by lra.
  apply Qmult_le_compat_r; lra.
Qed.

Lemma rnd_0 (q : Q) : q == 0 -> rnd q == 0.
Proof.
  intros H. rewrite rnd_val. set (P := pow2 (ulp_exp q)).
  assert (E : q / P == inject_Z 0).
  { rewrite H. unfold Qdiv. ring. }
  rewrite (nearest_even_comp _ _ E), nearest_even_Z. ring.
Qed.

(** The standard model of binary64 arithmetic, with underflow. *)
Lemma rnd_error (q : Q) : Qabs (rnd q - q) <= u * Qabs q + eta.
Proof.
  destruct (Qeq_dec q 0) as [H0|H0].
  { rewrite (rnd_0 q H0). pose proof (pow2_pos (-1075)). unfold eta.
    assert (0 <= u * Qabs q).
    { apply Qmult_le_0_compat; [apply Qlt_le_weak, pow2_pos | apply Qabs_nonneg]. }
    revert H1. generalize (u * Qabs q). intros t Ht.
    apply Qabs_case; intros; lra. }
  eapply Qle_trans; [apply rnd_error_ulp|].
  destruct (ilog2_spec q H0) as [Hlo _].
  pose proof (Qabs_nonneg q) as Hq. pose proof (pow2_pos (-1075)) as He.
  pose proof (pow2_pos (-53)) as Hu.
  unfold ulp_exp. destruct (Z.max_spec (ilog2 q - 52) (-1074)) as [[_ ->]|[_ ->]].
  - change (-1074)%Z with (-1075 + 1)%Z. rewrite pow2_succ. unfold u, eta.
    assert (0 <= pow2 (-53) * Qabs q) by (apply Qmult_le_0_compat; lra).
    lra.
  - replace (ilog2 q - 52)%Z with (-53 + 1 + ilog2 q)%Z by lia.
    rewrite pow2_plus, pow2_succ. unfold u, eta.
    assert (pow2 (-53) * pow2 (ilog2 q) <= pow2 (-53) * Qabs q).
    { apply Qmult_le_l; lra. }
    set (a := pow2 (-53)) in *. set (b := pow2 (ilog2 q)) in *.
    assert ((1 # 2) * (2 * a * b) == a * b) by ring. lra.
Qed.

Lemma ilog2_unique (x : Q) (e e' : Z) :
  pow2 e <= x < pow2 (e + 1) -> pow2 e' <= x < pow2 (e' + 1) -> e = e'.
Proof.
  intros [H1 H2] [H3 H4].
  assert (e < e' + 1)%Z by (apply pow2_lt_inv; lra).
  assert (e' < e + 1)%Z by (apply pow2_lt_inv; lra).
  lia.
Qed.

Lemma ilog2_comp (q q' : Q) : ~ q == 0 -> q == q' -> ilog2 q = ilog2 q'.
Proof.
  intros H0 H. apply (ilog2_unique (Qabs q)).
  - by apply ilog2_spec.
  - rewrite H. apply ilog2_spec. by rewrite <- H.
Qed.

Lemma rnd_comp (q q' : Q) : q == q' -> rnd q == rnd q'.
Proof.
  intros H. destruct (Qeq_dec q 0) as [H0|H0].
  - rewrite (rnd_0 q H0). symmetry. apply rnd_0. by rewrite <- H.
  - rewrite !rnd_val. unfold ulp_exp. rewrite <- (ilog2_comp q q' H0 H).
    set (P := pow2 _).
    assert (E : q / P == q' / P) by (by rewrite H).
    by rewrite (nearest_even_comp _ _ E).
Qed.

(** The scaled value is below [2^53] in magnitude. *)
Lemma scaled_bound (q : Q) :
  ~ q == 0 -> Qabs q < inject_Z (2 ^ 53) * pow2 (ulp_exp q).
Proof.
  intros H0. destruct (ilog2_spec q H0) as [_ Hhi].
  eapply Qlt_le_trans; [exact Hhi|].
  rewrite pow2_inject by lia. rewrite <- pow2_plus. apply pow2_le.
  unfold ulp_exp. lia.
Qed.

Lemma Qabs_div_pos (q p : Q) : 0 < p -> Qabs (q / p) == Qabs q / p.
Proof.
  intros Hp. unfold Qdiv. rewrite Qabs_Qmult.
  rewrite (Qabs_pos (/ p)); [done|]. apply Qlt_le_weak, Qinv_lt_0_compat, Hp.
Qed.

Lemma nearest_even_bound (m : Q) (b : Z) :
  Qabs m <= inject_Z b -> (Z.abs (nearest_even m) <= b)%Z.
Proof.
  intros H. destruct (nearest_even_spec m) as [_ Hn].
  set (z := nearest_even m) in *.
  assert (Hb : (0 <= b)%Z).
  { rewrite Zle_Qle. pose proof (Qabs_nonneg m). change (inject_Z 0) with 0. lra. }
  assert (H1 : - inject_Z b <= m /\ m <= inject_Z b).
  { by apply Qabs_Qle_condition. }
  destruct (Z_le_gt_dec z b) as [Hle|Hgt].
  - destruct (Z_le_gt_dec (- b) z) as [Hge|Hlt]; [lia|]. exfalso.
    specialize (Hn (- b)%Z). rewrite inject_Z_opp in Hn.
    assert (Hz : (z + 1 <= - b)%Z) by lia.
    rewrite Zle_Qle, inject_Z_plus, inject_Z_opp in Hz.
    change (inject_Z 1) with 1 in Hz.
    revert Hn. apply Qabs_case; intros; revert Hn; apply Qabs_case; intros; lra.
  - exfalso. specialize (Hn b).
    assert (Hz : (b + 1 <= z)%Z) by lia.
    rewrite Zle_Qle, inject_Z_plus in Hz. change (inject_Z 1) with 1 in Hz.
    revert Hn. apply Qabs_case; intros; revert Hn; apply Qabs_case; intros; lra.
Qed.

Lemma rnd_format (q : Q) : format (rnd q).
Proof.
  destruct (Qeq_dec q 0) as [H0|H0].
  { exists 0%Z, 0%Z. split; [lia|]. split; [done|].
    rewrite (rnd_0 q H0). reflexivity. }
  set (e := ulp_exp q). set (z := nearest_even (q / pow2 e)).
  assert (He : (-1074 <= e)%Z) by (unfold e, ulp_exp; lia).
  assert (Hz : (Z.abs z <= 2 ^ 53)%Z).
  { apply nearest_even_bound. rewrite Qabs_div_pos by apply pow2_pos.
    apply Qlt_le_weak, Qlt_shift_div_r; [apply pow2_pos|].
    by apply scaled_bound. }
  destruct (Z_lt_le_dec (Z.abs z) (2 ^ 53)) as [Hlt|Hge].
  - exists z, e. split; [done|]. split; [done|]. apply rnd_val.
  - assert (Hz' : z = (2 ^ 53)%Z \/ z = (- 2 ^ 53)%Z) by lia.
    exists (z / 2)%Z, (e + 1)%Z. split; [lia|]. split.
    + destruct Hz' as [-> | ->]; by vm_compute.
    + rewrite rnd_val. fold e. fold z. rewrite pow2_succ.
      destruct Hz' as [-> | ->].
      * assert (E : inject_Z (2 ^ 53 / 2) == (1 # 2) * inject_Z (2 ^ 53))
          by (vm_compute; reflexivity).
        rewrite E. ring.
      * assert (E : inject_Z (- 2 ^ 53 / 2) == (1 # 2) * inject_Z (- 2 ^ 53))
          by (vm_compute; reflexivity).
        rewrite E. ring.
Qed.

(** [rnd q] is a nearest number of the format. *)
Lemma rnd_nearest (q f : Q) :
  format f -> Qabs (rnd q - q) <= Qabs (f - q).
Proof.
  intros (m & e' & He' & Hm & Hf).
  destruct (Qeq_dec q 0) as [H0|H0].
  { rewrite (rnd_0 q H0), H0. pose proof (Qabs_nonneg (f - 0)).
    apply Qabs_case; intros; lra. }
  rewrite rnd_val. set (e := ulp_exp q). set (P := pow2 e).
  assert (HP : 0 < P) by apply pow2_pos.
  destruct (nearest_even_spec (q / P)) as [_ Hn].
  set (z := inject_Z (nearest_even (q / P))) in *.
  assert (Ez : z * P - q == (z - q / P) * P) by (field; lra).
  destruct (Z_le_gt_dec e e') as [Hle|Hgt].
  - specialize (Hn (m * 2 ^ (e' - e))%Z).
    assert (Ey : f - q == (inject_Z (m * 2 ^ (e' - e)) - q / P) * P).
    { rewrite Hf, inject_Z_mult, pow2_inject by lia.
      replace e' with ((e' - e) + e)%Z at 1 by lia. rewrite pow2_plus.
      fold P. field. lra. }
    rewrite Ez, Ey. by apply Qabs_scale.
  - assert (Ee : e = (ilog2 q - 52)%Z) by (unfold e, ulp_exp in *; lia).
    destruct (ilog2_spec q H0) as [Hlo _].
    assert (HW : inject_Z (2 ^ 52) * P == pow2 (ilog2 q)).
    { unfold P. rewrite pow2_inject by lia. rewrite <- pow2_plus.
      by replace (52 + e)%Z with (ilog2 q) by lia. }
    assert (Hfa : Qabs f <= inject_Z (2 ^ 52) * P).
    { rewrite Hf, Qabs_Qmult, (Qabs_pos (pow2 e')) by apply Qlt_le_weak, pow2_pos.
      assert (Hm' : Qabs (inject_Z m) <= inject_Z (2 ^ 53)).
      { change (Qabs (inject_Z m)) with (inject_Z (Z.abs m)).
        rewrite <- Zle_Qle. lia. }
      assert (Hp' : pow2 e' <= (1 # 2) * P).
      { unfold P. rewrite <- pow2_pred. apply pow2_le. lia. }
      pose proof (pow2_pos e').
      eapply Qle_trans.
      { apply Qmult_le_compat_r; [exact Hm' | lra]. }
      eapply Qle_trans.
      { apply Qmult_le_l; [reflexivity | exact Hp']. }
      assert (E53 : inject_Z (2 ^ 53) == 2 * inject_Z (2 ^ 52))
        by (vm_compute; reflexivity).
      rewrite E53.
      assert (2 * inject_Z (2 ^ 52) * ((1 # 2) * P) == inject_Z (2 ^ 52) * P)
        by ring.
      lra. }
    set (W := inject_Z (2 ^ 52) * P) in *.
    assert (Hf' : - W <= f /\ f <= W) by (by apply Qabs_Qle_condition).
    destruct (Qlt_le_dec 0 q) as [Hpos|Hneg].
    + specialize (Hn (2 ^ 52)%Z).
      assert (Hq : W <= q) by (rewrite (Qabs_pos q) in Hlo; lra).
      assert (E1 : Qabs (z * P - q) <= Qabs (W - q)).
      { rewrite Ez. unfold W.
        assert (E : inject_Z (2 ^ 52) * P - q
                    == (inject_Z (2 ^ 52) - q / P) * P) by (field; lra).
        rewrite E. by apply Qabs_scale. }
      revert E1. apply Qabs_case; intros; revert E1;
        apply Qabs_case; intros; apply Qabs_case; intros; lra.
    + specialize (Hn (- 2 ^ 52)%Z).
      assert (Hq : q <= - W) by (rewrite (Qabs_neg q) in Hlo; lra).
      assert (E1 : Qabs (z * P - q) <= Qabs (- W - q)).
      { rewrite Ez. unfold W.
        assert (E : - (inject_Z (2 ^ 52) * P) - q
                    == (inject_Z (- 2 ^ 52) - q / P) * P).
        { rewrite inject_Z_opp. field. lra. }
        rewrite E. by apply Qabs_scale. }
      revert E1. apply Qabs_case; intros; revert E1;
        apply Qabs_case; intros; apply Qabs_case; intros; lra.
Qed.

(** A number of the format is its own rounding. *)
Lemma rnd_representable (f : Q) : format f -> rnd f == f.
Proof.
  intros H. pose proof (rnd_nearest f f H) as Hn.
  assert (E : Qabs (f - f) == 0) by (apply Qabs_case; intros; lra).
  rewrite E in Hn. revert Hn. apply Qabs_case; intros; lra.
Qed.

Lemma rnd_idempotent (q : Q) : rnd (rnd q) == rnd q.
Proof. apply rnd_representable, rnd_format. Qed.

Lemma rnd_monotone (q1 q2 : Q) : q1 <= q2 -> rnd q1 <= rnd q2.
Proof.
  intros H. apply Qle_lteq in H as [H|H].
  - apply Qnot_lt_le. intros Hc.
    pose proof (rnd_nearest q1 (rnd q2) (rnd_format q2)) as H1.
    pose proof (rnd_nearest q2 (rnd q1) (rnd_format q1)) as H2.
    revert H1 H2.
    apply Qabs_case; intros ? H1; revert H1; apply Qabs_case; intros ? H1;
      apply Qabs_case; intros ?; apply Qabs_case; intros; lra.
  - rewrite (rnd_comp _ _ H). lra.
Qed.

Lemma rnd_nonneg (q : Q) : 0 <= q -> 0 <= rnd q.
Proof.
  intros H. rewrite <- (rnd_0 0) by reflexivity. by apply rnd_monotone.
Qed.

(** *** Working with literals *)

(** Case analysis on every absolute value of the goal and the
    hypotheses. *)
Ltac qabs :=
  repeat (repeat match goal with
                 | H : context [Qabs _] |- _ => revert H
                 end;
          apply Qabs_case; intros).

Lemma u_value : u == 1 # 9007199254740992.
Proof. vm_compute. reflexivity. Qed.

Lemma eta_small : eta <= 1 # 1267650600228229401496703205376.
Proof.
  apply (Qle_trans _ (pow2 (-100))).
  - apply pow2_le. lia.
  - vm_compute. discriminate.
Qed.

(** The error of one rounding, with literals for [lra]. *)
Lemma rnd_error_lit (q : Q) :
  Qabs (rnd q - q)
  <= (1 # 9007199254740992) * Qabs q + (1 # 1267650600228229401496703205376).
Proof.
  pose proof (rnd_error q) as H. pose proof eta_small as He.
  rewrite u_value in H. lra.
Qed.

Lemma format_pow2 (e : Z) : (-1074 <= e)%Z -> format (pow2 e).
Proof.
  intros He. exists 1%Z, e. split; [done|]. split; [by vm_compute|]. ring.
Qed.

Lemma format_opp (f : Q) : format f -> format (- f).
Proof.
  intros (m & e & He & Hm & Hf). exists (- m)%Z, e.
  split; [done|]. split; [lia|]. rewrite inject_Z_opp, Hf. ring.
Qed.

(** A result below [2^1023] in magnitude is a finite double. *)
Lemma nearest_bounded (q : Q) :
  Qabs q <= pow2 1023 -> nearest (Fin q) = Fin (rnd q).
Proof.
  intros H. apply Qabs_Qle_condition in H as [H1 H2].
  assert (F : format (pow2 1023)) by (apply format_pow2; lia).
  pose proof (rnd_representable _ F) as F2.
  pose proof (rnd_representable _ (format_opp _ F)) as Fm2.
  pose proof (rnd_monotone _ _ H1) as M1. pose proof (rnd_monotone _ _ H2) as M2.
  rewrite Fm2 in M1. rewrite F2 in M2.
  unfold nearest. cbv zeta.
  destruct (Qle_bool (pow2 1024) (Qabs (rnd q))) eqn:E; [|done].
  exfalso. apply Qle_bool_iff in E.
  assert (P : pow2 1023 < pow2 1024) by (apply pow2_lt; lia).
  revert E. apply Qabs_case; intros; lra.
Qed.

Lemma pow2_30 : 1000000000 <= pow2 1023.
Proof.
  apply (Qle_trans _ (pow2 30)).
  - vm_compute. discriminate.
  - apply pow2_le. lia.
Qed.

(** A result of magnitude at most 2 is a finite double. *)
Lemma nearest_small (q : Q) :
  Qabs q <= 2 -> nearest (Fin q) = Fin (rnd q).
Proof.
  intros H. apply nearest_bounded. pose proof pow2_30. lra.
Qed.

(** A result of magnitude at most [10^9] is a finite double. *)
Lemma nearest_medium (q : Q) :
  Qabs q <= 1000000000 -> nearest (Fin q) = Fin (rnd q).
Proof.
  intros H. apply nearest_bounded. pose proof pow2_30. lra.
Qed.

(** [rnd] keeps the sign. *)
Lemma rnd_nonpos (q : Q) : q <= 0 -> rnd q <= 0.
Proof.
  intros H. rewrite <- (rnd_0 0) by reflexivity. by apply rnd_monotone.
Qed.

Lemma rnd_pos_inv (q : Q) : 0 < rnd q -> 0 < q.
Proof.
  intros H. apply Qnot_le_lt. intros Hq. pose proof (rnd_nonpos q Hq). lra.
Qed.

(** A rounding of a number of magnitude at most [B]: the error and the
    magnitude of the result. *)
Lemma rnd_close (q B D : Q) :
  Qabs q <= B ->
  (1 # 9007199254740992) * B + (1 # 1267650600228229401496703205376) <= D ->
  Qabs (rnd q - q) <= D /\ Qabs (rnd q) <= B + D.
Proof.
  intros HB HD. pose proof (rnd_error_lit q) as He.
  assert (HU : (1 # 9007199254740992) * Qabs q <= (1 # 9007199254740992) * B).
  { apply Qmult_le_l; [reflexivity | done]. }
  assert (H1 : Qabs (rnd q - q) <= D) by lra.
  split; [done|]. qabs; lra.
Qed.

End B64Facts.

(** *** Agreement with the kernel's binary64 *)

(** On every pair of [Kernel64.cases], the sum, the difference, the
    product and the quotient rounded by [B64.rnd] are the ones the kernel
    computes. *)
Example rnd_agrees_with_kernel :
  forallb Kernel64.agree_on Kernel64.cases = true.
Proof. vm_compute. reflexivity. Qed.

(** Division by a literal, for [lra]. *)
Ltac qlit :=
  unfold Qdiv in *;
  repeat match goal with
  | |- context [Qinv (Zpos ?a # ?b)] => change (Qinv (Zpos a # b)) with (Zpos b # a)
  | H : context [Qinv (Zpos ?a # ?b)] |- _ =>
      change (Qinv (Zpos a # b)) with (Zpos b # a) in H
  end.

Section Gradient.
#[local] Open Scope Q_scope.

Lemma getCyberpunkColor_unit (p : Q) :
  0 <= p <= 1 -> unit_color (getCyberpunkColor (Fin p)).
Proof.
  intros H. unfold getCyberpunkColor, unit_color. simpl.
  destruct (Qle_bool 0.33 p) eqn:E1; simpl.
  - apply Qle_bool_iff in E1.
    destruct (Qle_bool 0.66 p) eqn:E2; simpl.
    + apply Qle_bool_iff in E2. qlit. lra.
    + apply Qle_bool_false in E2. qlit. lra.
  - apply Qle_bool_false in E1. qlit. lra.
Qed.

Lemma progress_of_Fin (n i : nat) :
  (2 <= n)%nat ->
  progress_of n i = Fin (inject_Z (Z.of_nat i) / (inject_Z (Z.of_nat n) + - 1)).
Proof.
  intros H. unfold progress_of, JS.of_nat. simpl.
  rewrite Qeq_bool_false; [done|].
  intros E. assert (2 <= inject_Z (Z.of_nat n)).
  { change 2 with (inject_Z 2). rewrite <- Zle_Qle. lia. }
  lra.
Qed.

Lemma progress_of_unit (n i : nat) :
  (2 <= n)%nat -> (i < n)%nat -> JS.unit_interval (progress_of n i).
Proof.
  intros Hn Hi. rewrite progress_of_Fin by done. simpl.
  assert (Hn' : 2 <= inject_Z (Z.of_nat n)).
  { change 2 with (inject_Z 2). rewrite <- Zle_Qle. lia. }
  assert (Hi0 : 0 <= inject_Z (Z.of_nat i)).
  { change 0 with (inject_Z 0). rewrite <- Zle_Qle. lia. }
  assert (Hi1 : inject_Z (Z.of_nat i) <= inject_Z (Z.of_nat n) + - 1).
  { assert (inject_Z (Z.of_nat i) + 1 <= inject_Z (Z.of_nat n)); [|lra].
    change 1 with (inject_Z 1). rewrite <- inject_Z_plus, <- Zle_Qle. lia. }
  set (d := inject_Z (Z.of_nat n) + - 1) in *.
  assert (Hd : 0 < d) by (unfold d; lra).
  split.
  - apply Qle_shift_div_l; [done|]. lra.
  - apply Qle_shift_div_r; [done|]. lra.
Qed.

End Gradient.

Section Construction.

Lemma constructor_bars (cfg : AudioSpectrumConfig) :
  spectrumBars (constructor cfg)
  = map (fun i => fst (createSpectrumBar (bandCount cfg) i)) (seq 0 (bandCount cfg)).
Proof. unfold constructor, createSpectrumBars. simpl. by rewrite map_map. Qed.

Lemma constructor_lights (cfg : AudioSpectrumConfig) :
  spectrumLights (constructor cfg)
  = map (fun i => snd (createSpectrumBar (bandCount cfg) i)) (seq 0 (bandCount cfg)).
Proof. unfold constructor, createSpectrumBars. simpl. by rewrite map_map. Qed.

Lemma lookup_map_seq0 {A : Type} (f : nat -> A) (n i : nat) (a : A) :
  map f (seq 0 n) !! i = Some a -> (i < n)%nat /\ a = f i.
Proof.
  intros H. rewrite list_lookup_fmap in H.
  destruct (seq 0 n !! i) as [j|] eqn:E; simpl in H; [|done].
  apply lookup_seq in E as [-> ?]. simplify_eq. done.
Qed.

End Construction.

(** C10: the gradient stays inside the colour cube on [0, 1], and so does
    the base colour of every bar of a visualizer with at least two bands:
    the colour its light diffuses, and of which its material keeps 0.4. *)
Theorem getCyberpunkColor_in_unit_cube :
  (forall p : Q, (0 <= p <= 1)%Q -> unit_color (getCyberpunkColor (Fin p))) /\
  (forall (cfg : AudioSpectrumConfig) (i : nat) (bar : Mesh.t)
          (light : PointLight.t),
      (2 <= bandCount cfg)%nat ->
      spectrumBars (constructor cfg) !! i = Some bar ->
      spectrumLights (constructor cfg) !! i = Some light ->
      let baseColor := getCyberpunkColor (progress_of (bandCount cfg) i) in
      unit_color baseColor /\
      PointLight.diffuse light = baseColor /\
      PBRMaterial.baseColor (Mesh.material bar)
      = Color3.scale baseColor (lit 0.4)).
Proof.
  split; [apply getCyberpunkColor_unit|].
  intros cfg i bar light Hn Hbar Hlight baseColor.
  rewrite constructor_bars in Hbar. rewrite constructor_lights in Hlight.
  apply lookup_map_seq0 in Hbar as [Hi ->].
  apply lookup_map_seq0 in Hlight as [_ ->].
  split; [|done].
  pose proof (progress_of_unit (bandCount cfg) i Hn Hi) as Hp.
  unfold baseColor. destruct (progress_of (bandCount cfg) i); try done.
  by apply getCyberpunkColor_unit.
Qed.

Lemma getCyberpunkColor_in_unit_cube_witness :
  unit_color (getCyberpunkColor (lit 0.5)) /\
  unit_color (getCyberpunkColor (progress_of 8 3)).
Proof.
  split.
  - apply (proj1 getCyberpunkColor_in_unit_cube 0.5%Q). split; by vm_compute.
  - refine (proj1 (proj2 getCyberpunkColor_in_unit_cube
              (mkConfig 8 (lit 5) (lit 4) (lit 0.7)) 3%nat _ _ _ _ _)).
    + simpl. lia.
    + reflexivity.
    + reflexivity.
Defined.

(** ** Band aggregation *)

Section Bands.
#[local] Open Scope Q_scope.

(** The loop of [processFrequencyBands] over the first [m] bands. *)
Lemma processBands_prefix (data : list byte) (n m : nat) (l : list number) :
  (m <= length l)%nat ->
  let l' := fold_left (processBand data n) (seq 0 m) l in
  length l' = length l /\
  forall i : nat,
    l' !! i =
    if decide (i < m)%nat
    then Some (smooth (JS.get l i) (normalizedBand data n i))
    else l !! i.
Proof.
  induction m as [|m IH]; intros Hm; cbv zeta.
  - split; [done|]. by intros i.
  - rewrite seq_S, fold_left_app. change (0 + m)%nat with m.
    change (fold_left ?f [m] ?a) with (f a m).
    destruct IH as [Hlen Hget]; [lia|].
    set (l1 := fold_left (processBand data n) (seq 0 m) l) in *.
    unfold processBand at 1 2. rewrite set_in_range by lia.
    split; [by rewrite length_insert|].
    intros i. destruct (decide (i = m)) as [->|Hne].
    + rewrite list_lookup_insert_eq by lia. rewrite decide_True by lia.
      do 2 f_equal. unfold JS.get. rewrite Hget. by rewrite decide_False by lia.
    + rewrite list_lookup_insert_ne by done. rewrite Hget.
      destruct (decide (i < m)%nat), (decide (i < S m)%nat); try done; lia.
Qed.

Lemma processFrequencyBands_smoothed (st : AudioSpectrum) (data : list byte) :
  frequencyData st = Some data ->
  length (smoothedData st) = bandCount (config st) ->
  length (smoothedData (processFrequencyBands st)) = bandCount (config st) /\
  forall i : nat, (i < bandCount (config st))%nat ->
    smoothedData (processFrequencyBands st) !! i
    = Some (smooth (JS.get (smoothedData st) i)
              (normalizedBand data (bandCount (config st)) i)).
Proof.
  intros Hd Hlen. unfold processFrequencyBands. rewrite Hd. simpl.
  destruct (processBands_prefix data (bandCount (config st))
              (bandCount (config st)) (smoothedData st)) as [H1 H2]; [lia|].
  split; [lia|]. intros i Hi. rewrite H2. by rewrite decide_True.
Qed.

Lemma processFrequencyBands_frame (st : AudioSpectrum) :
  config (processFrequencyBands st) = config st /\
  frequencyData (processFrequencyBands st) = frequencyData st /\
  particlePool (processFrequencyBands st) = particlePool st /\
  particleEmissionTimers (processFrequencyBands st) = particleEmissionTimers st /\
  spectrumBars (processFrequencyBands st) = spectrumBars st /\
  spectrumLights (processFrequencyBands st) = spectrumLights st /\
  pending (processFrequencyBands st) = pending st /\
  random_calls (processFrequencyBands st) = random_calls st.
Proof.
  unfold processFrequencyBands.
  destruct (frequencyData st) eqn:E; by repeat split.
Qed.

(** The state after [k] invocations on the same buffer. *)
Lemma processFrequencyBands_iter (st : AudioSpectrum) (data : list byte)
    (k i : nat) :
  frequencyData st = Some data ->
  length (smoothedData st) = bandCount (config st) ->
  (i < bandCount (config st))%nat ->
  let st' := Nat.iter k processFrequencyBands st in
  config st' = config st /\ frequencyData st' = Some data /\
  length (smoothedData st') = bandCount (config st) /\
  smoothedData st' !! i
  = Some (Nat.iter k
            (fun s => smooth s (normalizedBand data (bandCount (config st)) i))
            (JS.get (smoothedData st) i)).
Proof.
  intros Hd Hlen Hi. induction k as [|k IH]; simpl.
  - repeat split; try done. unfold JS.get.
    destruct (lookup_lt_is_Some_2 (smoothedData st) i) as [v Hv]; [lia|].
    by rewrite Hv.
  - destruct IH as (Hc & Hf & Hl & Hs).
    set (st1 := Nat.iter k processFrequencyBands st) in *.
    destruct (processFrequencyBands_frame st1) as (Hc' & Hf' & _).
    destruct (processFrequencyBands_smoothed st1 data) as [Hl' Hs'];
      [done | by rewrite Hc |].
    rewrite Hc', Hf', Hc, Hf. rewrite Hc in Hl', Hs'.
    repeat split; try done.
    rewrite Hs' by done. by rewrite (get_lookup _ _ _ Hs).
Qed.

(** *** Powers of the smoothing ratio *)

Lemma pow07_nonneg (k : nat) : 0 <= 0.7 ^ Z.of_nat k.
Proof. apply Qpower_0_le. lra. Qed.

Lemma pow07_le_1 (k : nat) : 0.7 ^ Z.of_nat k <= 1.
Proof.
  induction k as [|k IH]; [by simpl|].
  rewrite Nat2Z.inj_succ, <- Z.add_1_r, Qpower_plus by done.
  change (0.7 ^ 1) with 0.7. pose proof (pow07_nonneg k). nra.
Qed.

(** [0.7 ^ k <= 7 / (7 + 3 k)], without the division. *)
Lemma pow07_bound (k : nat) :
  0.7 ^ Z.of_nat k * (7 + 3 * inject_Z (Z.of_nat k)) <= 7.
Proof.
  induction k as [|k IH]; [by simpl|].
  rewrite Nat2Z.inj_succ, <- Z.add_1_r, Qpower_plus by done.
  change (0.7 ^ 1) with 0.7. rewrite inject_Z_plus.
  change (inject_Z 1) with 1.
  pose proof (pow07_nonneg k). pose proof (pow07_le_1 k).
  set (a := 0.7 ^ Z.of_nat k) in *. set (c := inject_Z (Z.of_nat k)) in *.
  nra.
Qed.

Lemma pow07_small (d eps : Q) :
  0 <= d -> 0 < eps ->
  exists K : nat, forall k : nat, (K <= k)%nat -> 0.7 ^ Z.of_nat k * d < eps.
Proof.
  intros Hd He.
  exists (Z.to_nat (Qceiling (7 * d / (3 * eps)))). intros k Hk.
  pose proof (pow07_bound k) as Hb. pose proof (pow07_nonneg k) as H0.
  pose proof (Qle_ceiling (7 * d / (3 * eps))) as Hc.
  assert (Hk' : inject_Z (Qceiling (7 * d / (3 * eps))) <= inject_Z (Z.of_nat k)).
  { rewrite <- Zle_Qle. lia. }
  set (c := inject_Z (Z.of_nat k)) in *.
  assert (Hq : 7 * d <= 3 * eps * c).
  { assert (H3 : 0 < 3 * eps) by lra.
    apply (Qmult_le_compat_r _ _ (3 * eps)) in Hc; [|lra].
    assert (E : 7 * d / (3 * eps) * (3 * eps) == 7 * d) by (field; lra).
    rewrite E in Hc. nra. }
  set (a := 0.7 ^ Z.of_nat k) in *.
  assert (Hpos : 0 < 7 + 3 * c).
  { assert (0 <= c); [|lra]. unfold c. change 0 with (inject_Z 0).
    rewrite <- Zle_Qle. lia. }
  assert (Hm : a * d * (7 + 3 * c) < eps * (7 + 3 * c)) by nra.
  apply Qnot_le_lt. intros Hle.
  apply (Qmult_le_compat_r _ _ (7 + 3 * c)) in Hle; lra.
Qed.

End Bands.

(** *** Smoothing towards a constant input, in binary64 *)

Section Smoothing64.
Import B64 B64Facts.
#[local] Open Scope Q_scope.

(** The doubles nearest to 0.7 and to 0.3. *)
Lemma lit_07 : B64.lit 0.7 = Fin (3152519739159347 # 4503599627370496).
Proof. vm_compute. reflexivity. Qed.

Lemma lit_03 : B64.lit 0.3 = Fin (5404319552844595 # 18014398509481984).
Proof. vm_compute. reflexivity. Qed.

(** One update: in [0, 1], and within three units of rounding of the
    exact update. *)
Lemma smooth64_step (s x : Q) :
  0 <= s <= 1 -> 0 <= x <= 1 ->
  exists r : Q,
    smooth64 (Fin s) (Fin x) = Fin r /\ 0 <= r <= 1 /\
    Qabs (r - (s * 0.7 + x * 0.3)) <= 3 # 9007199254740992.
Proof.
  intros Hs Hx. unfold smooth64. rewrite lit_07, lit_03.
  set (c7 := 3152519739159347 # 4503599627370496).
  set (c3 := 5404319552844595 # 18014398509481984).
  assert (F7 : rnd c7 == c7) by (vm_compute; reflexivity).
  assert (F3 : rnd c3 == c3) by (vm_compute; reflexivity).
  assert (F1 : rnd 1 == 1).
  { apply rnd_representable. apply (format_pow2 0). lia. }
  assert (V7 : c7 == 3152519739159347 # 4503599627370496) by reflexivity.
  assert (V3 : c3 == 5404319552844595 # 18014398509481984) by reflexivity.
  (* the two products *)
  assert (P7 : 0 <= s * c7 <= c7) by (rewrite V7; split; lra).
  assert (P3 : 0 <= x * c3 <= c3) by (rewrite V3; split; lra).
  unfold B64.mul. cbn [JS.mul].
  rewrite (nearest_small (s * c7)), (nearest_small (x * c3));
    [| rewrite Qabs_pos, V3 in *; lra | rewrite Qabs_pos, V7 in *; lra].
  set (a := rnd (s * c7)). set (b := rnd (x * c3)).
  assert (A0 : 0 <= a) by (apply rnd_nonneg; lra).
  assert (B0 : 0 <= b) by (apply rnd_nonneg; lra).
  assert (A1 : a <= c7).
  { rewrite <- F7. apply rnd_monotone. lra. }
  assert (B1 : b <= c3).
  { rewrite <- F3. apply rnd_monotone. lra. }
  pose proof (rnd_error_lit (s * c7)) as EA. fold a in EA.
  pose proof (rnd_error_lit (x * c3)) as EB. fold b in EB.
  rewrite (Qabs_pos (s * c7)) in EA by lra.
  rewrite (Qabs_pos (x * c3)) in EB by lra.
  (* the sum *)
  unfold B64.add. cbn [JS.add].
  assert (S1 : a + b <= 1) by (rewrite V7, V3 in *; lra).
  rewrite (nearest_small (a + b)) by (rewrite Qabs_pos; lra).
  set (r := rnd (a + b)).
  assert (R0 : 0 <= r) by (apply rnd_nonneg; lra).
  assert (R1 : r <= 1).
  { rewrite <- F1. apply rnd_monotone. lra. }
  pose proof (rnd_error_lit (a + b)) as ER. fold r in ER.
  rewrite (Qabs_pos (a + b)) in ER by lra.
  exists r. split; [done|]. split; [lra|].
  rewrite V7 in *. rewrite V3 in *.
  revert EA EB ER.
  apply Qabs_case; intros ? EA; revert EA; apply Qabs_case; intros ? EA;
    apply Qabs_case; intros ? EB; apply Qabs_case; intros ? ER; lra.
Qed.

(** [k] updates: in [0, 1], and as near to [x] as the exact law says, up
    to ten units of rounding. *)
Lemma settle64_bound (x s0 : Q) (k : nat) :
  0 <= x <= 1 -> 0 <= s0 <= 1 ->
  exists sk : Q,
    settle64 (Fin x) k (Fin s0) = Fin sk /\ 0 <= sk <= 1 /\
    Qabs (sk - x)
    <= 0.7 ^ Z.of_nat k * Qabs (s0 - x) + (10 # 9007199254740992).
Proof.
  intros Hx Hs. induction k as [|k (sk & Hk & Hr & Hd)].
  - exists s0. split; [done|]. split; [done|].
    change (0.7 ^ Z.of_nat 0) with 1. lra.
  - destruct (smooth64_step sk x Hr Hx) as (r & Er & Hr' & Herr).
    exists r. split.
    { unfold settle64 in *. simpl. by rewrite Hk. }
    split; [done|].
    rewrite Nat2Z.inj_succ, <- Z.add_1_r, Qpower_plus by done.
    change (0.7 ^ 1) with 0.7.
    set (p := 0.7 ^ Z.of_nat k) in *. set (d := Qabs (s0 - x)) in *.
    assert (Hstep : Qabs (r - x) <= 0.7 * Qabs (sk - x) + (3 # 9007199254740992)).
    { revert Herr. apply Qabs_case; intros ? Herr; revert Herr;
        apply Qabs_case; intros ? Herr; apply Qabs_case; intros; lra. }
    assert (E : p * 0.7 * d == 0.7 * (p * d)) by ring.
    rewrite E. lra.
Qed.

End Smoothing64.

(** C9, as it holds of the engine's numbers: fed the same normalized
    input [x] in [0, 1] on every frame, a band that starts in [0, 1]
    stays there and moves towards [x] geometrically with ratio 0.7 up to
    rounding: each update is within [3 * 2^-53] of
    [smoothed * 0.7 + x * 0.3], after [k] frames the distance to [x] is
    at most [0.7 ^ k] times the initial one plus [2^-49], and every
    tolerance above [2^-49] is met from some frame on. *)
Theorem smoothing_converges_geometrically (x s0 : Q) :
  (0 <= x <= 1)%Q -> (0 <= s0 <= 1)%Q ->
  (exists s1 : Q,
     smooth64 (Fin s0) (Fin x) = Fin s1 /\
     (Qabs (s1 - (s0 * 0.7 + x * 0.3)) <= 3 * B64.u)%Q) /\
  (forall k : nat, exists sk : Q,
      settle64 (Fin x) k (Fin s0) = Fin sk /\ (0 <= sk <= 1)%Q /\
      (Qabs (sk - x)
       <= 0.7 ^ Z.of_nat k * Qabs (s0 - x) + B64.pow2 (-49))%Q) /\
  (forall eps : Q, (B64.pow2 (-49) < eps)%Q ->
      exists K : nat, forall (k : nat) (sk : Q),
        (K <= k)%nat -> settle64 (Fin x) k (Fin s0) = Fin sk ->
        (Qabs (sk - x) < eps)%Q).
Proof.
  intros Hx Hs.
  assert (P49 : (B64.pow2 (-49) == 1 # 562949953421312)%Q)
    by (vm_compute; reflexivity).
  split; [|split].
  - destruct (smooth64_step s0 x Hs Hx) as (r & Er & _ & Herr).
    exists r. split; [done|]. rewrite B64Facts.u_value. lra.
  - intros k. destruct (settle64_bound x s0 k Hx Hs) as (sk & Hk & Hr & Hd).
    exists sk. split; [done|]. split; [done|]. rewrite P49. lra.
  - intros eps He. rewrite P49 in He.
    destruct (pow07_small (Qabs (s0 - x)) (eps - (1 # 562949953421312)))
      as [K HK]; [apply Qabs_nonneg | lra |].
    exists K. intros k sk Hk Hsk.
    destruct (settle64_bound x s0 k Hx Hs) as (sk' & Hk' & _ & Hd).
    rewrite Hsk in Hk'. injection Hk' as <-.
    specialize (HK k Hk). lra.
Qed.

Lemma smoothing_converges_geometrically_witness :
  exists sk : Q,
    settle64 (lit 1) 40 (lit 0) = Fin sk /\
    (Qabs (sk - 1) <= 0.7 ^ 40 * Qabs (0 - 1) + B64.pow2 (-49))%Q.
Proof.
  assert (H1 : (0 <= 1 <= 1)%Q) by (split; vm_compute; discriminate).
  assert (H0 : (0 <= 0 <= 1)%Q) by (split; vm_compute; discriminate).
  destruct (smoothing_converges_geometrically 1 0 H1 H0) as (_ & Hk & _).
  destruct (Hk 40%nat) as (sk & E & _ & Hd).
  exists sk. split; [exact E | exact Hd].
Defined.

(** C9 does not hold as stated of the engine's numbers.  The normalized
    value of a band whose bins are all 10 is not a fixed point of the
    update: one update moves the band off it.  And towards the input 1
    the band stops at [1 - 2^-51] after a hundred frames, which the
    update maps to itself: the distance is then neither [0.7 ^ k] times
    the initial one nor arbitrarily small. *)
Lemma smoothing_stalls_in_binary64 :
  smooth64 tenInput tenInput <> tenInput /\
  settle64 (lit 1) 100 (lit 0) = B64.lit (1 - B64.pow2 (-51)) /\
  smooth64 (B64.lit (1 - B64.pow2 (-51))) (lit 1)
  = B64.lit (1 - B64.pow2 (-51)) /\
  (forall k : nat, (100 <= k)%nat ->
     settle64 (lit 1) k (lit 0) = B64.lit (1 - B64.pow2 (-51))).
Proof.
  assert (E100 : settle64 (lit 1) 100 (lit 0) = B64.lit (1 - B64.pow2 (-51))).
  { vm_compute. reflexivity. }
  assert (Efix : smooth64 (B64.lit (1 - B64.pow2 (-51))) (lit 1)
                 = B64.lit (1 - B64.pow2 (-51))).
  { vm_compute. reflexivity. }
  split; [by vm_compute|]. split; [exact E100|]. split; [exact Efix|].
  intros k Hk. replace k with ((k - 100) + 100)%nat by lia.
  generalize (k - 100)%nat. clear k Hk. intros n.
  induction n as [|n IH]; [exact E100|].
  change (settle64 (lit 1) (S n + 100) (lit 0))
    with (smooth64 (settle64 (lit 1) (n + 100) (lit 0)) (lit 1)).
  rewrite IH. exact Efix.
Qed.

(** *** The groups of bins *)

Section Groups.
#[local] Open Scope Q_scope.

Lemma byteQ_nonneg (b : byte) : 0 <= byteQ b.
Proof. unfold byteQ. change 0 with (inject_Z 0). rewrite <- Zle_Qle. lia. Qed.

Lemma byteSum_nonneg (group : list byte) : 0 <= byteSum group.
Proof.
  induction group as [|b g IH]; simpl; [lra|].
  pose proof (byteQ_nonneg b). lra.
Qed.

Lemma sumBins_from (data : list byte) (count start : nat) (acc : Q) :
  (start + count <= length data)%nat ->
  exists q : Q,
    fold_left
      (fun sum j => (sum + default NaN (JS.of_byte <$> data !! j))%js)
      (seq start count) (Fin acc) = Fin q /\
    q == acc + byteSum (take count (drop start data)).
Proof.
  revert start acc. induction count as [|c IH]; intros start acc H.
  - exists acc. split; [done|]. simpl. ring.
  - destruct (lookup_lt_is_Some_2 data start) as [b Hb]; [lia|].
    destruct (IH (S start) (acc + byteQ b)) as (q & Hq & Hs); [lia|].
    exists q. split.
    + simpl. rewrite Hb. simpl. exact Hq.
    + rewrite Hs. rewrite (drop_S _ _ _ Hb). simpl. ring.
Qed.

Lemma sumBins_Fin (data : list byte) (startIndex endIndex : nat) :
  (startIndex <= endIndex <= length data)%nat ->
  exists q : Q,
    sumBins data startIndex endIndex = Fin q /\
    q == byteSum (take (endIndex - startIndex) (drop startIndex data)).
Proof.
  intros H. unfold sumBins.
  destruct (sumBins_from data (endIndex - startIndex) startIndex 0)
    as (q & Hq & Hs); [lia|].
  exists q. split; [done|]. rewrite Hs. ring.
Qed.

(** Where the groups fit into the buffer the loop computes the mean of
    the specification's group. *)
Lemma normalizedBand_mean (data : list byte) (n i : nat) :
  (1 <= length data / n)%nat -> (i < n)%nat ->
  exists p : Q,
    normalizedBand data n i = JS.min (Fin p) (lit 1) /\
    p == arithmeticMean (bandGroup data n i) / 255 * 2.5 /\
    0 <= p.
Proof.
  intros Hw Hi. unfold normalizedBand, bandGroup, arithmeticMean.
  set (w := (length data / n)%nat) in *.
  assert (Hn : n <> 0%nat) by lia.
  assert (Hfit : (i * w + w <= length data)%nat).
  { pose proof (Nat.Div0.mul_div_le (length data) n) as H. fold w in H. nia. }
  rewrite Nat.min_l by lia.
  replace (i * w + w - i * w)%nat with w by lia.
  destruct (sumBins_Fin data (i * w) (i * w + w)) as (q & -> & Hq); [lia|].
  replace (i * w + w - i * w)%nat with w in Hq by lia.
  assert (Hlen : length (take w (drop (i * w) data)) = w).
  { rewrite length_take, length_drop. lia. }
  rewrite Hlen.
  assert (Hw' : 1 <= inject_Z (Z.of_nat w)).
  { change 1 with (inject_Z 1). rewrite <- Zle_Qle. lia. }
  unfold JS.of_nat. cbn [JS.div].
  rewrite Qeq_bool_false by lra.
  exists (q / inject_Z (Z.of_nat w) / 255 * 2.5). split; [done|].
  split.
  - by rewrite Hq.
  - pose proof (byteSum_nonneg (take w (drop (i * w) data))) as H0.
    rewrite <- Hq in H0.
    assert (0 <= q / inject_Z (Z.of_nat w)).
    { apply Qle_shift_div_l; lra. }
    qlit. lra.
Qed.

(** Where they do not (more bands than bins) the mean is [0 / 0]. *)
Lemma normalizedBand_NaN (data : list byte) (n i : nat) :
  (length data / n = 0)%nat -> normalizedBand data n i = NaN.
Proof.
  intros Hw. unfold normalizedBand. rewrite Hw.
  replace (i * 0 + 0)%nat with (i * 0)%nat by lia.
  replace (i * 0)%nat with 0%nat by lia.
  rewrite Nat.min_l by lia. done.
Qed.

End Groups.

(** C1: with [0 < n <= length] bands, one invocation of
    [processFrequencyBands] sets band [i] to [old * 0.7 + normalized * 0.3],
    where [normalized] is [min (mean / 255 * 2.5, 1)] for the arithmetic
    mean of the [i]-th group of [length / n] consecutive bins. *)
Theorem processFrequencyBands_band (st : AudioSpectrum) (data : list byte)
    (i : nat) :
  frequencyData st = Some data ->
  (0 < bandCount (config st) <= length data)%nat ->
  length (smoothedData st) = bandCount (config st) ->
  (i < bandCount (config st))%nat ->
  exists normalized : number,
    smoothedData (processFrequencyBands st) !! i
    = Some (JS.get (smoothedData st) i * lit 0.7 + normalized * lit 0.3)%js /\
    normalized =j=
      JS.min
        (Fin (arithmeticMean (bandGroup data (bandCount (config st)) i)
              / 255 * 2.5)%Q)
        (lit 1).
Proof.
  intros Hd [Hn Hle] Hlen Hi.
  destruct (processFrequencyBands_smoothed st data Hd Hlen) as [_ Hs].
  exists (normalizedBand data (bandCount (config st)) i).
  split; [by apply Hs|].
  destruct (normalizedBand_mean data (bandCount (config st)) i)
    as (p & -> & Hp & _); [|done|by apply min_Fin_eqv].
  apply Nat.div_le_lower_bound; lia.
Qed.

Lemma processFrequencyBands_band_witness :
  exists normalized : number,
    smoothedData (processFrequencyBands (listening sceneConfig loud)) !! 0%nat
    = Some (JS.get (smoothedData (listening sceneConfig loud)) 0 * lit 0.7
            + normalized * lit 0.3)%js /\
    normalized =j=
      JS.min (Fin (arithmeticMean (bandGroup loud 8 0) / 255 * 2.5)%Q) (lit 1).
Proof.
  refine (processFrequencyBands_band (listening sceneConfig loud) loud 0%nat
            _ _ _ _).
  - reflexivity.
  - vm_compute. lia.
  - vm_compute. reflexivity.
  - vm_compute. lia.
Defined.

(** ** The states of a visualizer *)

Section Invariant.

Lemma for_range_invariant {A : Type} (P : A -> Prop)
    (body : nat -> A -> completion A) (count start : nat) (s : A) :
  (forall i s, (start <= i < start + count)%nat -> P s ->
     exists s', body i s = Normal s' /\ P s') ->
  P s ->
  exists s', for_range start count body s = Normal s' /\ P s'.
Proof.
  revert start s. induction count as [|c IH]; intros start s Hbody Hs.
  - by exists s.
  - destruct (Hbody start s) as (s1 & E1 & H1); [lia | done |].
    destruct (IH (S start) s1) as (s2 & E2 & H2); [|done|].
    { intros i s' Hi. apply Hbody. lia. }
    exists s2. split; [|done]. simpl. rewrite E1. exact E2.
Qed.

Lemma smooth_band_value (old normalized : number) :
  band_value old -> band_value normalized ->
  band_value (smooth old normalized).
Proof.
  unfold band_value, smooth.
  intros [-> | Ho] [-> | Hn]; try (by left).
  - destruct old; try done. by left.
  - destruct old as [o| | |], normalized as [m| | |]; try done.
    right. simpl in *. lra.
Qed.

Lemma smooth_unit (old normalized : number) :
  JS.unit_interval old -> JS.unit_interval normalized ->
  JS.unit_interval (smooth old normalized).
Proof.
  destruct old as [o| | |], normalized as [m| | |]; try done.
  simpl. intros. lra.
Qed.

Lemma normalizedBand_band_value (data : list byte) (n i : nat) :
  (i < n)%nat -> band_value (normalizedBand data n i).
Proof.
  intros Hi. destruct (decide (length data / n = 0)%nat) as [E|E].
  - left. by apply normalizedBand_NaN.
  - right. destruct (normalizedBand_mean data n i) as (p & -> & _ & Hp);
      [lia | done |]. by apply min_Fin_unit.
Qed.

Lemma normalizedBand_unit (data : list byte) (n i : nat) :
  (0 < n <= length data)%nat -> (i < n)%nat ->
  JS.unit_interval (normalizedBand data n i).
Proof.
  intros [Hn Hle] Hi.
  destruct (normalizedBand_mean data n i) as (p & -> & _ & Hp);
    [|done|by apply min_Fin_unit].
  apply Nat.div_le_lower_bound; lia.
Qed.

(** Every entry of the new array is a smoothing of the old one. *)
Lemma processFrequencyBands_Forall (P : number -> Prop) (st : AudioSpectrum)
    (data : list byte) :
  frequencyData st = Some data ->
  length (smoothedData st) = bandCount (config st) ->
  Forall P (smoothedData st) ->
  (forall i old, (i < bandCount (config st))%nat -> P old ->
     P (smooth old (normalizedBand data (bandCount (config st)) i))) ->
  Forall P (smoothedData (processFrequencyBands st)).
Proof.
  intros Hd Hlen HP Hstep.
  destruct (processFrequencyBands_smoothed st data Hd Hlen) as [Hl Hs].
  apply Forall_lookup. intros i v Hv.
  assert (Hi : (i < bandCount (config st))%nat).
  { apply lookup_lt_Some in Hv. lia. }
  rewrite Hs in Hv by done. injection Hv as <-.
  apply Hstep; [done|].
  destruct (lookup_lt_is_Some_2 (smoothedData st) i) as [old Ho]; [lia|].
  rewrite (get_lookup _ _ _ Ho). by eapply Forall_lookup_1.
Qed.

Lemma processFrequencyBands_invariant (n : nat) (st : AudioSpectrum) :
  invariant n st -> invariant n (processFrequencyBands st).
Proof.
  intros I.
  destruct (frequencyData st) as [data|] eqn:Hd.
  2: { unfold processFrequencyBands. by rewrite Hd. }
  destruct (processFrequencyBands_frame st)
    as (Hc & Hf & Hp & Ht & Hb & Hl & _ & _).
  pose proof (inv_bandCount _ _ I) as Hn.
  destruct (processFrequencyBands_smoothed st data Hd) as [Hlen _].
  { rewrite Hn. apply I. }
  split; rewrite ?Hc, ?Hf, ?Hp, ?Ht, ?Hb, ?Hl; try apply I.
  - lia.
  - apply (processFrequencyBands_Forall band_value st data Hd).
    + rewrite Hn. apply I.
    + apply I.
    + intros i old Hi Ho. apply smooth_band_value; [done|].
      by apply normalizedBand_band_value.
  - intros Hle. apply (processFrequencyBands_Forall JS.unit_interval st data Hd).
    + rewrite Hn. apply I.
    + by apply I.
    + intros i old Hi Ho. apply smooth_unit; [done|].
      apply normalizedBand_unit; [|done].
      rewrite (inv_buffer _ _ I data Hd). lia.
Qed.

End Invariant.

Section InvariantSteps.

Lemma invariant_frequencyData (n : nat) (st : AudioSpectrum)
    (d : option (list byte)) :
  invariant n st ->
  (forall data, d = Some data -> length data = frequencyBinCount) ->
  invariant n (with_frequencyData st d).
Proof. intros I H. split; simpl; try apply I. exact H. Qed.

Lemma invariant_bars (n : nat) (st : AudioSpectrum) (bars : list Mesh.t)
    (lights : list PointLight.t) :
  invariant n st -> length bars = n -> length lights = n ->
  invariant n (with_bars st bars lights).
Proof. intros I Hb Hl. split; simpl; try apply I; done. Qed.

Lemma invariant_pool (n : nat) (st : AudioSpectrum) (pool : list ParticleData) :
  invariant n st ->
  map identity pool = map identity (particlePool st) ->
  Forall particle_ok pool ->
  invariant n (with_particlePool st pool).
Proof.
  intros I Hi Hp. split; simpl; try apply I; [|done].
  rewrite Hi. apply I.
Qed.

Lemma invariant_timers (n : nat) (st : AudioSpectrum) (t : list number) :
  invariant n st -> length t = n -> invariant n (with_timers st t).
Proof. intros I H. split; simpl; try apply I; done. Qed.

Lemma invariant_pending (n : nat) (st : AudioSpectrum) (p : list Timeout) :
  invariant n st -> invariant n (with_pending st p).
Proof. intros I. split; simpl; apply I. Qed.

Lemma invariant_random_calls (n : nat) (st : AudioSpectrum) (k : nat) :
  invariant n st -> invariant n (with_random_calls st k).
Proof. intros I. split; simpl; apply I. Qed.

Lemma constructor_invariant (cfg : AudioSpectrumConfig) :
  invariant (bandCount cfg) (constructor cfg).
Proof.
  split.
  - done.
  - done.
  - by rewrite constructor_bars, length_map, length_seq.
  - by rewrite constructor_lights, length_map, length_seq.
  - unfold constructor, createSpectrumBars. simpl. by rewrite length_replicate.
  - unfold constructor, createSpectrumBars. simpl.
    apply Forall_replicate. right. simpl. lra.
  - intros _. unfold constructor, createSpectrumBars. simpl.
    apply Forall_replicate. simpl. lra.
  - unfold constructor, createSpectrumBars. simpl. by rewrite length_replicate.
  - done.
  - unfold constructor, createSpectrumBars, initializeParticlePool. simpl.
    apply Forall_forall. intros p Hp.
    apply list_elem_of_fmap in Hp as (i & -> & _). done.
Qed.

Lemma initializeAudio_invariant (n : nat) (st : AudioSpectrum) :
  invariant n st -> invariant n (initializeAudio st).
Proof.
  intros I. apply invariant_frequencyData; [done|].
  intros data [= <-]. reflexivity.
Qed.

Lemma getByteFrequencyData_length (buffer sample : list byte) :
  length (getByteFrequencyData buffer sample) = length buffer.
Proof.
  unfold getByteFrequencyData.
  rewrite length_app, length_take, length_drop. lia.
Qed.

(** Where an entry of the pool sits and whose it is. *)
Lemma pool_entry (n : nat) (st : AudioSpectrum) (k : nat) (p : ParticleData) :
  invariant n st -> particlePool st !! k = Some p ->
  Mesh.name (mesh p) = k /\
  cylinderIndex p = (k / maxParticlesPerCylinder)%nat /\
  (k < n * maxParticlesPerCylinder)%nat.
Proof.
  intros I Hk.
  assert (H : map identity (particlePool st) !! k = Some (identity p)).
  { by rewrite list_lookup_fmap, Hk. }
  rewrite (inv_identity _ _ I) in H. unfold initializeParticlePool in H.
  rewrite map_map in H. apply lookup_map_seq0 in H as [Hlt E].
  unfold identity in E. simpl in E. by injection E as -> ->.
Qed.

Lemma pool_length (n : nat) (st : AudioSpectrum) :
  invariant n st ->
  length (particlePool st) = (n * maxParticlesPerCylinder)%nat.
Proof.
  intros I.
  rewrite <- (length_map identity), (inv_identity _ _ I).
  unfold initializeParticlePool. by rewrite !length_map, length_seq.
Qed.

(** *** The bar loops *)

Lemma updateBarAt_loop
    (f : nat -> Mesh.t -> PointLight.t -> Mesh.t * PointLight.t)
    (st : AudioSpectrum) (count start : nat) :
  length (spectrumLights st) = length (spectrumBars st) ->
  (start + count <= length (spectrumBars st))%nat ->
  exists bars lights,
    for_range start count (updateBarAt f) st
    = Normal (with_bars st bars lights) /\
    length bars = length (spectrumBars st) /\
    length lights = length (spectrumBars st).
Proof.
  intros Hl Hc.
  destruct (for_range_invariant
    (fun s => exists bars lights, s = with_bars st bars lights /\
       length bars = length (spectrumBars st) /\
       length lights = length (spectrumBars st))
    (updateBarAt f) count start st) as (s' & E & bars & lights & -> & H).
  - intros i s Hi (bars & lights & -> & Hb1 & Hl1).
    unfold updateBarAt. simpl.
    destruct (lookup_lt_is_Some_2 bars i) as [bar ->]; [lia|].
    destruct (lookup_lt_is_Some_2 lights i) as [light ->]; [lia|].
    destruct (f i bar light) as [bar' light'].
    eexists. split; [done|]. simpl.
    exists (<[i := bar']> bars), (<[i := light']> lights).
    by rewrite !length_insert.
  - exists (spectrumBars st), (spectrumLights st). by destruct st.
  - by exists bars, lights.
Qed.

Lemma updateSpectrumBars_ok (n : nat) (st : AudioSpectrum) :
  invariant n st ->
  exists bars lights,
    updateSpectrumBars st = Normal (with_bars st bars lights) /\
    invariant n (with_bars st bars lights).
Proof.
  intros I. unfold updateSpectrumBars.
  edestruct (updateBarAt_loop) as (bars & lights & -> & Hb & Hl).
  - by rewrite (inv_lights _ _ I), (inv_bars _ _ I).
  - simpl. reflexivity.
  - exists bars, lights. split; [done|].
    rewrite (inv_bars _ _ I) in Hb, Hl. by apply invariant_bars.
Qed.

(** *** The particles *)

Lemma updateParticle_identity (deltaTime : number) (p : ParticleData) :
  identity (updateParticle deltaTime p) = identity p.
Proof.
  unfold updateParticle.
  destruct (negb (active p)); [done|].
  by destruct (JS.le _ _).
Qed.

Lemma updateParticle_ok (deltaTime : Q) (p : ParticleData) :
  particle_ok p -> particle_ok (updateParticle (Fin deltaTime) p).
Proof.
  intros (He & Hl & Hm). unfold updateParticle.
  destruct (active p) eqn:Ha; simpl; [|unfold particle_ok; by rewrite Ha].
  destruct (life p) as [l| | |] eqn:El; try done. simpl.
  destruct (Qle_bool _ _); done.
Qed.

Lemma updateParticles_invariant (n : nat) (deltaTime : Q) (st : AudioSpectrum) :
  invariant n st -> invariant n (updateParticles (Fin deltaTime) st).
Proof.
  intros I. apply invariant_pool; [done| |].
  - rewrite map_map. apply map_ext. intros p. apply updateParticle_identity.
  - apply Forall_fmap. eapply Forall_impl; [apply I|].
    intros p. apply updateParticle_ok.
Qed.

End InvariantSteps.

Section Emission.

Variable random_source : nat -> Q.
Variable Math_sin : number -> number.

Lemma getInactiveParticle_Some (c : nat) (pool : list ParticleData)
    (k : nat) (p : ParticleData) :
  getInactiveParticle c pool = Some (k, p) ->
  pool !! k = Some p /\ active p = false /\ cylinderIndex p = c.
Proof.
  unfold getInactiveParticle. intros H.
  apply list_find_Some in H as (Hk & [Ha Hc] & _). done.
Qed.

Lemma getInactiveParticle_None (c : nat) (pool : list ParticleData) :
  getInactiveParticle c pool = None <->
  forall p, p ∈ pool -> cylinderIndex p = c -> active p = true.
Proof.
  unfold getInactiveParticle. rewrite list_find_None, Forall_forall.
  split; intros H p Hp.
  - intros Hc. specialize (H p Hp). destruct (active p); [done|].
    exfalso. by apply H.
  - intros [Ha Hc]. specialize (H p Hp Hc). congruence.
Qed.

Lemma launch_identity (st : AudioSpectrum) (bar : Mesh.t) (p : ParticleData) :
  identity (launch random_source st bar p) = identity p.
Proof. done. Qed.

Lemma launch_ok (st : AudioSpectrum) (bar : Mesh.t) (p : ParticleData) :
  particle_ok p -> particle_ok (launch random_source st bar p).
Proof. intros (_ & _ & Hm). unfold particle_ok. simpl. by rewrite Hm. Qed.

Lemma insert_identity (pool : list ParticleData) (k : nat)
    (p p' : ParticleData) :
  pool !! k = Some p -> identity p' = identity p ->
  map identity (<[k := p']> pool) = map identity pool.
Proof.
  intros Hk Hi. rewrite list_fmap_insert, Hi.
  apply list_insert_id. by rewrite list_lookup_fmap, Hk.
Qed.

(** What [emitParticle] does in a state of a visualizer: nothing when
    every entry of the band is active, and otherwise it launches the
    first inactive one, without throwing. *)
Lemma emitParticle_spec (n c : nat) (x : number) (st : AudioSpectrum) :
  invariant n st ->
  match getInactiveParticle c (particlePool st) with
  | None => emitParticle random_source c x st = Normal st
  | Some (k, p) =>
      exists bar,
        spectrumBars st !! c = Some bar /\
        emitParticle random_source c x st
        = Normal (with_random_calls
                    (with_particlePool st
                       (<[k := launch random_source st bar p]> (particlePool st)))
                    (random_calls st + 5))
  end.
Proof.
  intros I. unfold emitParticle.
  destruct (getInactiveParticle c (particlePool st)) as [[k p]|] eqn:E; [|done].
  apply getInactiveParticle_Some in E as (Hk & _ & Hc).
  destruct (pool_entry n st k p I Hk) as (_ & Hc' & Hlt).
  destruct (lookup_lt_is_Some_2 (spectrumBars st) c) as [bar Hbar].
  { rewrite (inv_bars _ _ I), <- Hc, Hc'.
    apply Nat.Div0.div_lt_upper_bound. lia. }
  exists bar. by rewrite Hbar.
Qed.

Lemma emitParticle_invariant (n c : nat) (x : number) (st : AudioSpectrum) :
  invariant n st ->
  exists pool calls,
    emitParticle random_source c x st
    = Normal (with_random_calls (with_particlePool st pool) calls) /\
    invariant n (with_random_calls (with_particlePool st pool) calls).
Proof.
  intros I. pose proof (emitParticle_spec n c x st I) as H.
  destruct (getInactiveParticle c (particlePool st)) as [[k p]|] eqn:E.
  - destruct H as (bar & _ & ->).
    apply getInactiveParticle_Some in E as (Hk & _ & _).
    eexists _, _. split; [done|].
    apply invariant_random_calls, invariant_pool; [done| |].
    + by apply (insert_identity _ _ p).
    + apply Forall_insert; [apply I|]. apply launch_ok.
      by eapply Forall_lookup_1; [apply I|].
  - exists (particlePool st), (random_calls st). by destruct st.
Qed.

End Emission.

Section EmissionLoop.

Variable random_source : nat -> Q.

Lemma for_range_indexed {A : Type} (P : nat -> A -> Prop)
    (body : nat -> A -> completion A) (count start : nat) (s : A) :
  (forall i s, (start <= i < start + count)%nat -> P i s ->
     exists s', body i s = Normal s' /\ P (S i) s') ->
  P start s ->
  exists s', for_range start count body s = Normal s' /\ P (start + count)%nat s'.
Proof.
  revert start s. induction count as [|c IH]; intros start s Hbody Hs.
  - exists s. by rewrite Nat.add_0_r.
  - destruct (Hbody start s) as (s1 & E1 & H1); [lia | done |].
    destruct (IH (S start) s1) as (s2 & E2 & H2); [|done|].
    { intros i s' Hi. apply Hbody. lia. }
    exists s2. replace (start + S c)%nat with (S start + c)%nat by lia.
    split; [|done]. simpl. rewrite E1. exact E2.
Qed.

(** The body of the emission loop: the timer is decremented, then reset
    if it is due, and the pool is what [emitParticle], called if the
    timer is due, leaves. *)
Lemma emissionStep_shape (n : nat) (deltaTime : number) (i : nat)
    (s : AudioSpectrum) :
  invariant n s -> (i < n)%nat ->
  let t := (JS.get (particleEmissionTimers s) i - deltaTime)%js in
  let s1 := with_timers s (<[i := t]> (particleEmissionTimers s)) in
  exists pool calls0 calls pend,
    emissionStep random_source deltaTime i s
    = Normal (mkSpectrum (config s) (frequencyData s) (spectrumBars s)
                (spectrumLights s) (smoothedData s) pool
                (<[i := timerAfter deltaTime s i]> (particleEmissionTimers s))
                pend calls) /\
    (if JS.le t (lit 0)
     then emitParticle random_source i (JS.get (smoothedData s) i) s1
     else Normal s1)
    = Normal (with_random_calls (with_particlePool s1 pool) calls0) /\
    invariant n (with_particlePool s pool).
Proof.
  intros I Hi t s1.
  assert (Ht : (i < length (particleEmissionTimers s))%nat).
  { by rewrite (inv_timers _ _ I). }
  assert (I1 : invariant n s1).
  { apply invariant_timers; [done|]. by rewrite length_insert, (inv_timers _ _ I). }
  unfold emissionStep, timerAfter. rewrite set_in_range by done.
  fold t. fold s1.
  assert (Hget : JS.get (particleEmissionTimers s1) i = t).
  { apply get_lookup. simpl. by apply list_lookup_insert_eq. }
  rewrite Hget. destruct (JS.le t (lit 0)) eqn:Hdue.
  - destruct (emitParticle_invariant random_source n i
                (JS.get (smoothedData s) i) s1 I1) as (pool & calls0 & E & I2).
    rewrite E. cbn [mbind completion_bind].
    assert (Ip : invariant n (with_particlePool s pool)).
    { destruct I2. split; simpl in *; try done; apply I. }
    assert (Hset : forall v,
      JS.set (<[i := t]> (particleEmissionTimers s)) i v
      = <[i := v]> (particleEmissionTimers s)).
    { intros v. rewrite set_in_range by by rewrite length_insert.
      apply list_insert_insert_eq. }
    destruct (JS.gt (JS.get (smoothedData s) i) (lit 0.7)).
    + destruct (JS.lt _ (lit 0.3)).
      * eexists pool, calls0, _, _. split; [|done]. simpl. by rewrite Hset.
      * eexists pool, calls0, _, _. split; [|done]. simpl. by rewrite Hset.
    + eexists pool, calls0, _, _. split; [|done]. simpl. by rewrite Hset.
  - exists (particlePool s), (random_calls s), (random_calls s), (pending s).
    split; [done|]. split; [done|]. by destruct s.
Qed.

Lemma emissionStep_invariant (n : nat) (deltaTime : number) (i : nat)
    (s : AudioSpectrum) :
  invariant n s -> (i < n)%nat ->
  exists s', emissionStep random_source deltaTime i s = Normal s' /\
             invariant n s'.
Proof.
  intros I Hi.
  destruct (emissionStep_shape n deltaTime i s I Hi)
    as (pool & calls0 & calls & pend & -> & _ & Ip).
  eexists. split; [done|].
  destruct Ip. split; simpl in *; try done.
  by rewrite length_insert.
Qed.

Lemma updateParticleEmission_invariant (n : nat) (deltaTime : number)
    (st : AudioSpectrum) :
  invariant n st ->
  exists st', updateParticleEmission random_source deltaTime st = Normal st' /\
              invariant n st'.
Proof.
  intros I. unfold updateParticleEmission. rewrite (inv_bandCount _ _ I).
  destruct (for_range_indexed (fun _ s => invariant n s)
              (emissionStep random_source deltaTime) n 0 st)
    as (st' & E & I'); [|done|by exists st'].
  intros i s Hi Is. apply emissionStep_invariant; [done|lia].
Qed.

End EmissionLoop.

Section Reachable.

Variable random_source : nat -> Q.
Variable Math_sin : number -> number.

Lemma animate_invariant (n : nat) (sample : list byte) (deltaTime : Q)
    (st : AudioSpectrum) :
  invariant n st ->
  exists st', animate random_source sample (Fin deltaTime) st = Normal st' /\
              invariant n st'.
Proof.
  intros I. unfold animate.
  destruct (frequencyData st) as [buffer|] eqn:Hb; [|by exists st].
  set (st1 := with_frequencyData st _).
  assert (I1 : invariant n st1).
  { apply invariant_frequencyData; [done|]. intros data [= <-].
    rewrite getByteFrequencyData_length. by apply (inv_buffer _ _ I). }
  pose proof (processFrequencyBands_invariant n st1 I1) as I2.
  destruct (updateSpectrumBars_ok n _ I2) as (bars & lights & -> & I3).
  cbn [mbind completion_bind].
  apply updateParticleEmission_invariant.
  by apply updateParticles_invariant.
Qed.

Lemma animateFallback_invariant (n : nat) (time : number) (deltaTime : Q)
    (st : AudioSpectrum) :
  invariant n st ->
  exists st',
    animateFallback random_source Math_sin time (Fin deltaTime) st = Normal st' /\
    invariant n st'.
Proof.
  intros I. unfold animateFallback.
  edestruct updateBarAt_loop as (bars & lights & -> & Hb & Hl).
  - by rewrite (inv_lights _ _ I), (inv_bars _ _ I).
  - simpl. reflexivity.
  - cbn [mbind completion_bind].
    apply updateParticleEmission_invariant, updateParticles_invariant.
    rewrite (inv_bars _ _ I) in Hb, Hl. by apply invariant_bars.
Qed.

Lemma runTimeout_invariant (n k : nat) (st : AudioSpectrum) :
  invariant n st ->
  exists st', runTimeout random_source k st = Normal st' /\ invariant n st'.
Proof.
  intros I. unfold runTimeout.
  destruct (pending st !! k) as [t|]; [|by exists st].
  destruct (emitParticle_invariant random_source n (timeout_band t)
              (timeout_intensity t) (with_pending st (delete k (pending st))))
    as (pool & calls & E & I'); [by apply invariant_pending|].
  eexists. by split.
Qed.

(** No callback throws in a state of a visualizer, and the state it
    leaves is one again. *)
Lemma handle_invariant (n : nat) (e : event) (st : AudioSpectrum) :
  invariant n st ->
  exists st', handle random_source Math_sin e st = Normal st' /\
              invariant n st'.
Proof.
  intros I. destruct e as [|sample dt|time dt|k]; simpl.
  - eexists. split; [done|]. by apply initializeAudio_invariant.
  - by apply animate_invariant.
  - by apply animateFallback_invariant.
  - by apply runTimeout_invariant.
Qed.

Lemma reachable_invariant (cfg : AudioSpectrumConfig) (st : AudioSpectrum) :
  reachable random_source Math_sin cfg st -> invariant (bandCount cfg) st.
Proof.
  induction 1 as [|st e st' _ IH E].
  - apply constructor_invariant.
  - destruct (handle_invariant _ e st IH) as (st'' & E' & I).
    rewrite E in E'. by injection E' as <-.
Qed.

(** The bound on the entries of one band. *)
Lemma band_entries_bound (i m : nat) :
  length (filter (fun k => (k / maxParticlesPerCylinder)%nat = i) (seq 0 m))
  = Nat.min (m - i * maxParticlesPerCylinder) maxParticlesPerCylinder.
Proof.
  unfold maxParticlesPerCylinder.
  induction m as [|m IH]; [by rewrite Nat.min_0_l|].
  rewrite seq_S, filter_app, length_app, IH. simpl.
  destruct (decide (m / 10 = i)%nat) as [E|E].
  - rewrite filter_cons_True by done. simpl.
    assert (i * 10 <= m < i * 10 + 10)%nat; [|lia].
    pose proof (Nat.div_mod_eq m 10). pose proof (Nat.mod_upper_bound m 10).
    lia.
  - rewrite filter_cons_False by done. simpl.
    assert (m < i * 10 \/ i * 10 + 10 <= m)%nat; [|lia].
    pose proof (Nat.div_mod_eq m 10). pose proof (Nat.mod_upper_bound m 10).
    lia.
Qed.

Lemma activeCount_bound (n i : nat) (st : AudioSpectrum) :
  invariant n st ->
  (activeCount i (particlePool st) <= maxParticlesPerCylinder)%nat.
Proof.
  intros I. unfold activeCount.
  transitivity (length (filter (fun id : nat * nat => id.2 = i)
                          (map identity (particlePool st)))).
  - generalize (particlePool st). intros pool.
    induction pool as [|p pool IH]; [done|]. simpl.
    destruct (decide (active p = true /\ cylinderIndex p = i)) as [[Ea E]|E].
    + rewrite filter_cons_True by done.
      rewrite (filter_cons_True _ (identity p)) by done. simpl. lia.
    + rewrite filter_cons_False by done.
      destruct (decide (cylinderIndex p = i)) as [E'|E'].
      * rewrite (filter_cons_True _ (identity p)) by done. simpl. lia.
      * by rewrite (filter_cons_False _ (identity p)).
  - rewrite (inv_identity _ _ I). unfold initializeParticlePool.
    rewrite map_map.
    assert (E : forall m,
      length (filter (fun id : nat * nat => id.2 = i)
                (map (fun k => identity (createParticle n k)) (seq 0 m)))
      = length (filter (fun k => (k / maxParticlesPerCylinder)%nat = i)
                  (seq 0 m))).
    { intros m. generalize (seq 0 m). intros l.
      induction l as [|k l IH]; [done|]. simpl.
      destruct (decide (k / maxParticlesPerCylinder = i)%nat) as [E|E].
      - rewrite !filter_cons_True by done. simpl. by rewrite IH.
      - by rewrite !filter_cons_False by done. }
    rewrite E, band_entries_bound. lia.
Qed.

End Reachable.

(** ** Concrete runs *)

Section Scenarios.

Variable random_source : nat -> Q.
Variable Math_sin : number -> number.

Lemma run_reachable (cfg : AudioSpectrumConfig) (es : list event)
    (st st' : AudioSpectrum) :
  reachable random_source Math_sin cfg st ->
  run random_source Math_sin es st = Normal st' ->
  reachable random_source Math_sin cfg st'.
Proof.
  revert st. induction es as [|e es IH]; intros st R E; simpl in E.
  - by injection E as <-.
  - destruct (handle random_source Math_sin e st) as [st1|] eqn:E1; [|done].
    eapply IH; [|exact E]. by eapply reachable_handle.
Qed.

End Scenarios.

Lemma stateAfter_reachable (cfg : AudioSpectrumConfig) (es : list event) :
  reachable evenRandom flatSine cfg (stateAfter cfg es).
Proof.
  unfold stateAfter.
  destruct (run evenRandom flatSine es (constructor cfg)) as [st|] eqn:E.
  - eapply run_reachable; [apply reachable_constructor | exact E].
  - apply reachable_constructor.
Qed.

Lemma feed_preserves (P : number -> Prop) (n : nat) (sample : list byte)
    (st : AudioSpectrum) :
  (forall i old, (i < n)%nat -> P old ->
     P (smooth old (normalizedBand sample n i))) ->
  bandCount (config st) = n /\ length (smoothedData st) = n /\
    Forall P (smoothedData st) ->
  bandCount (config (feed sample st)) = n /\
    length (smoothedData (feed sample st)) = n /\
    Forall P (smoothedData (feed sample st)).
Proof.
  intros Hstep (Hc & Hl & HP). unfold feed.
  set (st1 := with_frequencyData st (Some sample)).
  destruct (processFrequencyBands_frame st1) as (Hc' & _).
  destruct (processFrequencyBands_smoothed st1 sample) as [Hl' _];
    [done | simpl; congruence |].
  change (bandCount (config st1)) with (bandCount (config st)) in Hl'.
  split; [by rewrite Hc'|]. split; [congruence|].
  apply (processFrequencyBands_Forall P st1 sample); simpl; try done;
    [congruence|].
  by rewrite Hc.
Qed.

(** C2, as it holds: with [0 < n] bands and never more bands than bins,
    the visualizer keeps exactly [n] smoothed values, each in [0, 1]:
    from the all-zero state through any sequence of samples, and in every
    state the callbacks reach from the constructor, where the buffer has
    [frequencyBinCount] bins. *)
Theorem smoothed_values_in_unit_interval (cfg : AudioSpectrumConfig) :
  (0 < bandCount cfg)%nat ->
  (forall samples : list (list byte),
      Forall (fun sample => (bandCount cfg <= length sample)%nat) samples ->
      let st := fold_left (fun st sample => feed sample st) samples
                  (constructor cfg) in
      length (smoothedData st) = bandCount cfg /\
      Forall JS.unit_interval (smoothedData st)) /\
  (forall (random_source : nat -> Q) (Math_sin : number -> number)
          (st : AudioSpectrum),
      (bandCount cfg <= frequencyBinCount)%nat ->
      reachable random_source Math_sin cfg st ->
      length (smoothedData st) = bandCount cfg /\
      Forall JS.unit_interval (smoothedData st)).
Proof.
  intros Hn. split.
  - intros samples Hs st.
    assert (H : bandCount (config st) = bandCount cfg /\
                length (smoothedData st) = bandCount cfg /\
                Forall JS.unit_interval (smoothedData st)); [|tauto].
    subst st. pose proof (constructor_invariant cfg) as I.
    assert (H0 : bandCount (config (constructor cfg)) = bandCount cfg /\
                 length (smoothedData (constructor cfg)) = bandCount cfg /\
                 Forall JS.unit_interval (smoothedData (constructor cfg))).
    { split; [apply I|]. split; [apply I|].
      unfold constructor, createSpectrumBars. simpl.
      apply Forall_replicate. simpl. lra. }
    revert H0. generalize (constructor cfg).
    induction Hs as [|sample samples Hle _ IH]; intros st H0; [done|].
    simpl. apply IH. apply feed_preserves; [|done].
    intros i old Hi Ho. apply smooth_unit; [done|].
    by apply normalizedBand_unit.
  - intros random_source Math_sin st Hle R.
    apply reachable_invariant in R. split; [apply R|].
    by apply (inv_smoothed_unit _ _ R).
Qed.

Lemma smoothed_values_in_unit_interval_witness :
  Forall JS.unit_interval (smoothedData (feed loud (constructor sceneConfig))) /\
  Forall JS.unit_interval (smoothedData crowded).
Proof.
  assert (Hn : (0 < bandCount sceneConfig)%nat) by (simpl; lia).
  split.
  - refine (proj2 (proj1 (smoothed_values_in_unit_interval sceneConfig Hn)
                     [loud] _)).
    constructor; [vm_compute; lia | constructor].
  - refine (proj2 (proj2 (smoothed_values_in_unit_interval sceneConfig Hn)
                     evenRandom flatSine crowded _ _)).
    + vm_compute. lia.
    + apply stateAfter_reachable.
Defined.

(** C2 does not hold for every band count: 129 bands over the
    analyser's 128 bins leave no bin to a band, and the first frame sets
    every smoothed value to [NaN]. *)
Lemma smoothed_values_NaN_when_bands_exceed_bins :
  exists st : AudioSpectrum,
    (0 < bandCount wideConfig)%nat /\
    run evenRandom flatSine [AudioReady; AnimationFrame silence (1 # 60)]
      (constructor wideConfig) = Normal st /\
    length (smoothedData st) = bandCount wideConfig /\
    smoothedData st !! 0%nat = Some NaN /\
    ~ Forall JS.unit_interval (smoothedData st).
Proof.
  exists (stateAfter wideConfig [AudioReady; AnimationFrame silence (1 # 60)]).
  split; [simpl; lia|].
  split; [by vm_compute|].
  split; [by vm_compute|].
  assert (H : smoothedData
                (stateAfter wideConfig
                   [AudioReady; AnimationFrame silence (1 # 60)]) !! 0%nat
              = Some NaN) by (by vm_compute).
  split; [done|].
  intros HF. by apply (Forall_lookup_1 _ _ _ _ HF H).
Qed.

Section LifeCycle.

Variable random_source : nat -> Q.
Variable Math_sin : number -> number.

Lemma for_range_preserves {A : Type} (R : A -> Prop)
    (body : nat -> A -> completion A) (count start : nat) (s s' : A) :
  (forall i s s', R s -> body i s = Normal s' -> R s') ->
  R s -> for_range start count body s = Normal s' -> R s'.
Proof.
  intros Hbody. revert start s. induction count as [|c IH]; intros start s Hs E.
  - simpl in E. by injection E as <-.
  - simpl in E. destruct (body start s) as [s1|] eqn:E1; [|done].
    eapply IH; [|exact E]. by eapply Hbody.
Qed.

Lemma updateBarAt_pool
    (f : nat -> Mesh.t -> PointLight.t -> Mesh.t * PointLight.t)
    (i : nat) (s s' : AudioSpectrum) :
  updateBarAt f i s = Normal s' -> particlePool s' = particlePool s.
Proof.
  unfold updateBarAt.
  destruct (spectrumBars s !! i) as [bar|]; [|done].
  destruct (spectrumLights s !! i) as [light|]; [|done].
  destruct (f i bar light). by intros [= <-].
Qed.

Lemma updateSpectrumBars_pool (st st' : AudioSpectrum) :
  updateSpectrumBars st = Normal st' -> particlePool st' = particlePool st.
Proof.
  unfold updateSpectrumBars.
  apply (for_range_preserves (fun s => particlePool s = particlePool st));
    [|done].
  intros i s s' Hs E. rewrite <- Hs. by eapply updateBarAt_pool.
Qed.

Lemma emission_only_refl (pool : list ParticleData) : emission_only pool pool.
Proof. intros k p' H. by left. Qed.

Lemma emission_only_trans (a b c : list ParticleData) :
  emission_only a b -> emission_only b c -> emission_only a c.
Proof.
  intros Hab Hbc k p' H. destruct (Hbc k p' H) as [H'|H']; [|by right].
  by apply Hab.
Qed.

Lemma launch_launched (st : AudioSpectrum) (bar : Mesh.t) (p : ParticleData) :
  launched (launch random_source st bar p).
Proof. done. Qed.

Lemma emitParticle_emission_only (n c : nat) (x : number)
    (st st' : AudioSpectrum) :
  invariant n st ->
  emitParticle random_source c x st = Normal st' ->
  emission_only (particlePool st) (particlePool st').
Proof.
  intros I E. pose proof (emitParticle_spec random_source n c x st I) as H.
  destruct (getInactiveParticle c (particlePool st)) as [[k p]|].
  - destruct H as (bar & _ & H). rewrite H in E. injection E as <-. simpl.
    intros k' p' Hk'. destruct (decide (k' = k)) as [->|Hne].
    + right. apply list_lookup_insert_Some in Hk' as [(_ & <- & _)|[? _]];
        [apply launch_launched | done].
    + left. by rewrite list_lookup_insert_ne in Hk'.
  - rewrite H in E. injection E as <-. apply emission_only_refl.
Qed.

Lemma emissionStep_emission_only (n : nat) (deltaTime : number) (i : nat)
    (s s' : AudioSpectrum) :
  invariant n s -> (i < n)%nat ->
  emissionStep random_source deltaTime i s = Normal s' ->
  emission_only (particlePool s) (particlePool s').
Proof.
  intros I Hi E.
  destruct (emissionStep_shape random_source n deltaTime i s I Hi)
    as (pool & calls0 & calls & pend & E' & Hp & _).
  rewrite E in E'. injection E' as ->. simpl.
  destruct (JS.le _ (lit 0)).
  - eapply (emitParticle_emission_only n) in Hp; [exact Hp|].
    apply invariant_timers; [done|]. by rewrite length_insert, (inv_timers _ _ I).
  - injection Hp as Hp. rewrite <- Hp. apply emission_only_refl.
Qed.

Lemma updateParticleEmission_emission_only (n : nat) (deltaTime : number)
    (st st' : AudioSpectrum) :
  invariant n st ->
  updateParticleEmission random_source deltaTime st = Normal st' ->
  emission_only (particlePool st) (particlePool st').
Proof.
  intros I E. unfold updateParticleEmission in E.
  rewrite (inv_bandCount _ _ I) in E.
  destruct (for_range_indexed
              (fun _ s => invariant n s /\
                          emission_only (particlePool st) (particlePool s))
              (emissionStep random_source deltaTime) n 0 st)
    as (st'' & E' & _ & H).
  - intros i s Hi [Is Hs].
    destruct (emissionStep_invariant random_source n deltaTime i s Is)
      as (s1 & E1 & I1); [lia|].
    exists s1. split; [done|]. split; [done|].
    eapply emission_only_trans; [exact Hs|].
    eapply emissionStep_emission_only; [done| |exact E1]. lia.
  - split; [done | apply emission_only_refl].
  - rewrite E in E'. by injection E' as <-.
Qed.

(** A frame: the particles are updated, then launched. *)
Lemma frame_emission_only (n : nat) (deltaTime : Q) (st st' : AudioSpectrum) :
  invariant n st ->
  updateParticleEmission random_source (Fin deltaTime)
    (updateParticles (Fin deltaTime) st) = Normal st' ->
  emission_only (map (updateParticle (Fin deltaTime)) (particlePool st))
    (particlePool st').
Proof.
  intros I E.
  apply (updateParticleEmission_emission_only n) in E; [done|].
  by apply updateParticles_invariant.
Qed.

(** What a callback can have done to the pool: updated every entry for
    some elapsed time, or not, and then launched some. *)
Lemma handle_pool (n : nat) (e : event) (st st' : AudioSpectrum) :
  invariant n st ->
  handle random_source Math_sin e st = Normal st' ->
  emission_only (particlePool st) (particlePool st') \/
  exists deltaTime : Q,
    emission_only (map (updateParticle (Fin deltaTime)) (particlePool st))
      (particlePool st').
Proof.
  intros I E. destruct e as [|sample dt|time dt|k]; simpl in E.
  - left. injection E as <-. apply emission_only_refl.
  - unfold animate in E.
    destruct (frequencyData st) as [buffer|] eqn:Hb.
    2: { left. injection E as <-. apply emission_only_refl. }
    set (st1 := with_frequencyData st _) in E.
    assert (I1 : invariant n st1).
    { apply invariant_frequencyData; [done|]. intros data [= <-].
      rewrite getByteFrequencyData_length. by apply (inv_buffer _ _ I). }
    pose proof (processFrequencyBands_invariant n st1 I1) as I2.
    destruct (updateSpectrumBars_ok n _ I2) as (bars & lights & E3 & I3).
    rewrite E3 in E. cbn [mbind completion_bind] in E.
    right. exists dt.
    apply (frame_emission_only n) in E; [|done].
    destruct (processFrequencyBands_frame st1) as (_ & _ & Hp & _).
    change (particlePool (with_bars (processFrequencyBands st1) bars lights))
      with (particlePool (processFrequencyBands st1)) in E.
    by rewrite Hp in E.
  - unfold animateFallback in E.
    edestruct (updateBarAt_loop) as (bars & lights & E1 & Hb & Hl);
      [| |rewrite E1 in E].
    + by rewrite (inv_lights _ _ I), (inv_bars _ _ I).
    + simpl. reflexivity.
    + cbn [mbind completion_bind] in E. right. exists dt.
      apply (frame_emission_only n) in E; [done|].
      rewrite (inv_bars _ _ I) in Hb, Hl. by apply invariant_bars.
  - left. unfold runTimeout in E.
    destruct (pending st !! k) as [t|].
    2: { injection E as <-. apply emission_only_refl. }
    apply (emitParticle_emission_only n) in E; [done|].
    by apply invariant_pending.
Qed.

End LifeCycle.

(** C4: an update with [dt > 0] takes [dt] off the life of an active
    particle and, when nothing is left, makes it inactive with its mesh
    disabled; an update leaves an inactive entry as it is, and so do band
    processing and the bar update; in every state the callbacks reach,
    an entry's mesh is enabled exactly when the entry is active and its
    life is finite; and an entry that a callback finds inactive and
    leaves active has just been launched by [emitParticle]. *)
Theorem particle_life_cycle (random_source : nat -> Q)
    (Math_sin : number -> number) :
  (forall (p : ParticleData) (l dt : Q),
      active p = true -> life p = Fin l -> (0 < dt)%Q ->
      let p' := updateParticle (Fin dt) p in
      life p' = Fin (l - dt) /\ (l - dt < l)%Q /\
      ((l - dt <= 0)%Q -> active p' = false /\ Mesh.enabled (mesh p') = false) /\
      ((0 < l - dt)%Q ->
         active p' = true /\ Mesh.enabled (mesh p') = Mesh.enabled (mesh p))) /\
  (forall (dt : number) (st : AudioSpectrum),
      particlePool (updateParticles dt st)
      = map (updateParticle dt) (particlePool st)) /\
  (forall (dt : number) (p : ParticleData),
      active p = false -> updateParticle dt p = p) /\
  (forall st : AudioSpectrum,
      particlePool (processFrequencyBands st) = particlePool st) /\
  (forall st st' : AudioSpectrum,
      updateSpectrumBars st = Normal st' -> particlePool st' = particlePool st) /\
  (forall (cfg : AudioSpectrumConfig) (st : AudioSpectrum) (p : ParticleData),
      reachable random_source Math_sin cfg st -> p ∈ particlePool st ->
      Mesh.enabled (mesh p) = active p /\ JS.finite (life p)) /\
  (forall (cfg : AudioSpectrumConfig) (st st' : AudioSpectrum) (e : event)
          (k : nat) (p p' : ParticleData),
      reachable random_source Math_sin cfg st ->
      handle random_source Math_sin e st = Normal st' ->
      particlePool st !! k = Some p -> particlePool st' !! k = Some p' ->
      active p = false -> active p' = true ->
      launched p').
Proof.
  split; [|split; [|split; [|split; [|split; [|split]]]]].
  - intros p l dt Ha Hl Hdt p'. subst p'. unfold updateParticle.
    rewrite Ha, Hl. simpl. fold (Qminus l dt).
    destruct (Qle_bool (l - dt) 0) eqn:E; simpl.
    + apply Qle_bool_iff in E. repeat split; try done; lra.
    + apply Qle_bool_false in E. repeat split; try done; lra.
  - done.
  - intros dt p Ha. unfold updateParticle. by rewrite Ha.
  - intros st. apply processFrequencyBands_frame.
  - apply updateSpectrumBars_pool.
  - intros cfg st p R Hp. apply reachable_invariant in R.
    pose proof (proj1 (Forall_forall _ _) (inv_particles _ _ R) p Hp)
      as (He & Hl & _).
    done.
  - intros cfg st st' e k p p' R E Hk Hk' Ha Ha'.
    apply reachable_invariant in R.
    destruct (handle_pool random_source Math_sin _ e st st' R E)
      as [Hp|[dt Hp]]; destruct (Hp k p' Hk') as [H|H]; try done.
    + rewrite Hk in H. injection H as <-. congruence.
    + rewrite list_lookup_fmap, Hk in H. simpl in H. injection H as <-.
      unfold updateParticle in Ha'. rewrite Ha in Ha'. simpl in Ha'.
      congruence.
Qed.

Lemma particle_life_cycle_witness :
  (life (updateParticle (lit 1) oldest) = Fin (oldestLife - 1) /\
   active (updateParticle (lit 1) oldest) = false /\
   Mesh.enabled (mesh (updateParticle (lit 1) oldest)) = false) /\
  Mesh.enabled (mesh oldest) = active oldest.
Proof.
  pose proof (particle_life_cycle evenRandom flatSine)
    as (Hstep & _ & _ & _ & _ & Hinv & _).
  split.
  - destruct (Hstep oldest oldestLife 1%Q) as (Hl & _ & Hdead & _).
    + by vm_compute.
    + by vm_compute.
    + by vm_compute.
    + split; [exact Hl|]. apply Hdead. by vm_compute.
  - refine (proj1 (Hinv sceneConfig crowded oldest
                     (stateAfter_reachable _ _) _)).
    apply (list_elem_of_lookup_2 _ 0%nat). by vm_compute.
Defined.

(** C6: when every pool entry of the band is active, [emitParticle]
    finds no particle and returns normally with the state it was given:
    no particle, timer, bar, light or pending timeout changes and no
    random number is drawn. *)
Theorem emitParticle_exhausted_is_noop (random_source : nat -> Q)
    (cylinder : nat) (intensity : number) (st : AudioSpectrum) :
  (forall p : ParticleData,
      p ∈ particlePool st -> cylinderIndex p = cylinder -> active p = true) ->
  getInactiveParticle cylinder (particlePool st) = None /\
  emitParticle random_source cylinder intensity st = Normal st.
Proof.
  intros H. apply getInactiveParticle_None in H.
  split; [done|]. unfold emitParticle. by rewrite H.
Qed.

Lemma emitParticle_exhausted_is_noop_witness :
  emitParticle evenRandom 0 (lit 1) crowded = Normal crowded.
Proof.
  refine (proj2 (emitParticle_exhausted_is_noop evenRandom 0 (lit 1)
                   crowded _)).
  apply getInactiveParticle_None. by vm_compute.
Defined.

(** ** The emission timers *)

Section Timers.
#[local] Open Scope Q_scope.

Variable random_source : nat -> Q.

Lemma emissionRate_resetInterval (v : number) :
  band_value v -> emissionRate v =j= resetInterval v.
Proof.
  intros [-> | H]; [done|]. destruct v as [q| | |]; try done.
  simpl in H. unfold emissionRate, resetInterval. simpl.
  destruct (Qle_bool 0.05 (0.3 + - (q * 0.25))) eqn:E1; simpl.
  - destruct (Qle_bool 0.3 (0.3 + - (q * 0.25))) eqn:E2; simpl; [|lra].
    apply Qle_bool_iff in E2. lra.
  - reflexivity.
Qed.

Lemma emissionRate_monotone (a b : Q) :
  a <= b ->
  JS.le (emissionRate (Fin b)) (emissionRate (Fin a)) = true /\
  JS.le (lit 0.05) (emissionRate (Fin a)) = true.
Proof.
  intros Hab. unfold emissionRate. simpl.
  destruct (Qle_bool 0.05 (0.3 + - (a * 0.25))) eqn:Ea;
  destruct (Qle_bool 0.05 (0.3 + - (b * 0.25))) eqn:Eb; simpl;
  repeat match goal with
  | |- context [Qle_bool ?x ?y] =>
      let E := fresh "E" in destruct (Qle_bool x y) eqn:E; simpl
  end;
  repeat match goal with
  | H : Qle_bool _ _ = true |- _ => apply Qle_bool_iff in H
  | H : Qle_bool _ _ = false |- _ => apply Qle_bool_false in H
  end;
  split; try done; exfalso; lra.
Qed.

End Timers.

Section EmissionBands.

Variable random_source : nat -> Q.

Lemma identity_lookup (pool pool' : list ParticleData) (j : nat)
    (y : ParticleData) :
  map identity pool' = map identity pool -> pool' !! j = Some y ->
  exists q, pool !! j = Some q /\ identity q = identity y.
Proof.
  intros Hi Hy.
  assert (H : map identity pool !! j = Some (identity y)).
  { by rewrite <- Hi, list_lookup_fmap, Hy. }
  rewrite list_lookup_fmap in H.
  destruct (pool !! j) as [q|]; [|done]. simpl in H.
  exists q. split; [done|]. congruence.
Qed.

Lemma getInactiveParticle_untouched (c : nat) (pool pool' : list ParticleData) :
  map identity pool' = map identity pool ->
  band_untouched c pool pool' ->
  getInactiveParticle c pool' = getInactiveParticle c pool.
Proof.
  intros Hi Hu.
  assert (Hsame : forall j y, pool' !! j = Some y -> cylinderIndex y = c ->
            pool !! j = Some y).
  { intros j y Hy Hc. destruct (identity_lookup _ _ j y Hi Hy) as (q & Hq & E).
    assert (cylinderIndex q = c).
    { unfold identity in E. injection E as _ E. congruence. }
    pose proof (Hu j q Hq H) as Hq'. congruence. }
  unfold getInactiveParticle.
  destruct (list_find _ pool) as [[k p]|] eqn:E.
  - apply list_find_Some in E as (Hk & [Ha Hc] & Hmin).
    apply list_find_Some. split; [by apply Hu|]. split; [done|].
    intros j y Hy Hlt [Ha' Hc']. apply (Hmin j y); [by apply Hsame|done|done].
  - apply list_find_None in E. apply list_find_None, Forall_lookup.
    intros j y Hy [Ha' Hc'].
    apply (Forall_lookup_1 _ _ _ _ E (Hsame j y Hy Hc')). done.
Qed.

Lemma band_untouched_insert (i k : nat) (p v : ParticleData)
    (pool0 pool : list ParticleData) :
  pool0 !! k = Some p -> cylinderIndex p <> i ->
  band_untouched i pool0 pool -> band_untouched i pool0 (<[k := v]> pool).
Proof.
  intros Hk Hc Hu k' q Hq Hi.
  rewrite list_lookup_insert_ne; [by apply Hu|].
  intros ->. congruence.
Qed.

Lemma band_emitted_insert (i k : nat) (p v : ParticleData)
    (pool0 pool : list ParticleData) :
  pool0 !! k = Some p -> cylinderIndex p <> i ->
  band_emitted i pool0 pool -> band_emitted i pool0 (<[k := v]> pool).
Proof.
  intros Hk Hc. unfold band_emitted.
  destruct (getInactiveParticle i pool0) as [[k0 p0]|] eqn:E.
  - apply getInactiveParticle_Some in E as (Hk0 & _ & Hc0).
    assert (k0 <> k) by (intros ->; congruence).
    intros [(p' & Hp' & Hl) Ho]. split.
    + exists p'. by rewrite list_lookup_insert_ne.
    + intros k' q Hne Hq Hi. rewrite list_lookup_insert_ne; [by apply Ho|].
      intros ->. congruence.
  - by apply (band_untouched_insert i k p).
Qed.

Lemma emission_progress_start (deltaTime : number) (n : nat)
    (st : AudioSpectrum) :
  invariant n st -> emission_progress deltaTime n st 0 st.
Proof.
  intros I. split; [done|]. split; [done|]. split.
  - intros i Hi. rewrite decide_False by lia.
    destruct (lookup_lt_is_Some_2 (particleEmissionTimers st) i) as [t Ht].
    { by rewrite (inv_timers _ _ I). }
    by rewrite (get_lookup _ _ _ Ht).
  - intros i. rewrite decide_False by lia. by intros k q Hq _.
Qed.

Lemma emission_progress_step (deltaTime : number) (n j : nat)
    (st s s' : AudioSpectrum) :
  invariant n st -> (j < n)%nat ->
  emission_progress deltaTime n st j s ->
  emissionStep random_source deltaTime j s = Normal s' ->
  emission_progress deltaTime n st (S j) s'.
Proof.
  intros Ist Hj (Is & Hsm & Htm & Hpool) E.
  destruct (emissionStep_invariant random_source n deltaTime j s Is Hj)
    as (s'' & E'' & Is').
  rewrite E in E''. injection E'' as <-.
  destruct (emissionStep_shape random_source n deltaTime j s Is Hj)
    as (pool & calls0 & calls & pend & E' & Hp & _).
  rewrite E in E'. injection E' as ->.
  assert (Hget : JS.get (particleEmissionTimers s) j
                 = JS.get (particleEmissionTimers st) j).
  { apply get_lookup. rewrite (Htm j Hj). by rewrite decide_False by lia. }
  assert (Hafter : timerAfter deltaTime s j = timerAfter deltaTime st j).
  { unfold timerAfter. by rewrite Hget, Hsm. }
  split; [done|]. split; [done|]. split.
  - intros i Hi. simpl. destruct (decide (i = j)) as [->|Hne].
    + rewrite list_lookup_insert_eq by by rewrite (inv_timers _ _ Is).
      rewrite decide_True by lia. by rewrite Hafter.
    + rewrite list_lookup_insert_ne by done. rewrite (Htm i Hi).
      destruct (decide (i < j)%nat), (decide (i < S j)%nat); try done; lia.
  - simpl. rewrite Hget in Hp. fold (due deltaTime st j) in Hp.
    pose proof (Hpool j) as Hu. rewrite decide_False in Hu by lia.
    assert (Hrest : forall i, i <> j ->
      pool = particlePool s \/
      (exists k p v, particlePool st !! k = Some p /\ cylinderIndex p = j /\
                     pool = <[k := v]> (particlePool s)) ->
      if decide (i < S j)%nat
      then (if due deltaTime st i
            then band_emitted i (particlePool st) pool
            else band_untouched i (particlePool st) pool)
      else band_untouched i (particlePool st) pool).
    { intros i Hne Hcase. pose proof (Hpool i) as Hi.
      assert (Hi' :
        if decide (i < S j)%nat
        then (if due deltaTime st i
              then band_emitted i (particlePool st) (particlePool s)
              else band_untouched i (particlePool st) (particlePool s))
        else band_untouched i (particlePool st) (particlePool s)).
      { destruct (decide (i < j)%nat), (decide (i < S j)%nat); try done; lia. }
      destruct Hcase as [->|(k & p & v & Hk & Hc & ->)]; [done|].
      destruct (decide (i < S j)%nat); [destruct (due deltaTime st i)|].
      - apply (band_emitted_insert i k p); [done|congruence|done].
      - apply (band_untouched_insert i k p); [done|congruence|done].
      - apply (band_untouched_insert i k p); [done|congruence|done]. }
    destruct (due deltaTime st j) eqn:Hdue.
    + set (s1 := with_timers s _) in Hp.
      assert (I1 : invariant n s1).
      { apply invariant_timers; [done|].
        by rewrite length_insert, (inv_timers _ _ Is). }
      pose proof (emitParticle_spec random_source n j
                    (JS.get (smoothedData s) j) s1 I1) as Hspec.
      change (particlePool s1) with (particlePool s) in Hspec.
      rewrite (getInactiveParticle_untouched j (particlePool st)
                 (particlePool s)) in Hspec;
        [|by rewrite (inv_identity _ _ Is), (inv_identity _ _ Ist) | done].
      destruct (getInactiveParticle j (particlePool st)) as [[k p]|] eqn:Ef.
      * destruct Hspec as (bar & _ & Hemit). rewrite Hemit in Hp.
        injection Hp as Hp _. subst pool.
        pose proof Ef as Ef'.
        apply getInactiveParticle_Some in Ef' as (Hk & _ & Hc).
        intros i. destruct (decide (i = j)) as [->|Hne].
        -- rewrite decide_True by lia. rewrite Hdue.
           unfold band_emitted. rewrite Ef. split.
           ++ exists (launch random_source s1 bar p). split; [|done].
              apply list_lookup_insert_eq.
              eapply lookup_lt_Some. by apply Hu.
           ++ intros k' q Hne Hq Hcq.
              rewrite list_lookup_insert_ne by done. by apply Hu.
        -- apply Hrest; [done|]. right. by eexists k, p, _.
      * rewrite Hspec in Hp. injection Hp as Hp _. subst pool.
        intros i. destruct (decide (i = j)) as [->|Hne].
        -- rewrite decide_True by lia. rewrite Hdue.
           unfold band_emitted. by rewrite Ef.
        -- apply Hrest; [done|]. by left.
    + injection Hp as Hp _. subst pool.
      intros i. destruct (decide (i = j)) as [->|Hne].
      * rewrite decide_True by lia. by rewrite Hdue.
      * apply Hrest; [done|]. by left.
Qed.

Lemma updateParticleEmission_progress (deltaTime : number) (n : nat)
    (st st' : AudioSpectrum) :
  invariant n st ->
  updateParticleEmission random_source deltaTime st = Normal st' ->
  emission_progress deltaTime n st n st'.
Proof.
  intros I E. unfold updateParticleEmission in E.
  rewrite (inv_bandCount _ _ I) in E.
  destruct (for_range_indexed (emission_progress deltaTime n st)
              (emissionStep random_source deltaTime) n 0 st)
    as (st'' & E' & H).
  - intros i s Hi Hs.
    destruct (emissionStep_invariant random_source n deltaTime i s)
      as (s1 & E1 & _); [apply Hs | lia |].
    exists s1. split; [done|].
    apply (emission_progress_step deltaTime n i st s s1); [done|lia|done|done].
  - by apply emission_progress_start.
  - rewrite E in E'. by injection E' as <-.
Qed.

End EmissionBands.

(** C5, as it holds: in a state of a visualizer [updateParticleEmission]
    returns normally, and for every band whose decremented timer is at or
    below zero it has requested one emission (the band's first inactive
    pool entry, if there is one, is launched and the band's other entries
    are as before) and reset the timer to
    [max (0.05, 0.3 - intensity * 0.25)]; the reset value is
    non-increasing in the intensity and never below 0.05. *)
Theorem emission_resets_timer (random_source : nat -> Q) (n : nat)
    (deltaTime : number) (st : AudioSpectrum) :
  invariant n st ->
  exists st' : AudioSpectrum,
    updateParticleEmission random_source deltaTime st = Normal st' /\
    (forall i : nat, (i < n)%nat -> due deltaTime st i = true ->
       let intensity := JS.get (smoothedData st) i in
       particleEmissionTimers st' !! i = Some (emissionRate intensity) /\
       emissionRate intensity =j= resetInterval intensity /\
       band_emitted i (particlePool st) (particlePool st')) /\
    (forall a b : Q, (a <= b)%Q ->
       JS.le (emissionRate (Fin b)) (emissionRate (Fin a)) = true /\
       JS.le (lit 0.05) (emissionRate (Fin a)) = true).
Proof.
  intros I.
  destruct (updateParticleEmission_invariant random_source n deltaTime st I)
    as (st' & E & _).
  exists st'. split; [done|]. split; [|apply emissionRate_monotone].
  destruct (updateParticleEmission_progress random_source deltaTime n st st' I E)
    as (_ & _ & Htm & Hpool).
  intros i Hi Hdue intensity. split; [|split].
  - rewrite (Htm i Hi). rewrite decide_True by lia.
    unfold timerAfter. unfold due in Hdue. by rewrite Hdue.
  - apply emissionRate_resetInterval.
    destruct (lookup_lt_is_Some_2 (smoothedData st) i) as [v Hv].
    { by rewrite (inv_smoothed_length _ _ I). }
    unfold intensity. rewrite (get_lookup _ _ _ Hv).
    apply (Forall_lookup_1 _ _ _ _ (inv_smoothed _ _ I) Hv).
  - pose proof (Hpool i) as H. rewrite decide_True in H by lia.
    by rewrite Hdue in H.
Qed.

Lemma emission_resets_timer_witness :
  exists st' : AudioSpectrum,
    updateParticleEmission evenRandom (lit 0.25) started = Normal st' /\
    particleEmissionTimers st' !! 0%nat
    = Some (emissionRate (JS.get (smoothedData started) 0)) /\
    band_emitted 0 (particlePool started) (particlePool st').
Proof.
  destruct (emission_resets_timer evenRandom 8 (lit 0.25) started)
    as (st' & E & H & _).
  - exact (reachable_invariant evenRandom flatSine sceneConfig started
             (stateAfter_reachable _ _)).
  - exists st'. split; [exact E|].
    destruct (H 0%nat) as (Ht & _ & Hb).
    + lia.
    + vm_compute. reflexivity.
    + split; [exact Ht | exact Hb].
Defined.

(** C5 does not hold when a band is exhausted: in the frame after
    [crowded] the timer of band 0 is due, all ten entries of the band are
    active, and the emission step resets the timer without launching a
    particle. *)
Lemma no_particle_emitted_when_band_exhausted :
  reachable evenRandom flatSine sceneConfig crowded /\
  animate evenRandom loud (lit 0.25) crowded
  = updateParticleEmission evenRandom (lit 0.25) crowdedUpdated /\
  updateParticleEmission evenRandom (lit 0.25) crowdedUpdated
  = Normal crowdedEmitted /\
  due (lit 0.25) crowdedUpdated 0 = true /\
  activeCount 0 (particlePool crowdedUpdated) = maxParticlesPerCylinder /\
  particlePool crowdedEmitted = particlePool crowdedUpdated /\
  ~ (exists k p p',
       particlePool crowdedUpdated !! k = Some p /\
       particlePool crowdedEmitted !! k = Some p' /\
       cylinderIndex p = 0%nat /\ active p = false /\ active p' = true).
Proof.
  split; [exact (stateAfter_reachable _ _)|].
  split; [vm_compute; reflexivity|].
  split; [vm_compute; reflexivity|].
  split; [vm_compute; reflexivity|].
  split; [vm_compute; reflexivity|].
  assert (Hsame : particlePool crowdedEmitted = particlePool crowdedUpdated)
    by (vm_compute; reflexivity).
  split; [exact Hsame|].
  intros (k & p & p' & Hk & Hk' & Hc & Ha & Ha').
  assert (Hnone : getInactiveParticle 0 (particlePool crowdedUpdated) = None)
    by (vm_compute; reflexivity).
  pose proof (proj1 (getInactiveParticle_None _ _) Hnone) as Hall.
  assert (active p = true); [|congruence].
  refine (Hall p _ Hc).
  exact (list_elem_of_lookup_2 _ _ _ Hk).
Qed.

(** ** The tracking snapshot *)

Module VRFacts.
Import VR.

Arguments alloc : simpl never.

(** The next allocation of the goal. *)
Ltac next_alloc l h' E :=
  match goal with
  | |- context [alloc ?o ?h] => destruct (alloc o h) as [l h'] eqn:E
  end.

Section Store.

Lemma alloc_spec (o : object) (h h' : gmap loc object) (l : loc) :
  alloc o h = (l, h') -> h !! l = None /\ h' = <[l := o]> h.
Proof.
  unfold alloc. intros [= <- <-]. split; [|done].
  apply not_elem_of_dom. apply is_fresh.
Qed.

Lemma alloc_subseteq (o : object) (h h' : gmap loc object) (l : loc) :
  alloc o h = (l, h') -> h ⊆ h' /\ h' !! l = Some o.
Proof.
  intros H. apply alloc_spec in H as [Hn ->]. split.
  - by apply insert_subseteq.
  - apply lookup_insert_eq.
Qed.

Lemma readCoordinates_mono (h h' : gmap loc object) (l : loc) (v : Vector3.t) :
  h ⊆ h' -> readCoordinates h l = Some v -> readCoordinates h' l = Some v.
Proof.
  intros Hs. unfold readCoordinates.
  destruct (h !! l) as [o|] eqn:E; [|done].
  by rewrite (lookup_weaken _ _ _ _ E Hs).
Qed.

Lemma readController_mono (h h' : gmap loc object) (l : loc)
    (v : ControllerView) :
  h ⊆ h' -> readController h l = Some v -> readController h' l = Some v.
Proof.
  intros Hs. unfold readController.
  destruct (h !! l) as [o|] eqn:E; [|done].
  rewrite (lookup_weaken _ _ _ _ E Hs).
  destruct o as [|id p r c| |]; try done.
  destruct (readCoordinates h p) as [p'|] eqn:Ep; [|done].
  destruct (readCoordinates h r) as [r'|] eqn:Er; [|done].
  rewrite (readCoordinates_mono _ _ _ _ Hs Ep).
  by rewrite (readCoordinates_mono _ _ _ _ Hs Er).
Qed.

Lemma mapM_readController_mono (h h' : gmap loc object) (items : list loc)
    (v : list ControllerView) :
  h ⊆ h' -> mapM (readController h) items = Some v ->
  mapM (readController h') items = Some v.
Proof.
  intros Hs. revert v. induction items as [|i items IH]; intros v; [done|].
  simpl. destruct (readController h i) as [c|] eqn:Ec; [|done].
  rewrite (readController_mono _ _ _ _ Hs Ec). simpl.
  destruct (mapM (readController h) items) as [cs|] eqn:Em; [|done].
  by rewrite (IH cs eq_refl).
Qed.

Lemma readControllers_mono (h h' : gmap loc object) (l : loc)
    (v : list ControllerView) :
  h ⊆ h' -> readControllers h l = Some v -> readControllers h' l = Some v.
Proof.
  intros Hs. unfold readControllers.
  destruct (h !! l) as [o|] eqn:E; [|done].
  rewrite (lookup_weaken _ _ _ _ E Hs).
  destruct o as [| |items|]; try done.
  by apply mapM_readController_mono.
Qed.

Lemma readFields_mono (h h' : gmap loc object) (a s : bool) (cs hp hr : loc)
    (v : SessionView) :
  h ⊆ h' -> readFields h a s cs hp hr = Some v ->
  readFields h' a s cs hp hr = Some v.
Proof.
  intros Hs. unfold readFields.
  destruct (readControllers h cs) as [cs'|] eqn:Ec; [|done].
  destruct (readCoordinates h hp) as [hp'|] eqn:Ep; [|done].
  destruct (readCoordinates h hr) as [hr'|] eqn:Er; [|done].
  rewrite (readControllers_mono _ _ _ _ Hs Ec).
  rewrite (readCoordinates_mono _ _ _ _ Hs Ep).
  by rewrite (readCoordinates_mono _ _ _ _ Hs Er).
Qed.

Lemma snapshotView_mono (h h' : gmap loc object) (l : loc) (v : SessionView) :
  h ⊆ h' -> snapshotView h l = Some v -> snapshotView h' l = Some v.
Proof.
  intros Hs. unfold snapshotView.
  destruct (h !! l) as [o|] eqn:E; [|done].
  rewrite (lookup_weaken _ _ _ _ E Hs).
  destruct o; try done. by apply readFields_mono.
Qed.

Lemma mapControllers_subseteq (cs : list XRController) (index : nat)
    (h h' : gmap loc object) (ls : list loc) :
  mapControllers index cs h = (ls, h') -> h ⊆ h'.
Proof.
  revert index h h' ls. induction cs as [|c cs IH]; intros index h h' ls.
  - by intros [= _ <-].
  - cbn [mapControllers]. unfold mapController.
    next_alloc p h1 E1.
    next_alloc r h2 E2.
    next_alloc l h3 E3.
    destruct (mapControllers (S index) cs h3) as [ls' h4] eqn:E4.
    intros [= _ <-].
    apply alloc_subseteq in E1 as [H1 _]. apply alloc_subseteq in E2 as [H2 _].
    apply alloc_subseteq in E3 as [H3 _]. apply IH in E4.
    by do 3 (etrans; [eassumption|]).
Qed.

Lemma trackHead_subseteq (xr : XRReading) (m : VRSceneManager) :
  store m ⊆ store (trackHead xr m).
Proof.
  unfold trackHead. destruct (camera xr) as [cam|]; [|done].
  next_alloc hp h1 E1.
  next_alloc hr h2 E2.
  apply alloc_subseteq in E1 as [H1 _]. apply alloc_subseteq in E2 as [H2 _].
  destruct (inputControllers xr) as [cs|].
  - destruct (mapControllers 0 cs h2) as [ls h3] eqn:E3.
    next_alloc arr h4 E4. cbn [store].
    apply mapControllers_subseteq in E3. apply alloc_subseteq in E4 as [H4 _].
    by do 3 (etrans; [eassumption|]).
  - cbn [store]. by etrans.
Qed.

Lemma stopHeadTracking_subseteq (m : VRSceneManager) :
  store m ⊆ store (stopHeadTracking m).
Proof.
  unfold stopHeadTracking.
  next_alloc hp h1 E1.
  next_alloc hr h2 E2.
  next_alloc cs h3 E3. cbn [store].
  apply alloc_subseteq in E1 as [H1 _]. apply alloc_subseteq in E2 as [H2 _].
  apply alloc_subseteq in E3 as [H3 _].
  by do 2 (etrans; [eassumption|]).
Qed.

(** The class only ever adds objects to the store. *)
Lemma handle_subseteq (e : event) (m : VRSceneManager) :
  store m ⊆ store (handle e m).
Proof.
  destruct e as [ok|state id|xr|]; cbn [handle].
  - done.
  - destruct state; try done. apply (stopHeadTracking_subseteq
      (mkManager (store m) false (isSupported m) (controllers m)
         (headPosition m) (headRotation m) (headTrackingInterval m))).
  - destruct (headTrackingInterval m); [apply trackHead_subseteq | done].
  - unfold getVRSessionData. next_alloc s h E. cbn [snd store].
    by apply alloc_subseteq in E as [H _].
Qed.

Lemma run_subseteq (es : list event) (m : VRSceneManager) :
  store m ⊆ store (run es m).
Proof.
  revert m. induction es as [|e es IH]; intros m; [done|].
  simpl. etrans; [apply (handle_subseteq e)|]. apply IH.
Qed.

Lemma stopHeadTracking_view (m : VRSceneManager) :
  coreView (stopHeadTracking m) = Some (zeroed (isActive m) (isSupported m)) /\
  headTrackingInterval (stopHeadTracking m) = None.
Proof.
  unfold stopHeadTracking.
  next_alloc hp h1 E1.
  next_alloc hr h2 E2.
  next_alloc cs h3 E3.
  apply alloc_subseteq in E1 as [H1 L1]. apply alloc_subseteq in E2 as [H2 L2].
  apply alloc_subseteq in E3 as [H3 L3].
  split; [|done]. unfold coreView, readFields, readControllers.
  cbn [store controllers headPosition headRotation isActive isSupported].
  rewrite L3. simpl.
  assert (Hp : readCoordinates h3 hp = Some Vector3.Zero).
  { apply (readCoordinates_mono h1); [by etrans|].
    unfold readCoordinates. by rewrite L1. }
  assert (Hr : readCoordinates h3 hr = Some Vector3.Zero).
  { apply (readCoordinates_mono h2); [done|].
    unfold readCoordinates. by rewrite L2. }
  by rewrite Hp, Hr.
Qed.

End Store.

End VRFacts.

(** C7: [stopHeadTracking] leaves the head position and the head
    rotation at (0, 0, 0) and the controller list empty, whatever they
    were, and no interval running; so does the state observer when the
    session ends, which has set [isActive] to false as well, and this is
    what a snapshot taken next shows. *)
Theorem stopHeadTracking_zeroes_tracking_data (m : VR.VRSceneManager) :
  VR.coreView (VR.stopHeadTracking m)
  = Some (VR.zeroed (VR.isActive m) (VR.isSupported m)) /\
  VR.headTrackingInterval (VR.stopHeadTracking m) = None /\
  (forall id : positive,
     let m' := VR.onStateChanged VR.NOT_IN_XR id m in
     VR.coreView m' = Some (VR.zeroed false (VR.isSupported m)) /\
     let '(s, m'') := VR.getVRSessionData m' in
     VR.snapshotView (VR.store m'') s
     = Some (VR.zeroed false (VR.isSupported m))).
Proof.
  destruct (VRFacts.stopHeadTracking_view m) as [Hv Hi].
  split; [done|]. split; [done|]. intros id m'.
  destruct (VRFacts.stopHeadTracking_view
    (VR.mkManager (VR.store m) false (VR.isSupported m) (VR.controllers m)
       (VR.headPosition m) (VR.headRotation m) (VR.headTrackingInterval m)))
    as [Hv' _].
  split; [exact Hv'|].
  unfold VR.getVRSessionData.
  VRFacts.next_alloc s h E.
  apply VRFacts.alloc_subseteq in E as [Hs Hl].
  cbn [VR.store]. unfold VR.snapshotView. rewrite Hl.
  apply (VRFacts.readFields_mono (VR.store m')); [done | exact Hv'].
Qed.

(** The session ends after a poll has stored a head pose and a
    controller. *)
Example stopHeadTracking_after_poll :
  (exists v, VR.coreView VR.tracking = Some v /\
             VR.view_headPosition v
             = Vector3.make (B64.lit 1.23) (B64.lit 1.6) (B64.lit (-0.5)) /\
             length (VR.view_controllers v) = 1%nat) /\
  VR.coreView (VR.stopHeadTracking VR.tracking)
  = Some (VR.zeroed true true).
Proof.
  split; [|vm_compute; reflexivity].
  eexists. split; [vm_compute; reflexivity|].
  split; vm_compute; reflexivity.
Qed.

Module VRShare.
Import VR VRFacts.

(** A write of coordinates over coordinates leaves every reference
    resolving, and is seen wherever the written object is read. *)
Section Write.

Variables (h : gmap loc object) (l : loc) (v0 w : Vector3.t).
Hypothesis Hl : h !! l = Some (Coordinates v0).

Lemma write_readCoordinates (l' : loc) (v : Vector3.t) :
  readCoordinates h l' = Some v ->
  readCoordinates (<[l := Coordinates w]> h) l'
  = Some (if decide (l' = l) then w else v).
Proof using Hl.
  unfold readCoordinates. destruct (decide (l' = l)) as [->|Hne].
  - intros _. by rewrite lookup_insert_eq.
  - by rewrite lookup_insert_ne.
Qed.

Lemma write_readController (c : loc) (cv : ControllerView) :
  readController h c = Some cv ->
  is_Some (readController (<[l := Coordinates w]> h) c).
Proof using Hl.
  unfold readController. destruct (h !! c) as [o|] eqn:E; [|done].
  destruct o as [|id p r conn| |]; try done.
  assert (Hne : c <> l) by (intros ->; rewrite Hl in E; done).
  rewrite lookup_insert_ne by done. rewrite E.
  destruct (readCoordinates h p) as [p'|] eqn:Ep; [|done].
  destruct (readCoordinates h r) as [r'|] eqn:Er; [|done].
  rewrite (write_readCoordinates _ _ Ep), (write_readCoordinates _ _ Er).
  by eexists.
Qed.

Lemma write_readControllers (cs : loc) (v : list ControllerView) :
  readControllers h cs = Some v ->
  is_Some (readControllers (<[l := Coordinates w]> h) cs).
Proof using Hl.
  unfold readControllers. destruct (h !! cs) as [o|] eqn:E; [|done].
  destruct o as [| |items|]; try done.
  assert (Hne : cs <> l) by (intros ->; rewrite Hl in E; done).
  rewrite lookup_insert_ne by done. rewrite E. clear E.
  revert v. induction items as [|i items IH]; intros v; [by eexists|].
  simpl. destruct (readController h i) as [c|] eqn:Ec; [|done].
  destruct (write_readController _ _ Ec) as [c' ->]. simpl.
  destruct (mapM (readController h) items) as [cs'|] eqn:Em; [|done].
  destruct (IH cs' eq_refl) as [cs'' ->]. by eexists.
Qed.

Lemma write_readFields (a s : bool) (cs hr : loc) (v : SessionView) :
  readFields h a s cs l hr = Some v ->
  exists v', readFields (<[l := Coordinates w]> h) a s cs l hr = Some v' /\
             view_headPosition v' = w.
Proof using Hl.
  unfold readFields.
  destruct (readControllers h cs) as [cs'|] eqn:Ec; [|done].
  destruct (readCoordinates h l) as [hp'|] eqn:Ep; [|done].
  destruct (readCoordinates h hr) as [hr'|] eqn:Er; [|done].
  intros _. destruct (write_readControllers _ _ Ec) as [cs'' ->].
  rewrite (write_readCoordinates _ _ Ep), (write_readCoordinates _ _ Er).
  destruct (decide (l = l)); [|done]. simpl.
  eexists. split; [reflexivity | done].
Qed.

End Write.

Lemma readFields_head (h : gmap loc object) (a s : bool) (cs hp hr : loc)
    (v : SessionView) :
  readFields h a s cs hp hr = Some v ->
  exists v0, h !! hp = Some (Coordinates v0).
Proof.
  unfold readFields, readCoordinates.
  destruct (readControllers h cs) as [cs'|]; [|done].
  destruct (h !! hp) as [o|]; [|done]. destruct o; try done. by eexists.
Qed.

(** A write into an object of the store does not reach a manager whose
    session data was reset after the object was created. *)
Lemma stopHeadTracking_unreached (m : VRSceneManager) (l : loc) (o : object) :
  is_Some (store m !! l) ->
  let m' := stopHeadTracking m in
  coreView (mkManager (<[l := o]> (store m')) (isActive m') (isSupported m')
              (controllers m') (headPosition m') (headRotation m')
              (headTrackingInterval m'))
  = coreView m'.
Proof.
  intros [o0 Hl]. unfold stopHeadTracking.
  next_alloc hp h1 E1.
  next_alloc hr h2 E2.
  next_alloc cs h3 E3.
  pose proof (alloc_spec _ _ _ _ E1) as [N1 ->].
  pose proof (alloc_spec _ _ _ _ E2) as [N2 ->].
  pose proof (alloc_spec _ _ _ _ E3) as [N3 ->].
  assert (Hhp : l <> hp) by (intros <-; rewrite Hl in N1; done).
  assert (Hhr : l <> hr).
  { intros <-. rewrite lookup_insert_ne in N2 by done. rewrite Hl in N2. done. }
  assert (Hcs : l <> cs).
  { intros <-. rewrite !lookup_insert_ne in N3 by done. rewrite Hl in N3. done. }
  cbv zeta. unfold coreView, readFields, readControllers, readCoordinates.
  cbn [store isActive isSupported controllers headPosition headRotation].
  rewrite !(lookup_insert_ne _ l) by done. by rewrite lookup_insert_eq.
Qed.

End VRShare.

(** C8, as it holds: [getVRSessionData] returns a new object that shows
    the manager's session data; nothing the class does afterwards changes
    what that object shows, and assigning its own fields does not change
    the manager's session data.  The copy is one level deep: the new
    object holds the manager's own three references, so that a write to
    the head position object through the snapshot is a write to the
    manager's session data, seen by both, until the class replaces its
    objects, as it does when the session ends. *)
Theorem getVRSessionData_returns_shallow_copy (m : VR.VRSceneManager)
    (v : VR.SessionView) :
  VR.coreView m = Some v ->
  let '(s, m1) := VR.getVRSessionData m in
  VR.store m !! s = None /\
  VR.snapshotView (VR.store m1) s = Some v /\
  VR.coreView m1 = Some v /\
  (forall es : list VR.event,
     VR.snapshotView (VR.store (VR.run es m1)) s = Some v) /\
  (forall (a b : bool) (cs hp hr : VR.loc),
     VR.coreView (VR.assignSnapshot s a b cs hp hr m1) = Some v) /\
  VR.store m1 !! s
  = Some (VR.SessionData (VR.isActive m1) (VR.isSupported m1)
            (VR.controllers m1) (VR.headPosition m1) (VR.headRotation m1)) /\
  (forall w : Vector3.t, exists v' : VR.SessionView,
     let m2 := VR.writeHeadPosition s w m1 in
     VR.coreView m2 = Some v' /\ VR.view_headPosition v' = w /\
     VR.snapshotView (VR.store m2) s = Some v') /\
  (forall (id : positive) (w : Vector3.t),
     let m2 := VR.onStateChanged VR.NOT_IN_XR id m1 in
     VR.coreView (VR.writeHeadPosition s w m2) = VR.coreView m2 /\
     VR.coreView m2 = Some (VR.zeroed false (VR.isSupported m))).
Proof.
  intros Hv. unfold VR.getVRSessionData.
  VRFacts.next_alloc s h E.
  pose proof (VRFacts.alloc_spec _ _ _ _ E) as [Hnew ->].
  apply VRFacts.alloc_subseteq in E as [Hs Hl].
  set (o := VR.SessionData (VR.isActive m) (VR.isSupported m)
              (VR.controllers m) (VR.headPosition m) (VR.headRotation m)) in *.
  assert (Hcore : VR.readFields (<[s := o]> (VR.store m)) (VR.isActive m)
            (VR.isSupported m) (VR.controllers m) (VR.headPosition m)
            (VR.headRotation m) = Some v).
  { by apply (VRFacts.readFields_mono (VR.store m)). }
  assert (Hsnap : VR.snapshotView (<[s := o]> (VR.store m)) s = Some v).
  { unfold VR.snapshotView. rewrite Hl. exact Hcore. }
  split; [done|]. split; [exact Hsnap|]. split; [exact Hcore|].
  split; [|split; [|split; [|split]]].
  - intros es. eapply VRFacts.snapshotView_mono; [|exact Hsnap].
    apply (VRFacts.run_subseteq es
             (VR.mkManager _ (VR.isActive m) (VR.isSupported m)
                (VR.controllers m) (VR.headPosition m) (VR.headRotation m)
                (VR.headTrackingInterval m))).
  - intros a b cs hp hr. unfold VR.coreView, VR.assignSnapshot.
    cbn [VR.store VR.isActive VR.isSupported VR.controllers VR.headPosition
           VR.headRotation].
    apply (VRFacts.readFields_mono (VR.store m)); [|exact Hv].
    rewrite insert_insert_eq. by apply insert_subseteq.
  - exact Hl.
  - intros w.
    destruct (VRShare.readFields_head _ _ _ _ _ _ _ Hcore) as [v0 Hhp].
    destruct (VRShare.write_readFields _ _ v0 w Hhp _ _ _ _ _ Hcore)
      as (v' & Hv' & Hw).
    exists v'. unfold VR.writeHeadPosition. cbn [VR.store]. rewrite Hl.
    subst o. cbv beta iota.
    cbn [VR.store VR.isActive VR.isSupported VR.controllers
           VR.headPosition VR.headRotation].
    split; [exact Hv'|]. split; [exact Hw|].
    unfold VR.snapshotView.
    assert (Hne : s <> VR.headPosition m).
    { intros ->. unfold VR.coreView in Hv.
      destruct (VRShare.readFields_head _ _ _ _ _ _ _ Hv) as [v1 H1].
      rewrite H1 in Hnew. done. }
    rewrite lookup_insert_ne by done. rewrite Hl. exact Hv'.
  - intros id w. unfold VR.onStateChanged. cbv beta iota zeta.
    cbn [VR.store VR.isActive VR.isSupported VR.controllers VR.headPosition
           VR.headRotation VR.headTrackingInterval].
    set (m1 := VR.mkManager (<[s := o]> (VR.store m)) false (VR.isSupported m)
                 (VR.controllers m) (VR.headPosition m) (VR.headRotation m)
                 (VR.headTrackingInterval m)).
    destruct (VRFacts.stopHeadTracking_view m1) as [Hz _].
    split; [|exact Hz].
    unfold VR.writeHeadPosition.
    pose proof (VRFacts.stopHeadTracking_subseteq m1) as Hsub.
    rewrite (lookup_weaken _ _ _ _ Hl Hsub). subst o. cbv beta iota.
    apply (VRShare.stopHeadTracking_unreached m1).
    destruct (VRShare.readFields_head _ _ _ _ _ _ _ Hcore) as [v0 Hhp].
    by eexists.
Qed.

Lemma getVRSessionData_returns_shallow_copy_witness :
  let '(s, m1) := VR.getVRSessionData VR.tracking in
  VR.snapshotView
    (VR.store (VR.run [VR.StateChanged VR.NOT_IN_XR 1%positive] m1)) s
  = Some VR.tracked.
Proof.
  assert (H : VR.coreView VR.tracking = Some VR.tracked)
    by (vm_compute; reflexivity).
  generalize (getVRSessionData_returns_shallow_copy VR.tracking
                VR.tracked H).
  destruct (VR.getVRSessionData VR.tracking) as [s m1].
  intros (_ & _ & _ & Hrun & _).
  exact (Hrun [VR.StateChanged VR.NOT_IN_XR 1%positive]).
Defined.

(** C8 does not hold for the nested objects: the snapshot refers to the
    manager's own head position object, and a write to it through the
    snapshot is a write to the manager's session data. *)
Lemma snapshot_write_reaches_session_data :
  let '(s, m1) := VR.getVRSessionData VR.constructor in
  let m2 := VR.writeHeadPosition s (Vector3.make (lit 5) (lit 0) (lit 0)) m1 in
  VR.coreView m1 = Some (VR.zeroed false false) /\
  VR.coreView m2
  = Some (VR.mkSessionView false false []
            (Vector3.make (lit 5) (lit 0) (lit 0)) Vector3.Zero) /\
  VR.coreView m2 <> VR.coreView m1.
Proof.
  vm_compute. split; [reflexivity|]. split; [reflexivity|]. discriminate.
Qed.

(** * Further properties *)

Section Layout.
#[local] Open Scope Q_scope.

Lemma createSpectrumBar_position (n i : nat) :
  exists x : Q,
    Mesh.position (fst (createSpectrumBar n i))
    = Vector3.make (Fin x) (lit 0.25) (lit 8) /\
    x == barX n i.
Proof.
  unfold createSpectrumBar, barX, JS.of_nat. simpl.
  eexists. split; [reflexivity|]. qlit. ring.
Qed.

End Layout.

(** X1: [createSpectrumBars] lays the bars out on a line at height 0.25
    and depth 8, 1.5 apart and centred on the origin, each with its light
    at the same place: bar [i] of [n] is at [1.5 i - 0.75 (n - 1)], so bars
    [i] and [n - 1 - i] mirror each other. *)
Theorem createSpectrumBars_layout (cfg : AudioSpectrumConfig) (i : nat)
    (bar : Mesh.t) (light : PointLight.t) :
  spectrumBars (constructor cfg) !! i = Some bar ->
  spectrumLights (constructor cfg) !! i = Some light ->
  (i < bandCount cfg)%nat /\
  Mesh.name bar = i /\
  PointLight.position light = Mesh.position bar /\
  exists x : Q,
    Mesh.position bar = Vector3.make (Fin x) (lit 0.25) (lit 8) /\
    (x == barX (bandCount cfg) i)%Q /\
    (barX (bandCount cfg) i + barX (bandCount cfg) (bandCount cfg - 1 - i)
     == 0)%Q /\
    (barX (bandCount cfg) (S i) - barX (bandCount cfg) i == 1.5)%Q.
Proof.
  intros Hbar Hlight.
  rewrite constructor_bars in Hbar. rewrite constructor_lights in Hlight.
  apply lookup_map_seq0 in Hbar as [Hi ->].
  apply lookup_map_seq0 in Hlight as [_ ->].
  split; [done|]. split; [done|]. split; [done|].
  destruct (createSpectrumBar_position (bandCount cfg) i) as (x & Hx & Ex).
  exists x. split; [done|]. split; [done|]. unfold barX. split.
  - replace (Z.of_nat (bandCount cfg - 1 - i))
      with (Z.of_nat (bandCount cfg) + -1 + - Z.of_nat i)%Z by lia.
    rewrite !inject_Z_plus, inject_Z_opp. change (inject_Z (-1)) with (-1)%Q.
    ring.
  - rewrite Nat2Z.inj_succ, <- Z.add_1_r, inject_Z_plus.
    change (inject_Z 1) with 1%Q. ring.
Qed.

Lemma createSpectrumBars_layout_witness :
  exists x : Q,
    (x == barX 8 3)%Q /\ (barX 8 3 + barX 8 4 == 0)%Q.
Proof.
  destruct (createSpectrumBars_layout sceneConfig 3
              (fst (createSpectrumBar 8 3)) (snd (createSpectrumBar 8 3)))
    as (_ & _ & _ & x & _ & Hx & Hm & _).
  - reflexivity.
  - reflexivity.
  - exists x. split; [exact Hx | exact Hm].
Defined.

Section Palette.

Variable random_source : nat -> Q.
Variable Math_sin : number -> number.

Lemma insert_same_key {A K : Type} (key : A -> K) (l : list A) (i : nat)
    (a a' : A) :
  l !! i = Some a -> key a' = key a -> map key (<[i := a']> l) = map key l.
Proof.
  intros Hi Hk. rewrite list_fmap_insert, Hk.
  apply list_insert_id. by rewrite list_lookup_fmap, Hi.
Qed.

Lemma updateBarAt_palette
    (f : nat -> Mesh.t -> PointLight.t -> Mesh.t * PointLight.t)
    (i : nat) (s s' : AudioSpectrum) :
  (forall i bar light,
     barKey (f i bar light).1 = barKey bar /\
     PointLight.diffuse (f i bar light).2 = PointLight.diffuse light) ->
  updateBarAt f i s = Normal s' -> palette s' = palette s.
Proof.
  intros Hf. unfold updateBarAt.
  destruct (spectrumBars s !! i) as [bar|] eqn:Eb; [|done].
  destruct (spectrumLights s !! i) as [light|] eqn:El; [|done].
  destruct (Hf i bar light) as [Hb Hl].
  destruct (f i bar light) as [bar' light']. intros [= <-].
  unfold palette. simpl.
  by rewrite (insert_same_key barKey _ _ bar),
             (insert_same_key PointLight.diffuse _ _ light).
Qed.

Lemma bar_loop_palette
    (f : nat -> Mesh.t -> PointLight.t -> Mesh.t * PointLight.t)
    (count : nat) (st st' : AudioSpectrum) :
  (forall i bar light,
     barKey (f i bar light).1 = barKey bar /\
     PointLight.diffuse (f i bar light).2 = PointLight.diffuse light) ->
  for_range 0 count (updateBarAt f) st = Normal st' ->
  palette st' = palette st.
Proof.
  intros Hf.
  apply (for_range_preserves (fun s => palette s = palette st)); [|done].
  intros i s s' Hs E. rewrite <- Hs. by eapply updateBarAt_palette.
Qed.

Lemma updateParticle_key (deltaTime : number) (p : ParticleData) :
  particleKey (updateParticle deltaTime p) = particleKey p.
Proof.
  unfold updateParticle. destruct (negb (active p)); [done|].
  by destruct (JS.le _ _).
Qed.

Lemma updateParticles_palette (deltaTime : number) (st : AudioSpectrum) :
  palette (updateParticles deltaTime st) = palette st.
Proof.
  unfold palette. simpl. rewrite map_map. f_equal.
  apply map_ext. intros p. apply updateParticle_key.
Qed.

Lemma emitParticle_palette (c : nat) (x : number) (st st' : AudioSpectrum) :
  emitParticle random_source c x st = Normal st' -> palette st' = palette st.
Proof.
  unfold emitParticle.
  destruct (getInactiveParticle c (particlePool st)) as [[k p]|] eqn:E.
  2: { by intros [= <-]. }
  destruct (spectrumBars st !! c) as [bar|]; [|done]. intros [= <-].
  apply getInactiveParticle_Some in E as (Hk & _).
  unfold palette. simpl. by rewrite (insert_same_key particleKey _ _ p).
Qed.

Lemma emissionStep_palette (deltaTime : number) (i : nat)
    (s s' : AudioSpectrum) :
  emissionStep random_source deltaTime i s = Normal s' ->
  palette s' = palette s.
Proof.
  unfold emissionStep.
  set (s1 := with_timers s _).
  destruct (JS.le _ (lit 0)); [|by intros [= <-]].
  destruct (emitParticle random_source i _ s1) as [s2|] eqn:E; [|done].
  apply emitParticle_palette in E. cbn [mbind completion_bind].
  destruct (JS.gt _ _); [destruct (JS.lt _ _)|]; intros [= <-];
    unfold palette in *; simpl in *; exact E.
Qed.

Lemma updateParticleEmission_palette (deltaTime : number)
    (st st' : AudioSpectrum) :
  updateParticleEmission random_source deltaTime st = Normal st' ->
  palette st' = palette st.
Proof.
  unfold updateParticleEmission.
  apply (for_range_preserves (fun s => palette s = palette st)); [|done].
  intros i s s' Hs E. rewrite <- Hs. by eapply emissionStep_palette.
Qed.

Lemma processFrequencyBands_palette (st : AudioSpectrum) :
  palette (processFrequencyBands st) = palette st.
Proof.
  destruct (processFrequencyBands_frame st) as (_ & _ & Hp & _ & Hb & Hl & _).
  unfold palette. by rewrite Hp, Hb, Hl.
Qed.

Lemma updateSpectrumBar_key (maxH intensity : number) (bar : Mesh.t)
    (light : PointLight.t) :
  barKey (updateSpectrumBar maxH intensity bar light).1 = barKey bar /\
  PointLight.diffuse (updateSpectrumBar maxH intensity bar light).2
  = PointLight.diffuse light.
Proof. done. Qed.

Lemma fallbackBar_key (maxH wave : number) (bar : Mesh.t)
    (light : PointLight.t) :
  barKey (fallbackBar maxH wave bar light).1 = barKey bar /\
  PointLight.diffuse (fallbackBar maxH wave bar light).2
  = PointLight.diffuse light.
Proof. done. Qed.

Lemma handle_palette (e : event) (st st' : AudioSpectrum) :
  handle random_source Math_sin e st = Normal st' -> palette st' = palette st.
Proof.
  destruct e as [|sample dt|time dt|k]; simpl.
  - by intros [= <-].
  - unfold animate. destruct (frequencyData st) as [buffer|]; [|by intros [= <-]].
    set (st1 := with_frequencyData st _).
    destruct (updateSpectrumBars (processFrequencyBands st1)) as [st3|] eqn:E3;
      [|done].
    cbn [mbind completion_bind]. intros E.
    apply updateParticleEmission_palette in E.
    rewrite E, updateParticles_palette.
    unfold updateSpectrumBars in E3. apply bar_loop_palette in E3.
    + by rewrite E3, processFrequencyBands_palette.
    + intros. apply updateSpectrumBar_key.
  - unfold animateFallback.
    destruct (for_range 0 _ _ st) as [st1|] eqn:E1; [|done].
    cbn [mbind completion_bind]. intros E.
    apply updateParticleEmission_palette in E.
    rewrite E, updateParticles_palette.
    apply bar_loop_palette in E1; [done|]. intros. apply fallbackBar_key.
  - unfold runTimeout. destruct (pending st !! k) as [t|]; [|by intros [= <-]].
    intros E. by apply emitParticle_palette in E.
Qed.

End Palette.

(** X2: what construction fixes stays fixed.  In every state the
    callbacks reach, each bar keeps its name, its place on the line, and
    the base colour, roughness and metallic factor of its material; each
    light keeps its diffuse colour; each pool entry keeps its mesh, its
    band, the base colour of its material and its lifespan. *)
Theorem palette_is_fixed (random_source : nat -> Q)
    (Math_sin : number -> number) (cfg : AudioSpectrumConfig)
    (st : AudioSpectrum) :
  reachable random_source Math_sin cfg st ->
  palette st = palette (constructor cfg) /\
  (forall i bar light,
     spectrumBars st !! i = Some bar -> spectrumLights st !! i = Some light ->
     let baseColor := getCyberpunkColor (progress_of (bandCount cfg) i) in
     PBRMaterial.baseColor (Mesh.material bar)
     = Color3.scale baseColor (lit 0.4) /\
     PointLight.diffuse light = baseColor).
Proof.
  intros R.
  assert (H : palette st = palette (constructor cfg)).
  { induction R as [|st e st' _ IH E]; [done|].
    rewrite <- IH. by eapply handle_palette. }
  split; [done|]. intros i bar light Hb Hl baseColor.
  pose proof (f_equal (fun x => x.1.1) H) as Hbars.
  pose proof (f_equal (fun x => x.1.2) H) as Hlights.
  unfold palette in Hbars, Hlights. cbn [fst snd] in Hbars, Hlights.
  assert (Hb' : map barKey (spectrumBars (constructor cfg)) !! i
                = Some (barKey bar)).
  { by rewrite <- Hbars, list_lookup_fmap, Hb. }
  assert (Hl' : map PointLight.diffuse (spectrumLights (constructor cfg)) !! i
                = Some (PointLight.diffuse light)).
  { by rewrite <- Hlights, list_lookup_fmap, Hl. }
  rewrite constructor_bars, map_map in Hb'.
  rewrite constructor_lights, map_map in Hl'.
  apply lookup_map_seq0 in Hb' as [_ Hb'].
  apply lookup_map_seq0 in Hl' as [_ Hl'].
  split; [|exact Hl'].
  unfold barKey in Hb'. by injection Hb' as _ _ _ -> _ _.
Qed.

Lemma palette_is_fixed_witness :
  palette crowded = palette (constructor sceneConfig).
Proof.
  exact (proj1 (palette_is_fixed evenRandom flatSine sceneConfig crowded
                  (stateAfter_reachable _ _))).
Defined.

Section BarLoop.

(** A bar loop over the first [count] bars replaces bar [i] and light
    [i] by what [f] makes of them, and does nothing else. *)
Lemma bar_loop_exact
    (f : nat -> Mesh.t -> PointLight.t -> Mesh.t * PointLight.t)
    (st : AudioSpectrum) (count : nat) :
  length (spectrumLights st) = length (spectrumBars st) ->
  (count <= length (spectrumBars st))%nat ->
  exists bars lights,
    for_range 0 count (updateBarAt f) st = Normal (with_bars st bars lights) /\
    length bars = length (spectrumBars st) /\
    length lights = length (spectrumBars st) /\
    forall i bar light,
      spectrumBars st !! i = Some bar -> spectrumLights st !! i = Some light ->
      bars !! i = Some (if decide (i < count)%nat then (f i bar light).1
                        else bar) /\
      lights !! i = Some (if decide (i < count)%nat then (f i bar light).2
                          else light).
Proof.
  intros Hl Hc.
  destruct (for_range_indexed
    (fun j s => exists bars lights, s = with_bars st bars lights /\
       length bars = length (spectrumBars st) /\
       length lights = length (spectrumBars st) /\
       forall i bar light,
         spectrumBars st !! i = Some bar ->
         spectrumLights st !! i = Some light ->
         bars !! i = Some (if decide (i < j)%nat then (f i bar light).1
                           else bar) /\
         lights !! i = Some (if decide (i < j)%nat then (f i bar light).2
                             else light))
    (updateBarAt f) count 0 st) as (s' & E & bars & lights & -> & H).
  - intros j s Hj (bars & lights & -> & Hb1 & Hl1 & Hget).
    destruct (lookup_lt_is_Some_2 (spectrumBars st) j) as [bar Hbar]; [lia|].
    destruct (lookup_lt_is_Some_2 (spectrumLights st) j) as [light Hlight];
      [lia|].
    destruct (Hget j bar light Hbar Hlight) as [Hbj Hlj].
    rewrite decide_False in Hbj by lia. rewrite decide_False in Hlj by lia.
    unfold updateBarAt. cbn [spectrumBars spectrumLights with_bars].
    rewrite Hbj, Hlj.
    destruct (f j bar light) as [bar' light'] eqn:Ef.
    eexists. split; [done|].
    exists (<[j := bar']> bars), (<[j := light']> lights).
    split; [done|]. rewrite !length_insert. split; [done|]. split; [done|].
    intros i b l Hb Hli. destruct (decide (i = j)) as [->|Hne].
    + rewrite !list_lookup_insert_eq by lia.
      destruct (decide (j < S j)%nat); [|lia].
      assert (b = bar) by congruence. assert (l = light) by congruence.
      subst b l. by rewrite Ef.
    + rewrite !list_lookup_insert_ne by done.
      destruct (Hget i b l Hb Hli) as [-> ->].
      destruct (decide (i < j)%nat), (decide (i < S j)%nat); try done; lia.
  - exists (spectrumBars st), (spectrumLights st).
    split; [by destruct st|]. split; [done|]. split; [done|].
    intros i bar light Hb Hli. by destruct (decide (i < 0)%nat); [lia|].
  - exists bars, lights. split; [done|]. exact H.
Qed.

End BarLoop.

(** X3: with intensities in [0, 1] and a maximum height [h >= 0],
    [updateSpectrumBars] returns normally and gives bar [i] the vertical
    scale [0.5 + intensity * h], between 0.5 and [0.5 + h], centres it at
    half that height, puts its light at the top of it, and sets the
    light's intensity to [2 + 8 intensity], in [2, 10], and its range to
    [12 + 8 intensity], in [12, 20]. *)
Theorem updateSpectrumBars_ranges (random_source : nat -> Q)
    (Math_sin : number -> number) (cfg : AudioSpectrumConfig)
    (st : AudioSpectrum) (h : Q) :
  reachable random_source Math_sin cfg st ->
  (bandCount cfg <= frequencyBinCount)%nat ->
  maxHeight (config st) = Fin h -> (0 <= h)%Q ->
  exists st' : AudioSpectrum,
    updateSpectrumBars st = Normal st' /\
    smoothedData st' = smoothedData st /\
    forall i bar light,
      spectrumBars st' !! i = Some bar -> spectrumLights st' !! i = Some light ->
      exists q s y t li lr : Q,
        smoothedData st !! i = Some (Fin q) /\
        Vector3.y (Mesh.scaling bar) = Fin s /\
        Vector3.y (Mesh.position bar) = Fin y /\
        Vector3.y (PointLight.position light) = Fin t /\
        PointLight.intensity light = Fin li /\
        PointLight.range light = Fin lr /\
        (s == 0.5 + q * h /\ 0.5 <= s <= 0.5 + h /\ y == s / 2 /\ t == s /\
         li == 2 + 8 * q /\ 2 <= li <= 10 /\
         lr == 12 + 8 * q /\ 12 <= lr <= 20)%Q.
Proof.
  intros R Hn Hh Hh0. apply reachable_invariant in R.
  destruct (bar_loop_exact
              (fun i => updateSpectrumBar (maxHeight (config st))
                          (JS.get (smoothedData st) i))
              st (length (spectrumBars st)))
    as (bars & lights & E & Hlb & Hll & Hget).
  { by rewrite (inv_lights _ _ R), (inv_bars _ _ R). }
  { done. }
  exists (with_bars st bars lights). split; [exact E|]. split; [done|].
  intros i bar light Hb Hl. cbn [spectrumBars spectrumLights with_bars] in Hb, Hl.
  assert (Hi : (i < length (spectrumBars st))%nat).
  { rewrite <- Hlb. by eapply lookup_lt_Some. }
  destruct (lookup_lt_is_Some_2 (spectrumBars st) i) as [bar0 Hbar0]; [done|].
  destruct (lookup_lt_is_Some_2 (spectrumLights st) i) as [light0 Hlight0].
  { by rewrite (inv_lights _ _ R), <- (inv_bars _ _ R). }
  destruct (Hget i bar0 light0 Hbar0 Hlight0) as [Hb' Hl'].
  rewrite decide_True in Hb' by done. rewrite decide_True in Hl' by done.
  rewrite Hb in Hb'. rewrite Hl in Hl'. injection Hb' as ->. injection Hl' as ->.
  destruct (lookup_lt_is_Some_2 (smoothedData st) i) as [v Hv].
  { by rewrite (inv_smoothed_length _ _ R), <- (inv_bars _ _ R). }
  pose proof (Forall_lookup_1 _ _ _ _ (inv_smoothed_unit _ _ R Hn) Hv) as Hu.
  destruct v as [q| | |]; try done. simpl in Hu.
  rewrite (get_lookup _ _ _ Hv), Hh.
  exists q. unfold updateSpectrumBar. simpl.
  do 5 eexists. split; [exact Hv|]. do 5 (split; [reflexivity|]).
  qlit. repeat split; try lra; try nra; ring.
Qed.

Lemma updateSpectrumBars_ranges_witness :
  exists st' : AudioSpectrum,
    updateSpectrumBars crowded = Normal st' /\
    smoothedData st' = smoothedData crowded.
Proof.
  destruct (updateSpectrumBars_ranges evenRandom flatSine sceneConfig crowded 4)
    as (st' & E & Hs & _).
  - exact (stateAfter_reachable _ _).
  - vm_compute. lia.
  - vm_compute. reflexivity.
  - vm_compute. discriminate.
  - exists st'. split; [exact E | exact Hs].
Defined.

Section Life.
#[local] Open Scope Q_scope.

Variable random_source : nat -> Q.
Variable Math_sin : number -> number.

Lemma updateParticle_life_matches (deltaTime : Q) (p : ParticleData) :
  life_matches_active p -> life_matches_active (updateParticle (Fin deltaTime) p).
Proof.
  unfold life_matches_active, updateParticle.
  destruct (active p) eqn:Ha; simpl; [|by rewrite Ha].
  destruct (life p) as [l| | |]; try done. simpl. intros _.
  destruct (Qle_bool (l + - deltaTime) 0) eqn:E; simpl.
  - apply Qle_bool_iff in E. split; [done|]. intros. lra.
  - apply Qle_bool_false in E. done.
Qed.

Lemma reachable_life_matches (cfg : AudioSpectrumConfig) (st : AudioSpectrum) :
  reachable random_source Math_sin cfg st ->
  Forall life_matches_active (particlePool st).
Proof.
  induction 1 as [|st e st' R IH E].
  - unfold constructor, createSpectrumBars, initializeParticlePool. simpl.
    apply Forall_forall. intros p Hp.
    apply list_elem_of_fmap in Hp as (i & -> & _).
    unfold life_matches_active. simpl. split; [done|]. intros. lra.
  - pose proof (reachable_invariant _ _ _ _ R) as I.
    assert (I' : invariant (bandCount cfg) st').
    { destruct (handle_invariant random_source Math_sin _ e st I)
        as (st'' & E' & I'). rewrite E in E'. by injection E' as <-. }
    assert (Hlaunched : forall k p', particlePool st' !! k = Some p' ->
              launched p' -> life_matches_active p').
    { intros k p' Hk (Ha & _ & Hl).
      pose proof (Forall_lookup_1 _ _ _ _ (inv_particles _ _ I') Hk)
        as (_ & _ & Hm).
      unfold life_matches_active. rewrite Hl, Hm, Ha. split; [|done].
      intros _. lra. }
    apply Forall_lookup. intros k p' Hk.
    destruct (handle_pool random_source Math_sin _ e st st' I E)
      as [Hp|[dt Hp]]; destruct (Hp k p' Hk) as [H|H];
      try (by eapply Hlaunched).
    + by eapply Forall_lookup_1.
    + rewrite list_lookup_fmap in H.
      destruct (particlePool st !! k) as [p|] eqn:Ep; [|done].
      injection H as <-. apply updateParticle_life_matches.
      by eapply Forall_lookup_1.
Qed.

End Life.

(** X4: in every state the callbacks reach, the life of every pool entry
    is a finite number and the entry is active exactly when that number
    is positive. *)
Theorem active_iff_life_left (random_source : nat -> Q)
    (Math_sin : number -> number) (cfg : AudioSpectrumConfig)
    (st : AudioSpectrum) (p : ParticleData) :
  reachable random_source Math_sin cfg st -> p ∈ particlePool st ->
  exists l : Q, life p = Fin l /\ (active p = true <-> (0 < l)%Q).
Proof.
  intros R Hp.
  pose proof (proj1 (Forall_forall _ _)
                (reachable_life_matches random_source Math_sin cfg st R) p Hp)
    as H.
  unfold life_matches_active in H. destruct (life p) as [l| | |]; try done.
  by exists l.
Qed.

Lemma active_iff_life_left_witness :
  exists l : Q, life oldest = Fin l /\ (active oldest = true <-> (0 < l)%Q).
Proof.
  refine (active_iff_life_left evenRandom flatSine sceneConfig crowded oldest
            (stateAfter_reachable _ _) _).
  apply (list_elem_of_lookup_2 _ 0%nat). vm_compute. reflexivity.
Defined.

Section Life64.
Import B64 B64Facts.
#[local] Open Scope Q_scope.

Lemma age64_inactive (dts : list Q) (p : ParticleData) :
  active p = false -> age64 dts p = p.
Proof.
  revert p. induction dts as [|dt dts IH]; intros p Ha; [done|].
  unfold age64 in *. simpl. unfold updateParticle64 at 2. rewrite Ha. simpl.
  by apply IH.
Qed.

Lemma elapsed_nonneg (dts : list Q) :
  Forall (fun dt => 0 <= dt) dts -> 0 <= elapsed dts.
Proof.
  induction 1 as [|dt dts Hdt _ IH]; simpl; [lra|].
  change (0 <= dt + elapsed dts). lra.
Qed.

(** What an update makes of the life of an active particle. *)
Lemma updateParticle64_life (dt c : Q) (p : ParticleData) :
  active p = true -> life p = Fin c ->
  let life' := (Fin c - Fin dt)%b64 in
  (JS.le life' (Fin 0) = true ->
     active (updateParticle64 (Fin dt) p) = false /\
     Mesh.enabled (mesh (updateParticle64 (Fin dt) p)) = false) /\
  (JS.le life' (Fin 0) = false ->
     active (updateParticle64 (Fin dt) p) = true /\
     life (updateParticle64 (Fin dt) p) = life').
Proof.
  intros Ha Hl life'. unfold updateParticle64. rewrite Ha, Hl.
  cbv zeta. cbn [negb]. fold life'.
  split; intros E; rewrite E; by split.
Qed.

(** The rounded subtraction [life -= deltaTime] on a life [c] of at most
    [L]: the particle dies with no more than the slack left, or lives on
    with a life that is not more than before and within the slack of the
    exact difference. *)
Lemma life_step (L c dt : Q) :
  0 < c <= L -> L <= pow2 1023 -> format c -> 0 <= dt ->
  let life' := (Fin c - Fin dt)%b64 in
  (JS.le life' (Fin 0) = true /\ c - dt <= lifeSlack L) \/
  (JS.le life' (Fin 0) = false /\
   exists c1 : Q,
     life' = Fin c1 /\ 0 < c1 <= c /\ format c1 /\
     Qabs (c1 - (c - dt)) <= lifeSlack L).
Proof.
  intros Hc HL Fc Hdt life'. unfold life', B64.sub, JS.sub. cbn [JS.neg JS.add].
  fold (Qminus c dt). set (q := c - dt). set (r := rnd q).
  assert (Hr : r <= c).
  { rewrite <- (rnd_representable c Fc). apply rnd_monotone. unfold q. lra. }
  pose proof (rnd_error q) as He. fold r in He.
  pose proof (pow2_pos (-53)) as Hu. fold u in Hu.
  pose proof (pow2_pos (-1075)) as Heta. fold eta in Heta.
  assert (Hslack : 0 < q -> Qabs (r - q) <= lifeSlack L).
  { intros Hq. unfold lifeSlack. rewrite (Qabs_pos q) in He by lra.
    assert (u * q <= u * L) by (apply Qmult_le_l; [done | unfold q; lra]).
    lra. }
  assert (P : pow2 1023 < pow2 1024) by (apply pow2_lt; lia).
  assert (H0 : 0 <= lifeSlack L).
  { unfold lifeSlack. assert (0 <= u * L) by (apply Qmult_le_0_compat; lra).
    lra. }
  unfold nearest. cbv zeta. fold r.
  destruct (Qle_bool (pow2 1024) (Qabs r)) eqn:Ebig.
  - apply Qle_bool_iff in Ebig.
    assert (Hneg : r < 0).
    { revert Ebig. apply Qabs_case; intros; lra. }
    assert (E0 : Qle_bool 0 r = false) by (by apply Qle_bool_false).
    rewrite E0. left. split; [done|].
    destruct (Qlt_le_dec 0 q) as [Hq|Hq]; [|lra].
    pose proof (rnd_nonneg q (Qlt_le_weak _ _ Hq)). fold r in H. lra.
  - cbn [JS.le]. destruct (Qle_bool r 0) eqn:E.
    + apply Qle_bool_iff in E. left. split; [done|].
      destruct (Qlt_le_dec 0 q) as [Hq|Hq]; [|lra].
      specialize (Hslack Hq). revert Hslack. apply Qabs_case; intros; lra.
    + apply Qle_bool_false in E. right. split; [done|].
      exists r. split; [done|]. split; [lra|]. split; [apply rnd_format|].
      apply Hslack. by apply rnd_pos_inv.
Qed.

Lemma age64_bound (L : Q) (dts : list Q) :
  L <= pow2 1023 -> Forall (fun dt => 0 <= dt) dts ->
  forall (p : ParticleData) (c : Q),
    active p = true -> life p = Fin c -> 0 < c <= L -> format c ->
    let n := inject_Z (Z.of_nat (length dts)) in
    (elapsed dts + n * lifeSlack L < c ->
       active (age64 dts p) = true /\
       exists c' : Q,
         life (age64 dts p) = Fin c' /\ 0 < c' <= c /\
         Qabs (c' - (c - elapsed dts)) <= n * lifeSlack L) /\
    (c + n * lifeSlack L <= elapsed dts ->
       active (age64 dts p) = false /\
       Mesh.enabled (mesh (age64 dts p)) = false) /\
    (active (age64 dts p) = true ->
       exists c' : Q, life (age64 dts p) = Fin c' /\ 0 < c' <= c).
Proof.
  intros HL Hd. induction Hd as [|dt dts Hdt Hd IH]; intros p c Ha Hl Hc Fc.
  - cbv zeta. change (inject_Z (Z.of_nat (length []))) with 0.
    change (elapsed []) with 0. change (age64 [] p) with p.
    split; [|split].
    + intros _. split; [done|]. exists c. split; [done|]. split; [lra|].
      qabs; lra.
    + intros H. lra.
    + intros _. exists c. split; [done|]. lra.
  - cbv zeta.
    assert (En : inject_Z (Z.of_nat (length (dt :: dts)))
                 == inject_Z (Z.of_nat (length dts)) + 1).
    { cbn [length]. rewrite Nat2Z.inj_succ, <- Z.add_1_r, inject_Z_plus.
      reflexivity. }
    rewrite En. set (n := inject_Z (Z.of_nat (length dts))) in *.
    assert (Hn : 0 <= n).
    { unfold n. change 0 with (inject_Z 0). rewrite <- Zle_Qle. lia. }
    pose proof (elapsed_nonneg dts Hd) as He.
    change (elapsed (dt :: dts)) with (dt + elapsed dts).
    change (age64 (dt :: dts) p) with (age64 dts (updateParticle64 (Fin dt) p)).
    set (t := lifeSlack L) in *.
    assert (Ht : 0 <= t).
    { unfold t, lifeSlack. pose proof (pow2_pos (-53)). pose proof (pow2_pos (-1075)).
      assert (0 <= u * L) by (apply Qmult_le_0_compat; unfold u; lra).
      unfold eta. lra. }
    assert (Hnt : 0 <= n * t) by (by apply Qmult_le_0_compat).
    assert (Ent : (n + 1) * t == n * t + t) by ring.
    rewrite Ent.
    destruct (updateParticle64_life dt c p Ha Hl) as [Hdead Halive].
    destruct (life_step L c dt Hc HL Fc Hdt) as [[E Hrem]|[E (c1 & E1 & Hc1 & F1 & Herr)]].
    + destruct (Hdead E) as [Ha' Hm'].
      rewrite (age64_inactive dts _ Ha'). fold t in Hrem.
      split; [|split].
      * intros H. lra.
      * intros _. done.
      * intros H. congruence.
    + destruct (Halive E) as [Ha' Hl']. rewrite E1 in Hl'.
      assert (Hc1' : 0 < c1 <= L) by lra.
      destruct (IH _ c1 Ha' Hl' Hc1' F1) as (IH1 & IH2 & IH3).
      fold n in IH1, IH2. fold t in Herr.
      assert (Hlo : c - dt - t <= c1 /\ c1 <= c - dt + t).
      { revert Herr. apply Qabs_case; intros; lra. }
      split; [|split].
      * intros H. destruct IH1 as [Ha'' (c' & Hl'' & Hc'' & Hd'')]; [lra|].
        split; [done|]. exists c'. split; [done|]. split; [lra|].
        rewrite En, Ent. revert Hd''.
        apply Qabs_case; intros; apply Qabs_case; intros; lra.
      * intros H. apply IH2. lra.
      * intros H. destruct (IH3 H) as (c' & Hl'' & Hc''). exists c'.
        split; [done|]. lra.
Qed.

End Life64.

(** X5: the lifespan of a particle, on the engine's numbers.  Through
    any frames of non-negative duration, the life of an active particle
    never increases; the particle is still active while the time elapsed
    is below its life [l] by more than the slack of the roundings, one
    [2^-53 * l + 2^-1075] for each frame, with a life within that slack
    of [l] less the time elapsed; and it is inactive with its mesh
    disabled once the time elapsed exceeds [l] by the slack. *)
Theorem particle_lifespan (p : ParticleData) (l : Q) (deltaTimes : list Q) :
  active p = true -> life p = Fin l -> (0 < l <= 1000)%Q -> B64.format l ->
  Forall (fun dt => (0 <= dt)%Q) deltaTimes ->
  let slack :=
    (inject_Z (Z.of_nat (length deltaTimes)) * lifeSlack l)%Q in
  ((elapsed deltaTimes + slack < l)%Q ->
     active (age64 deltaTimes p) = true /\
     exists l', life (age64 deltaTimes p) = Fin l' /\ (0 < l' <= l)%Q /\
                (Qabs (l' - (l - elapsed deltaTimes)) <= slack)%Q) /\
  ((l + slack <= elapsed deltaTimes)%Q ->
     active (age64 deltaTimes p) = false /\
     Mesh.enabled (mesh (age64 deltaTimes p)) = false) /\
  (active (age64 deltaTimes p) = true ->
     exists l', life (age64 deltaTimes p) = Fin l' /\ (0 < l' <= l)%Q).
Proof.
  intros Ha Hl Hpos Fl Hd.
  apply (age64_bound l deltaTimes); try done.
  - pose proof B64Facts.pow2_30. lra.
  - lra.
Qed.

Lemma particle_lifespan_witness :
  active (age64 [0.25; 0.25]%Q newest) = true /\
  active (age64 (replicate 13 0.25%Q) newest) = false.
Proof.
  assert (Ha : active newest = true) by (vm_compute; reflexivity).
  assert (Hl : life newest = Fin 3.0) by (vm_compute; reflexivity).
  assert (Hp : (0 < 3.0 <= 1000)%Q) by (split; vm_compute; [reflexivity | discriminate]).
  assert (Fl : B64.format 3.0).
  { exists 3%Z, 0%Z. split; [lia|]. split; [by vm_compute|]. reflexivity. }
  split.
  - refine (proj1 (proj1 (particle_lifespan newest 3.0 [0.25; 0.25]%Q
                            Ha Hl Hp Fl _) _)).
    + repeat constructor; vm_compute; discriminate.
    + vm_compute. reflexivity.
  - refine (proj1 (proj1 (proj2 (particle_lifespan newest 3.0
                                   (replicate 13 0.25%Q) Ha Hl Hp Fl _)) _)).
    + repeat constructor; vm_compute; discriminate.
    + vm_compute. discriminate.
Defined.

(** Sixty frames of the double nearest to 0.05 add up to more than three
    seconds, by less than the slack: the particle is still active, with a
    life of about [2.29e-15], as in the engine. *)
Example sixty_frames_of_a_twentieth :
  (3 < elapsed sixtyFrames)%Q /\
  active (age64 sixtyFrames newest) = true /\
  life (age64 sixtyFrames newest) = B64.lit 2.2898349882893854e-15.
Proof. split; [|split]; vm_compute; reflexivity. Qed.

Section Launch64.
Import B64 B64Facts.
#[local] Open Scope Q_scope.

Lemma lit_05 : B64.lit 0.5 = Fin (1 # 2).
Proof. vm_compute. reflexivity. Qed.

Lemma lit_1 : B64.lit 1.0 = Fin 1.
Proof. vm_compute. reflexivity. Qed.

Lemma format_half : format (1 # 2).
Proof. apply (format_pow2 (-1)). lia. Qed.

(** [Math.random() - 0.5]. *)
Lemma centred64 (r : Q) :
  0 <= r < 1 ->
  (Fin r - B64.lit 0.5)%b64 = Fin (rnd (r - (1 # 2))) /\
  - (1 # 2) <= rnd (r - (1 # 2)) <= 1 # 2.
Proof.
  intros Hr. rewrite lit_05. unfold B64.sub, JS.sub. cbn [JS.neg JS.add].
  fold (Qminus r (1 # 2)).
  pose proof (rnd_monotone (- (1 # 2)) (r - (1 # 2))) as Hlo.
  pose proof (rnd_monotone (r - (1 # 2)) (1 # 2)) as Hhi.
  rewrite (rnd_representable _ (format_opp _ format_half)) in Hlo.
  rewrite (rnd_representable _ format_half) in Hhi.
  split; [|split; [apply Hlo | apply Hhi]; lra].
  apply nearest_small. qabs; lra.
Qed.

(** [(Math.random() - 0.5) * 0.3]. *)
Lemma offset64 (r : Q) :
  0 <= r < 1 ->
  exists o : Q,
    ((Fin r - B64.lit 0.5) * B64.lit 0.3)%b64 = Fin o /\ - 0.15 <= o <= 0.15.
Proof.
  intros Hr. destruct (centred64 r Hr) as [E Hd]. rewrite E.
  set (d := rnd (r - (1 # 2))) in *.
  assert (L3 : B64.lit 0.3 = Fin (5404319552844595 # 18014398509481984))
    by (vm_compute; reflexivity).
  rewrite L3. set (c3 := 5404319552844595 # 18014398509481984).
  set (h := 5404319552844595 # 36028797018963968).
  assert (V3 : c3 == 5404319552844595 # 18014398509481984) by reflexivity.
  assert (Vh : h == 5404319552844595 # 36028797018963968) by reflexivity.
  assert (Fh : rnd h == h) by (vm_compute; reflexivity).
  assert (Fh' : rnd (- h) == - h) by (vm_compute; reflexivity).
  assert (P : - h <= d * c3 <= h) by (rewrite V3, Vh; split; lra).
  pose proof (rnd_monotone _ _ (proj1 P)) as Hlo.
  pose proof (rnd_monotone _ _ (proj2 P)) as Hhi.
  rewrite Fh' in Hlo. rewrite Fh in Hhi.
  exists (rnd (d * c3)). split.
  - unfold B64.mul. cbn [JS.mul]. apply nearest_small.
    rewrite Vh in P. revert P. intros. qabs; lra.
  - rewrite Vh in *. split; lra.
Qed.

(** [(Math.random() - 0.5) * 0.5]. *)
Lemma drift64 (r : Q) :
  0 <= r < 1 ->
  exists v : Q,
    ((Fin r - B64.lit 0.5) * B64.lit 0.5)%b64 = Fin v /\ - 0.25 <= v <= 0.25.
Proof.
  intros Hr. destruct (centred64 r Hr) as [E Hd]. rewrite E.
  set (d := rnd (r - (1 # 2))) in *. rewrite lit_05.
  assert (Fq : rnd (1 # 4) == 1 # 4).
  { apply rnd_representable. apply (format_pow2 (-2)). lia. }
  assert (Fq' : rnd (- (1 # 4)) == - (1 # 4)).
  { apply rnd_representable, format_opp. apply (format_pow2 (-2)). lia. }
  assert (P : - (1 # 4) <= d * (1 # 2) <= 1 # 4) by (split; lra).
  pose proof (rnd_monotone _ _ (proj1 P)) as Hlo.
  pose proof (rnd_monotone _ _ (proj2 P)) as Hhi.
  rewrite Fq' in Hlo. rewrite Fq in Hhi.
  exists (rnd (d * (1 # 2))). split.
  - unfold B64.mul. cbn [JS.mul]. apply nearest_small. revert P. intros. qabs; lra.
  - split; lra.
Qed.

(** [1.0 + Math.random() * 0.5]. *)
Lemma speed64 (r : Q) :
  0 <= r < 1 ->
  exists v : Q,
    (B64.lit 1.0 + Fin r * B64.lit 0.5)%b64 = Fin v /\ 1 <= v <= 1.5.
Proof.
  intros Hr. rewrite lit_05, lit_1. unfold B64.mul. cbn [JS.mul].
  assert (F0 : rnd 0 == 0) by (by apply rnd_0).
  assert (F1 : rnd 1 == 1).
  { apply rnd_representable. apply (format_pow2 0). lia. }
  assert (Fh : rnd (1 # 2) == 1 # 2) by apply (rnd_representable _ format_half).
  assert (F15 : rnd (3 # 2) == 3 # 2) by (vm_compute; reflexivity).
  assert (P : 0 <= r * (1 # 2) <= 1 # 2) by (split; lra).
  pose proof (rnd_monotone _ _ (proj1 P)) as Hlo.
  pose proof (rnd_monotone _ _ (proj2 P)) as Hhi.
  rewrite F0 in Hlo. rewrite Fh in Hhi.
  rewrite nearest_small by (revert P; intros; qabs; lra).
  set (a := rnd (r * (1 # 2))) in *.
  unfold B64.add. cbn [JS.add].
  assert (P2 : 1 <= 1 + a <= 3 # 2) by (split; lra).
  pose proof (rnd_monotone _ _ (proj1 P2)) as Hlo2.
  pose proof (rnd_monotone _ _ (proj2 P2)) as Hhi2.
  rewrite F1 in Hlo2. rewrite F15 in Hhi2.
  exists (rnd (1 + a)). split.
  - apply nearest_small. revert P2. intros. qabs; lra.
  - split; lra.
Qed.

(** A coordinate of the bar plus an offset. *)
Lemma place64 (b o : Q) :
  Qabs b <= 1000 -> - 0.15 <= o <= 0.15 ->
  (Fin b + Fin o)%b64 = Fin (rnd (b + o)) /\
  rnd (b - 0.15) <= rnd (b + o) <= rnd (b + 0.15) /\
  Qabs (rnd (b + o) - b) <= 0.15 + (1 # 1000000000000).
Proof.
  intros Hb Ho. unfold B64.add. cbn [JS.add].
  assert (B : Qabs (b + o) <= 1001) by (revert Hb; intros; qabs; lra).
  destruct (rnd_close (b + o) 1001 (1 # 1000000000000) B) as [H1 _];
    [vm_compute; discriminate|].
  split; [apply nearest_medium; lra|].
  split; [split; apply rnd_monotone; lra|].
  revert H1. intros. qabs; lra.
Qed.

(** The top of the bar. *)
Lemma top64 (b s : Q) :
  Qabs b <= 1000 -> Qabs s <= 1000 ->
  exists t : Q,
    (Fin b + Fin s * B64.lit 0.5)%b64 = Fin t /\
    Qabs (t - (b + s * 0.5)) <= 1 # 1000000000000.
Proof.
  intros Hb Hs. rewrite lit_05. unfold B64.mul. cbn [JS.mul].
  assert (B1 : Qabs (s * (1 # 2)) <= 500) by (revert Hs; intros; qabs; lra).
  destruct (rnd_close (s * (1 # 2)) 500 (1 # 10000000000000) B1) as [H1 H1'];
    [vm_compute; discriminate|].
  rewrite nearest_medium by lra. set (a := rnd (s * (1 # 2))) in *.
  unfold B64.add. cbn [JS.add].
  assert (B2 : Qabs (b + a) <= 1501) by (revert Hb H1'; intros; qabs; lra).
  destruct (rnd_close (b + a) 1501 (1 # 2000000000000) B2) as [H2 _];
    [vm_compute; discriminate|].
  exists (rnd (b + a)). split; [apply nearest_medium; lra|].
  revert H1 H2. intros. qabs; lra.
Qed.

End Launch64.

(** X6: how a particle is launched, on the engine's numbers.  When the
    band has an inactive entry, [emitParticle] takes the first one, draws
    five random numbers and changes no other entry; the particle starts
    at the top of the bar, between the doubles nearest to 0.15 on either
    side of the bar's axis in x and in z, with scale 1, opacity 0.8, its
    whole lifespan, an upward speed in [1, 1.5], both ends included, and
    a drift of at most 0.25 in x and in z. *)
Theorem emitParticle_launches_from_bar_top (random_source : nat -> Q)
    (cylinder : nat) (intensity : number) (st : AudioSpectrum)
    (k : nat) (p : ParticleData) (bar : Mesh.t) (bx bY bz sy : Q) :
  unit_random random_source ->
  getInactiveParticle cylinder (particlePool st) = Some (k, p) ->
  spectrumBars st !! cylinder = Some bar ->
  Mesh.position bar = Vector3.make (Fin bx) (Fin bY) (Fin bz) ->
  Vector3.y (Mesh.scaling bar) = Fin sy ->
  (Qabs bx <= 1000 /\ Qabs bY <= 1000 /\ Qabs bz <= 1000 /\ Qabs sy <= 1000)%Q ->
  exists (st' : AudioSpectrum) (p' : ParticleData),
    emitParticle64 random_source cylinder intensity st = Normal st' /\
    particlePool st' !! k = Some p' /\
    (forall k', k' <> k -> particlePool st' !! k' = particlePool st !! k') /\
    random_calls st' = (random_calls st + 5)%nat /\
    active p' = true /\ Mesh.enabled (mesh p') = true /\
    life p' = maxLife p /\ cylinderIndex p' = cylinder /\
    Mesh.scaling (mesh p') = Vector3.setAll (lit 1) /\
    PBRMaterial.alpha (Mesh.material (mesh p')) = B64.lit 0.8 /\
    exists px py pz vx vy vz : Q,
      Mesh.position (mesh p') = Vector3.make (Fin px) (Fin py) (Fin pz) /\
      velocity p' = Vector3.make (Fin vx) (Fin vy) (Fin vz) /\
      (Qabs (py - (bY + sy * 0.5)) <= 1 # 1000000000000 /\
       B64.rnd (bx - 0.15) <= px <= B64.rnd (bx + 0.15) /\
       B64.rnd (bz - 0.15) <= pz <= B64.rnd (bz + 0.15) /\
       Qabs (px - bx) <= 0.15 + (1 # 1000000000000) /\
       Qabs (pz - bz) <= 0.15 + (1 # 1000000000000) /\
       1 <= vy <= 1.5 /\ -0.25 <= vx <= 0.25 /\ -0.25 <= vz <= 0.25)%Q.
Proof.
  intros Hr Hfind Hbar Hpos Hsy (Bx & BY & Bz & Bs).
  unfold emitParticle64. rewrite Hfind, Hbar.
  apply getInactiveParticle_Some in Hfind as (Hk & _ & Hc).
  eexists _, _. split; [reflexivity|].
  cbn [particlePool with_random_calls with_particlePool random_calls].
  split; [apply list_lookup_insert_eq; by eapply lookup_lt_Some|].
  split; [intros k' Hne; by apply list_lookup_insert_ne|].
  split; [reflexivity|]. split; [reflexivity|]. split; [reflexivity|].
  split; [reflexivity|]. split; [exact Hc|].
  split; [by rewrite <- lit_1|]. split; [reflexivity|].
  unfold launch64, random. cbn [mesh Mesh.position velocity].
  rewrite Hpos, Hsy. cbn [Vector3.x Vector3.y Vector3.z].
  destruct (offset64 _ (Hr (random_calls st + 0)%nat)) as (ox & Eox & Hox).
  destruct (offset64 _ (Hr (random_calls st + 1)%nat)) as (oz & Eoz & Hoz).
  destruct (drift64 _ (Hr (random_calls st + 2)%nat)) as (vx & Evx & Hvx).
  destruct (speed64 _ (Hr (random_calls st + 3)%nat)) as (vy & Evy & Hvy).
  destruct (drift64 _ (Hr (random_calls st + 4)%nat)) as (vz & Evz & Hvz).
  destruct (top64 bY sy BY Bs) as (py & Epy & Hpy).
  rewrite Eox, Eoz, Evx, Evy, Evz, Epy.
  destruct (place64 bx ox Bx Hox) as (Epx & Hpx & Hpx').
  destruct (place64 bz oz Bz Hoz) as (Epz & Hpz & Hpz').
  rewrite Epx, Epz.
  do 6 eexists. split; [reflexivity|]. split; [reflexivity|].
  split; [exact Hpy|]. split; [exact Hpx|]. split; [exact Hpz|].
  split; [exact Hpx'|]. split; [exact Hpz'|]. done.
Qed.

Lemma emitParticle_launches_from_bar_top_witness :
  exists (st' : AudioSpectrum) (p' : ParticleData),
    emitParticle64 evenRandom 0 (lit 0) (constructor sceneConfig) = Normal st' /\
    particlePool st' !! 0%nat = Some p' /\ active p' = true.
Proof.
  destruct (emitParticle_launches_from_bar_top evenRandom 0 (lit 0)
              (constructor sceneConfig) 0 (createParticle 8 0)
              (fst (createSpectrumBar 8 0))
              (finite_part (Vector3.x (Mesh.position (fst (createSpectrumBar 8 0)))))
              0.25 8 1)
    as (st' & p' & E & Hk & _ & _ & Ha & _).
  - intros j. split; vm_compute; [discriminate | reflexivity].
  - vm_compute. reflexivity.
  - vm_compute. reflexivity.
  - vm_compute. reflexivity.
  - vm_compute. reflexivity.
  - repeat split; vm_compute; discriminate.
  - exists st', p'. split; [exact E|]. split; [exact Hk | exact Ha].
Defined.

(** The closed ends are reached: when [Math.random] returns [1 - 2^-52],
    the upward speed is exactly 1.5, and the particle starts at the
    double nearest to 0.15 beside the axis of the bar. *)
Example launch_at_the_closed_ends :
  velocity (launch64 highRandom (constructor sceneConfig)
              (fst (createSpectrumBar 8 0)) (createParticle 8 0))
  = Vector3.make (B64.lit (0.25 - B64.pow2 (-53))) (B64.lit 1.5)
      (B64.lit (0.25 - B64.pow2 (-53))) /\
  Vector3.x (Mesh.position
               (mesh (launch64 highRandom (constructor sceneConfig)
                        (fst (createSpectrumBar 8 0)) (createParticle 8 0))))
  = (Vector3.x (Mesh.position (fst (createSpectrumBar 8 0)))
     + B64.lit 0.15)%b64.
Proof. split; vm_compute; reflexivity. Qed.

Section Locality.

Lemma sumBins_ext (data data' : list byte) (startIndex endIndex : nat) :
  (forall j, (startIndex <= j < endIndex)%nat -> data !! j = data' !! j) ->
  sumBins data startIndex endIndex = sumBins data' startIndex endIndex.
Proof.
  unfold sumBins. intros H.
  assert (G : forall count start acc,
    (startIndex <= start)%nat -> (start + count <= endIndex)%nat \/ count = 0%nat ->
    fold_left (fun sum j => (sum + default NaN (JS.of_byte <$> data !! j))%js)
      (seq start count) acc
    = fold_left (fun sum j => (sum + default NaN (JS.of_byte <$> data' !! j))%js)
        (seq start count) acc).
  { induction count as [|c IH]; intros start acc Hs Hc; [done|].
    simpl. rewrite (H start) by lia. apply IH; lia. }
  destruct (decide (startIndex <= endIndex)%nat).
  - apply G; lia.
  - replace (endIndex - startIndex)%nat with 0%nat by lia. done.
Qed.

Lemma normalizedBand_ext (data data' : list byte) (n i : nat) :
  length data = length data' ->
  (forall j, (i * (length data / n) <= j < i * (length data / n) + length data / n)%nat ->
     data !! j = data' !! j) ->
  normalizedBand data n i = normalizedBand data' n i.
Proof.
  intros Hl H. unfold normalizedBand. rewrite <- Hl.
  set (w := (length data / n)%nat) in *.
  rewrite (sumBins_ext data data'); [done|].
  intros j Hj. apply H. lia.
Qed.

Lemma fold_processBand_ext (data data' : list byte) (n : nat)
    (bands : list nat) (l : list number) :
  Forall (fun i => normalizedBand data n i = normalizedBand data' n i) bands ->
  fold_left (processBand data n) bands l
  = fold_left (processBand data' n) bands l.
Proof.
  intros H. revert l. induction H as [|i bands Hi _ IH]; intros l; [done|].
  simpl. unfold processBand at 2 4. rewrite Hi. apply IH.
Qed.

End Locality.

(** X7: which bins a band reads.  Band [i] is computed from the bins of
    its own group only, [i * w] to [i * w + w - 1] for [w] the quotient of
    the buffer length by the band count; so the bins from [bandCount * w]
    on, the remainder of the division, never reach the smoothed values. *)
Theorem bands_read_their_own_bins (st : AudioSpectrum)
    (data data' : list byte) :
  length data = length data' ->
  let n := bandCount (config st) in
  let w := (length data / n)%nat in
  (forall i : nat,
     (forall j, (i * w <= j < i * w + w)%nat -> data !! j = data' !! j) ->
     normalizedBand data n i = normalizedBand data' n i) /\
  (take (n * w) data = take (n * w) data' ->
   smoothedData (feed data st) = smoothedData (feed data' st)).
Proof.
  intros Hl n w. split.
  - intros i H. by apply normalizedBand_ext.
  - intros Ht. unfold feed, processFrequencyBands. simpl. fold n.
    apply fold_processBand_ext. apply Forall_forall. intros i Hi.
    apply elem_of_seq in Hi. apply normalizedBand_ext; [done|]. fold w.
    intros j Hj.
    assert (Hjn : (j < n * w)%nat) by nia.
    rewrite <- (lookup_take_lt data (n * w) j) by done.
    rewrite <- (lookup_take_lt data' (n * w) j) by done.
    by rewrite Ht.
Qed.

Lemma bands_read_their_own_bins_witness :
  smoothedData (feed loud (constructor twelveBands))
  = smoothedData (feed loudButTop (constructor twelveBands)).
Proof.
  refine (proj2 (bands_read_their_own_bins (constructor twelveBands) loud
                   loudButTop _) _).
  - reflexivity.
  - vm_compute. reflexivity.
Defined.

Section Bursts.
#[local] Open Scope Q_scope.

Variable random_source : nat -> Q.

Lemma Qfloor_unit_double (r : Q) :
  0 <= r < 1 -> Qfloor (r * 2) = 0%Z \/ Qfloor (r * 2) = 1%Z.
Proof.
  intros Hr.
  pose proof (Qfloor_le (r * 2)) as H1. pose proof (Qlt_floor (r * 2)) as H2.
  assert (Hlt : (Qfloor (r * 2) < 2)%Z).
  { rewrite Zlt_Qlt. change (inject_Z 2) with 2. lra. }
  assert (Hge : (0 < Qfloor (r * 2) + 1)%Z).
  { rewrite Zlt_Qlt. change (inject_Z 0) with 0. lra. }
  lia.
Qed.

Lemma burstTimeouts_unit (i : nat) (x : number) (r : Q) :
  0 <= r < 1 ->
  burstTimeouts i x (Qfloor (r * 2) + 1) = [mkTimeout 0 i x] \/
  burstTimeouts i x (Qfloor (r * 2) + 1) = [mkTimeout 0 i x; mkTimeout 50 i x].
Proof.
  intros Hr. destruct (Qfloor_unit_double r Hr) as [-> | ->]; [by left | by right].
Qed.

(** What the body of the emission loop does to the registered
    timeouts. *)
Lemma emissionStep_pending (n : nat) (deltaTime : number) (i : nat)
    (s s' : AudioSpectrum) :
  unit_random random_source -> invariant n s -> (i < n)%nat ->
  emissionStep random_source deltaTime i s = Normal s' ->
  same_scene s s' /\
  exists added,
    pending s' = pending s ++ added /\
    (added = [] \/
     due deltaTime s i = true /\
     JS.gt (JS.get (smoothedData s) i) (lit 0.7) = true /\
     (added = [mkTimeout 0 i (JS.get (smoothedData s) i)] \/
      added = [mkTimeout 0 i (JS.get (smoothedData s) i);
               mkTimeout 50 i (JS.get (smoothedData s) i)])).
Proof.
  intros Hr I Hi. unfold emissionStep, due.
  assert (Ht : (i < length (particleEmissionTimers s))%nat).
  { by rewrite (inv_timers _ _ I). }
  rewrite set_in_range by done.
  set (t := (JS.get (particleEmissionTimers s) i - deltaTime)%js).
  set (s1 := with_timers s _).
  assert (I1 : invariant n s1).
  { apply invariant_timers; [done|]. by rewrite length_insert, (inv_timers _ _ I). }
  assert (Hget : JS.get (particleEmissionTimers s1) i = t).
  { apply get_lookup. simpl. by apply list_lookup_insert_eq. }
  rewrite Hget. destruct (JS.le t (lit 0)) eqn:Hdue.
  2: { intros [= <-]. split; [done|]. exists []. split; [|by left].
       simpl. by rewrite app_nil_r. }
  destruct (emitParticle_invariant random_source n i
              (JS.get (smoothedData s) i) s1 I1) as (pool & calls0 & -> & _).
  cbn [mbind completion_bind].
  destruct (JS.gt (JS.get (smoothedData s) i) (lit 0.7)) eqn:Hloud.
  - destruct (JS.lt _ (lit 0.3)).
    + intros [= <-]. split; [done|]. eexists. split; [reflexivity|].
      right. split; [done|]. split; [done|].
      apply burstTimeouts_unit. apply Hr.
    + intros [= <-]. split; [done|]. exists []. split; [|by left].
      simpl. by rewrite app_nil_r.
  - intros [= <-]. split; [done|]. exists []. split; [|by left].
    simpl. by rewrite app_nil_r.
Qed.

Lemma same_scene_trans (a b c : AudioSpectrum) :
  same_scene a b -> same_scene b c -> same_scene a c.
Proof.
  intros (H1 & H2 & H3 & H4 & H5) (G1 & G2 & G3 & G4 & G5).
  repeat split; congruence.
Qed.

Lemma updateParticleEmission_pending (n : nat) (deltaTime : number)
    (st st' : AudioSpectrum) :
  unit_random random_source -> invariant n st ->
  updateParticleEmission random_source deltaTime st = Normal st' ->
  same_scene st st' /\
  exists added,
    pending st' = pending st ++ added /\
    Forall (burst_timeout deltaTime st) added.
Proof.
  intros Hr I E. unfold updateParticleEmission in E.
  rewrite (inv_bandCount _ _ I) in E.
  destruct (for_range_indexed
    (fun j s => emission_progress deltaTime n st j s /\ same_scene st s /\
       exists added, pending s = pending st ++ added /\
                     Forall (burst_timeout deltaTime st) added)
    (emissionStep random_source deltaTime) n 0 st) as (st'' & E' & _ & H).
  - intros j s Hj (Hprog & Hsame & added & Hadd & Hok).
    destruct (emissionStep_invariant random_source n deltaTime j s)
      as (s1 & E1 & _); [apply Hprog | lia |].
    exists s1. split; [done|].
    pose proof (emission_progress_step random_source deltaTime n j st s s1 I
                  ltac:(lia) Hprog E1) as Hprog1.
    destruct Hprog as (Is & Hsm & Htm & _).
    destruct (emissionStep_pending n deltaTime j s s1 Hr Is ltac:(lia) E1)
      as (Hsame1 & added1 & Hadd1 & Hcase).
    split; [done|]. split; [by eapply same_scene_trans|].
    exists (added ++ added1). split; [by rewrite Hadd1, Hadd, app_assoc|].
    apply Forall_app. split; [done|].
    assert (Hdue : due deltaTime s j = due deltaTime st j).
    { unfold due. f_equal. f_equal. apply get_lookup. rewrite (Htm j) by lia.
      by rewrite decide_False by lia. }
    destruct Hcase as [-> | (Hd & Hl & Hcase)]; [done|].
    rewrite Hsm in Hl, Hcase. rewrite Hdue in Hd.
    assert (Hb : forall delay, delay = 0%nat \/ delay = 50%nat ->
              burst_timeout deltaTime st
                (mkTimeout delay j (JS.get (smoothedData st) j))).
    { intros delay Hdelay. unfold burst_timeout. simpl.
      rewrite (inv_bandCount _ _ I). repeat split; try done. lia. }
    destruct Hcase as [-> | ->]; repeat constructor; apply Hb; auto.
  - split; [by apply emission_progress_start|]. split; [done|].
    exists []. split; [by rewrite app_nil_r | constructor].
  - rewrite E in E'. by injection E' as <-.
Qed.

End Bursts.

(** X8: bursts.  An emission step returns normally; it appends timeouts
    to the registered ones and removes none; each one it appends is for a
    band whose timer was due and whose intensity exceeded 0.7, carries
    that intensity and is to run at once or 50 ms later; a step in which
    no band exceeds 0.7 registers nothing. *)
Theorem bursts_only_for_loud_bands (random_source : nat -> Q) (n : nat)
    (deltaTime : number) (st : AudioSpectrum) :
  unit_random random_source -> invariant n st ->
  exists (st' : AudioSpectrum) (added : list Timeout),
    updateParticleEmission random_source deltaTime st = Normal st' /\
    pending st' = pending st ++ added /\
    Forall (burst_timeout deltaTime st) added /\
    ((forall i, (i < n)%nat ->
        JS.gt (JS.get (smoothedData st) i) (lit 0.7) = false) ->
     added = []).
Proof.
  intros Hr I.
  destruct (updateParticleEmission_invariant random_source n deltaTime st I)
    as (st' & E & _).
  destruct (updateParticleEmission_pending random_source n deltaTime st st'
              Hr I E) as (_ & added & Hadd & Hok).
  exists st', added. split; [done|]. split; [done|]. split; [done|].
  intros Hquiet. destruct added as [|t added]; [done|].
  apply Forall_cons in Hok as [(Hb & _ & Hl & _) _].
  rewrite (inv_bandCount _ _ I) in Hb. rewrite (Hquiet _ Hb) in Hl. done.
Qed.

(** X9: what an emission step leaves alone.  The step returns normally;
    the configuration, the buffer, the bars, the lights and the smoothed
    intensities are as before, and every timer is the old one less the
    elapsed time, unless that is at or below zero, in which case it is
    the reset value. *)
Theorem emission_step_frame (random_source : nat -> Q) (n : nat)
    (deltaTime : number) (st : AudioSpectrum) :
  unit_random random_source -> invariant n st ->
  exists st' : AudioSpectrum,
    updateParticleEmission random_source deltaTime st = Normal st' /\
    same_scene st st' /\
    length (particleEmissionTimers st') = n /\
    forall i : nat, (i < n)%nat ->
      particleEmissionTimers st' !! i
      = Some (if due deltaTime st i
              then emissionRate (JS.get (smoothedData st) i)
              else (JS.get (particleEmissionTimers st) i - deltaTime)%js).
Proof.
  intros Hr I.
  destruct (updateParticleEmission_invariant random_source n deltaTime st I)
    as (st' & E & _).
  destruct (updateParticleEmission_pending random_source n deltaTime st st'
              Hr I E) as (Hsame & _).
  destruct (updateParticleEmission_progress random_source deltaTime n st st'
              I E) as (I' & _ & Htm & _).
  exists st'. split; [done|]. split; [done|]. split; [apply I'|].
  intros i Hi. rewrite (Htm i Hi). by rewrite decide_True by lia.
Qed.

Lemma lowRandom_unit : unit_random lowRandom.
Proof. intros k. split; vm_compute; [discriminate | reflexivity]. Qed.

Lemma evenRandom_unit : unit_random evenRandom.
Proof. intros k. split; vm_compute; [discriminate | reflexivity]. Qed.

Lemma crowded_invariant : invariant 8 crowded.
Proof.
  exact (reachable_invariant evenRandom flatSine sceneConfig crowded
           (stateAfter_reachable _ _)).
Qed.

Lemma crowdedBurst_eq :
  updateParticleEmission lowRandom (lit 0.25) crowded = Normal crowdedBurst.
Proof. vm_compute. reflexivity. Qed.

Lemma bursts_only_for_loud_bands_witness :
  exists (st' : AudioSpectrum) (added : list Timeout),
    updateParticleEmission lowRandom (lit 0.25) crowded = Normal st' /\
    pending st' = pending crowded ++ added /\
    Forall (burst_timeout (lit 0.25) crowded) added.
Proof.
  destruct (bursts_only_for_loud_bands lowRandom 8 (lit 0.25) crowded
              lowRandom_unit crowded_invariant)
    as (st' & added & E & Hadd & Hok & _).
  exists st', added. split; [exact E|]. split; [exact Hadd | exact Hok].
Defined.

Lemma emission_step_frame_witness :
  exists st' : AudioSpectrum,
    updateParticleEmission lowRandom (lit 0.25) crowded = Normal st' /\
    same_scene crowded st' /\
    length (particleEmissionTimers st') = 8%nat.
Proof.
  destruct (emission_step_frame lowRandom 8 (lit 0.25) crowded
              lowRandom_unit crowded_invariant)
    as (st' & E & Hs & Hl & _).
  exists st'. split; [exact E|]. split; [exact Hs | exact Hl].
Defined.

Example crowdedBurst_registers_one_timeout_per_band :
  length (pending crowded) = 0%nat /\ length (pending crowdedBurst) = 8%nat.
Proof. split; vm_compute; reflexivity. Qed.

Section Fallback.

Variable random_source : nat -> Q.
Variable Math_sin : number -> number.

Lemma animateFallback_quiet (n : nat) (time : number) (dt : Q)
    (st : AudioSpectrum) :
  unit_random random_source -> invariant n st ->
  smoothedData st = replicate n (lit 0) -> pending st = [] ->
  exists st',
    animateFallback random_source Math_sin time (Fin dt) st = Normal st' /\
    invariant n st' /\ smoothedData st' = replicate n (lit 0) /\
    pending st' = [] /\ frequencyData st' = frequencyData st.
Proof.
  intros Hr I Hs Hp. unfold animateFallback.
  edestruct updateBarAt_loop as (bars & lights & -> & Hb & Hl).
  - by rewrite (inv_lights _ _ I), (inv_bars _ _ I).
  - simpl. reflexivity.
  - cbn [mbind completion_bind].
    set (st1 := updateParticles (Fin dt) (with_bars st bars lights)).
    assert (I1 : invariant n st1).
    { apply updateParticles_invariant. rewrite (inv_bars _ _ I) in Hb, Hl.
      by apply invariant_bars. }
    destruct (updateParticleEmission_invariant random_source n (Fin dt) st1 I1)
      as (st' & E & I').
    exists st'. split; [done|]. split; [done|].
    destruct (updateParticleEmission_pending random_source n (Fin dt) st1 st'
                Hr I1 E) as ((_ & Hf & _ & _ & Hsm) & added & Hadd & Hok).
    split; [by rewrite Hsm|]. split; [|by rewrite Hf].
    rewrite Hadd. change (pending st1) with (pending st). rewrite Hp.
    destruct added as [|t added]; [done|].
    apply Forall_cons in Hok as [(Hband & _ & Hl' & _) _].
    change (smoothedData st1) with (smoothedData st) in Hl'.
    change (config st1) with (config st) in Hband.
    rewrite (inv_bandCount _ _ I) in Hband.
    unfold JS.get in Hl'. rewrite Hs, lookup_replicate_2 in Hl' by done.
    done.
Qed.

Lemma fallback_run (n : nat) (es : list event) (st : AudioSpectrum) :
  unit_random random_source -> Forall fallback_event es ->
  invariant n st -> smoothedData st = replicate n (lit 0) ->
  pending st = [] -> frequencyData st = None ->
  exists st',
    run random_source Math_sin es st = Normal st' /\
    invariant n st' /\ smoothedData st' = replicate n (lit 0) /\
    pending st' = [] /\ frequencyData st' = None.
Proof.
  intros Hr Hes. revert st.
  induction Hes as [|e es He _ IH]; intros st I Hs Hp Hf; [by exists st|].
  destruct e as [|sample dt|time dt|k]; try done; simpl.
  - destruct (animateFallback_quiet n time dt st Hr I Hs Hp)
      as (st1 & -> & I1 & Hs1 & Hp1 & Hf1).
    cbn [mbind completion_bind]. apply IH; try done. by rewrite Hf1.
  - unfold runTimeout. rewrite Hp. simpl. by apply IH.
Qed.

Lemma emissionStep_disposed (deltaTime : number) (i : nat) (s : AudioSpectrum) :
  disposed s ->
  exists s', emissionStep random_source deltaTime i s = Normal s' /\
             disposed s'.
Proof.
  intros (Hp & Hb & Hl). unfold emissionStep.
  set (s1 := with_timers s _).
  assert (E : emitParticle random_source i (JS.get (smoothedData s) i) s1
              = Normal s1).
  { unfold emitParticle. change (particlePool s1) with (particlePool s).
    by rewrite Hp. }
  destruct (JS.le _ (lit 0)); [|by exists s1].
  rewrite E. cbn [mbind completion_bind].
  destruct (JS.gt _ _); [destruct (JS.lt _ _)|]; by eexists.
Qed.

Lemma updateParticleEmission_disposed (deltaTime : number) (st : AudioSpectrum) :
  disposed st ->
  exists st', updateParticleEmission random_source deltaTime st = Normal st' /\
              disposed st'.
Proof.
  intros H. unfold updateParticleEmission.
  apply (for_range_invariant disposed); [|done].
  intros i s _ Hs. by apply emissionStep_disposed.
Qed.

Lemma updateParticles_disposed (deltaTime : number) (s : AudioSpectrum) :
  disposed s -> disposed (updateParticles deltaTime s).
Proof.
  intros (Hp & Hb & Hl). unfold disposed, updateParticles.
  destruct s; simpl in *; by subst.
Qed.

Lemma handle_disposed (e : event) (st : AudioSpectrum) :
  disposed st ->
  exists st', handle random_source Math_sin e st = Normal st' /\ disposed st'.
Proof.
  intros (Hp & Hb & Hl). destruct e as [|sample dt|time dt|k]; simpl.
  - by eexists.
  - unfold animate. destruct (frequencyData st) as [buffer|]; [|by exists st].
    set (st1 := with_frequencyData st _).
    destruct (processFrequencyBands_frame st1)
      as (_ & _ & Hp2 & _ & Hb2 & Hl2 & _).
    unfold updateSpectrumBars. rewrite Hb2. change (spectrumBars st1) with (spectrumBars st).
    rewrite Hb. cbn [length for_range mbind completion_bind].
    apply updateParticleEmission_disposed, updateParticles_disposed.
    unfold disposed. rewrite Hp2, Hb2, Hl2. by split.
  - unfold animateFallback. rewrite Hb.
    cbn [length for_range mbind completion_bind].
    apply updateParticleEmission_disposed, updateParticles_disposed.
    by split.
  - unfold runTimeout. destruct (pending st !! k) as [t|]; [|by exists st].
    unfold emitParticle. simpl. rewrite Hp. by eexists.
Qed.

End Fallback.

(** X10: the fallback animation.  A visualizer that only ever runs the
    fallback callback (and the timeouts it may have registered) returns
    normally from every callback, never gets a buffer, keeps all smoothed
    intensities at zero, so that its timers are reset to the base rate of
    0.3 s, and never registers a burst. *)
Theorem fallback_animation_never_bursts (random_source : nat -> Q)
    (Math_sin : number -> number) (cfg : AudioSpectrumConfig)
    (es : list event) :
  unit_random random_source -> Forall fallback_event es ->
  exists st : AudioSpectrum,
    run random_source Math_sin es (constructor cfg) = Normal st /\
    smoothedData st = replicate (bandCount cfg) (lit 0) /\
    Forall (fun intensity => emissionRate intensity = lit 0.3)
      (smoothedData st) /\
    pending st = [] /\ frequencyData st = None.
Proof.
  intros Hr Hes.
  destruct (fallback_run random_source Math_sin (bandCount cfg) es
              (constructor cfg) Hr Hes (constructor_invariant cfg))
    as (st & E & _ & Hs & Hp & Hf).
  - unfold constructor, createSpectrumBars. by simpl.
  - unfold constructor, createSpectrumBars. by simpl.
  - unfold constructor, createSpectrumBars. by simpl.
  - exists st. split; [done|]. split; [done|]. split; [|done].
    rewrite Hs. by apply Forall_replicate.
Qed.

Lemma fallback_animation_never_bursts_witness :
  exists st : AudioSpectrum,
    run evenRandom flatSine
      [FallbackFrame (lit 0.02) 0.25; FallbackFrame (lit 0.04) 0.25;
       TimeoutFired 0]
      (constructor sceneConfig) = Normal st /\
    pending st = [].
Proof.
  destruct (fallback_animation_never_bursts evenRandom flatSine sceneConfig
              [FallbackFrame (lit 0.02) 0.25; FallbackFrame (lit 0.04) 0.25;
               TimeoutFired 0] evenRandom_unit)
    as (st & E & _ & _ & Hp & _).
  - repeat constructor.
  - exists st. split; [exact E | exact Hp].
Defined.

(** X11: after [dispose].  Whatever callbacks still run on a disposed
    visualizer (a frame that was already requested, a burst timeout, the
    audio becoming ready) return normally, and the visualizer keeps no
    bar, no light and no particle. *)
Theorem callbacks_after_dispose (random_source : nat -> Q)
    (Math_sin : number -> number) (st : AudioSpectrum) (es : list event) :
  exists st' : AudioSpectrum,
    run random_source Math_sin es (dispose st) = Normal st' /\
    particlePool st' = [] /\ spectrumBars st' = [] /\ spectrumLights st' = [] /\
    (forall i, activeCount i (particlePool st') = 0%nat).
Proof.
  assert (H : forall s, disposed s ->
            exists s', run random_source Math_sin es s = Normal s' /\
                       disposed s').
  { induction es as [|e es' IH]; intros s Hs; [by exists s|].
    destruct (handle_disposed random_source Math_sin e s Hs) as (s1 & E1 & H1).
    simpl. rewrite E1. cbn [mbind completion_bind]. by apply IH. }
  destruct (H (dispose st)) as (st' & E & Hp & Hb & Hl); [done|].
  exists st'. split; [done|]. split; [done|]. split; [done|]. split; [done|].
  intros i. by rewrite Hp.
Qed.

(** The timeouts of [crowdedBurst] fire after the visualizer has been
    disposed. *)
Example timeouts_after_dispose :
  run lowRandom flatSine [TimeoutFired 0; TimeoutFired 0]
    (dispose crowdedBurst)
  = Normal (with_pending (dispose crowdedBurst)
              (drop 2 (pending crowdedBurst))).
Proof. vm_compute. reflexivity. Qed.

(** ** The pool over the whole life of the visualizer *)

Section Lifetime.

Variable random_source : nat -> Q.
Variable Math_sin : number -> number.

Lemma reachable_lifetime (cfg : AudioSpectrumConfig) (st : AudioSpectrum) :
  reachable random_source Math_sin cfg st ->
  lifetime random_source Math_sin cfg st.
Proof.
  induction 1 as [|st e st' _ IH E]; [constructor|].
  by apply (lifetime_handle _ _ _ st e).
Qed.

(** A state of the whole life is a state of the live visualizer or a
    disposed one. *)
Lemma lifetime_cases (cfg : AudioSpectrumConfig) (st : AudioSpectrum) :
  lifetime random_source Math_sin cfg st ->
  invariant (bandCount cfg) st \/ disposed st.
Proof.
  induction 1 as [|st e st' _ IH E|st _ IH].
  - left. apply constructor_invariant.
  - destruct IH as [I|D].
    + left. destruct (handle_invariant random_source Math_sin _ e st I)
        as (st'' & E' & I'). rewrite E in E'. by injection E' as <-.
    + right. destruct (handle_disposed random_source Math_sin e st D)
        as (st'' & E' & D'). rewrite E in E'. by injection E' as <-.
  - right. by repeat split.
Qed.

Lemma invariant_pool_as_built (cfg : AudioSpectrumConfig) (st : AudioSpectrum) :
  invariant (bandCount cfg) st -> pool_as_built cfg st.
Proof.
  intros I. split; [by apply pool_length | apply I].
Qed.

End Lifetime.

(** C3, as it holds: over the whole life of the visualizer, callbacks
    and [dispose], no band ever has more than [maxParticlesPerCylinder]
    active entries and every entry of the pool is one that
    [initializeParticlePool] built, entry [k] with mesh [k] and band
    [k / 10]; the pool is the whole of what was built, [bandCount * 10]
    entries, or it is empty; it is the whole in every state the
    callbacks reach from the constructor; and [dispose] empties it, after
    which the callbacks that still run return normally and leave it
    empty. *)
Theorem particle_pool_fixed_and_bounded (random_source : nat -> Q)
    (Math_sin : number -> number) (cfg : AudioSpectrumConfig)
    (st : AudioSpectrum) :
  lifetime random_source Math_sin cfg st ->
  (forall i : nat,
     (activeCount i (particlePool st) <= maxParticlesPerCylinder)%nat) /\
  (forall k p, particlePool st !! k = Some p ->
     identity p = (k, (k / maxParticlesPerCylinder)%nat) /\
     (k < bandCount cfg * maxParticlesPerCylinder)%nat) /\
  (pool_as_built cfg st \/ particlePool st = []) /\
  (reachable random_source Math_sin cfg st -> pool_as_built cfg st) /\
  (forall es : list event, exists st' : AudioSpectrum,
     run random_source Math_sin es (dispose st) = Normal st' /\
     lifetime random_source Math_sin cfg st' /\
     particlePool st' = []).
Proof.
  intros L. pose proof (lifetime_cases _ _ _ _ L) as C.
  split; [|split; [|split; [|split]]].
  - intros i. destruct C as [I|(Hp & _)].
    + by eapply activeCount_bound.
    + rewrite Hp. unfold activeCount. simpl. lia.
  - intros k p Hk. destruct C as [I|(Hp & _)].
    + destruct (pool_entry _ st k p I Hk) as (Hn & Hc & Hlt).
      unfold identity. by rewrite Hn, Hc.
    + by rewrite Hp in Hk.
  - destruct C as [I|(Hp & _)]; [left | by right].
    by apply invariant_pool_as_built.
  - intros R. apply invariant_pool_as_built.
    by apply (reachable_invariant random_source Math_sin).
  - intros es.
    assert (H : forall s, lifetime random_source Math_sin cfg s -> disposed s ->
              exists s', run random_source Math_sin es s = Normal s' /\
                         lifetime random_source Math_sin cfg s' /\
                         particlePool s' = []).
    { induction es as [|e es' IH]; intros s Ls Ds.
      - exists s. split; [done|]. split; [done|]. apply Ds.
      - destruct (handle_disposed random_source Math_sin e s Ds)
          as (s1 & E1 & D1).
        simpl. rewrite E1. cbn [mbind completion_bind].
        apply IH; [|done]. by apply (lifetime_handle _ _ _ s e). }
    apply H; [by constructor | by repeat split].
Qed.

Lemma particle_pool_fixed_and_bounded_witness :
  pool_as_built sceneConfig crowded /\
  activeCount 0 (particlePool crowded) = 10%nat /\
  (activeCount 0 (particlePool (dispose crowded))
   <= maxParticlesPerCylinder)%nat.
Proof.
  assert (R : reachable evenRandom flatSine sceneConfig crowded)
    by exact (stateAfter_reachable sceneConfig _).
  pose proof (particle_pool_fixed_and_bounded evenRandom flatSine sceneConfig
                crowded (reachable_lifetime _ _ _ _ R)) as (_ & _ & _ & Hb & _).
  pose proof (particle_pool_fixed_and_bounded evenRandom flatSine sceneConfig
                (dispose crowded)
                (lifetime_dispose _ _ _ _ (reachable_lifetime _ _ _ _ R)))
    as (Ha & _).
  split; [exact (Hb R)|]. split; [by vm_compute | apply Ha].
Defined.

(** C3 does not hold as stated: [dispose] is public, the scene manager
    calls it, and it empties the pool, while the burst timeouts that
    were registered before still fire.  After ten loud frames and an
    emission step that registers eight timeouts, the disposed visualizer
    has no pool entry where the claim has eighty, and a timeout that
    fires then finds none. *)
Lemma pool_empty_after_dispose :
  lifetime lowRandom flatSine sceneConfig (dispose bursting) /\
  pending (dispose bursting) <> [] /\
  (bandCount sceneConfig * maxParticlesPerCylinder)%nat = 80%nat /\
  length (particlePool (dispose bursting)) = 0%nat /\
  exists st : AudioSpectrum,
    handle lowRandom flatSine (TimeoutFired 0) (dispose bursting) = Normal st /\
    lifetime lowRandom flatSine sceneConfig st /\
    length (particlePool st) = 0%nat.
Proof.
  assert (E : run lowRandom flatSine
                (AudioReady :: replicate 10 (AnimationFrame loud 0.25))
                (constructor sceneConfig) = Normal bursting)
    by (vm_compute; reflexivity).
  pose proof (run_reachable lowRandom flatSine sceneConfig _ _ _
                (reachable_constructor _ _ _) E) as R.
  pose proof (lifetime_dispose _ _ _ _
                (reachable_lifetime lowRandom flatSine _ _ R)) as L.
  assert (D : disposed (dispose bursting)) by (by repeat split).
  split; [exact L|]. split; [by vm_compute|]. split; [reflexivity|].
  split; [reflexivity|].
  destruct (handle_disposed lowRandom flatSine (TimeoutFired 0) _ D)
    as (st & Est & (Hp & _)).
  exists st. split; [exact Est|]. split.
  - exact (lifetime_handle _ _ _ _ _ _ L Est).
  - by rewrite Hp.
Qed.

Module VRPoll.
Import VR VRFacts.

#[local] Open Scope Q_scope.

Lemma readFields_flags (h : gmap loc object) (a s a' s' : bool)
    (cs hp hr : loc) (v : SessionView) :
  readFields h a s cs hp hr = Some v ->
  view_isActive v = a /\ view_isSupported v = s /\
  readFields h a' s' cs hp hr
  = Some (mkSessionView a' s' (view_controllers v) (view_headPosition v)
            (view_headRotation v)).
Proof.
  unfold readFields.
  destruct (readControllers h cs) as [cs'|]; [|done].
  destruct (readCoordinates h hp) as [hp'|]; [|done].
  destruct (readCoordinates h hr) as [hr'|]; [|done].
  simpl. by intros [= <-].
Qed.

Lemma readFields_parts (h : gmap loc object) (a s : bool) (cs hp hr : loc)
    (v : SessionView) :
  readFields h a s cs hp hr = Some v <->
  readControllers h cs = Some (view_controllers v) /\
  readCoordinates h hp = Some (view_headPosition v) /\
  readCoordinates h hr = Some (view_headRotation v) /\
  view_isActive v = a /\ view_isSupported v = s.
Proof.
  unfold readFields. split.
  - destruct (readControllers h cs) as [cs'|]; [|done].
    destruct (readCoordinates h hp) as [hp'|]; [|done].
    destruct (readCoordinates h hr) as [hr'|]; [|done].
    simpl. by intros [= <-].
  - intros (-> & -> & -> & <- & <-). by destruct v.
Qed.

Lemma alloc_read (v : Vector3.t) (h h' : gmap loc object) (l : loc) :
  alloc (Coordinates v) h = (l, h') -> readCoordinates h' l = Some v.
Proof.
  intros E. apply alloc_subseteq in E as [_ L].
  unfold readCoordinates. by rewrite L.
Qed.

Lemma mapControllers_view (cs : list XRController) (index : nat)
    (h h' : gmap loc object) (ls : list loc) :
  mapControllers index cs h = (ls, h') ->
  mapM (readController h') ls
  = Some (imap (fun i => controllerView (index + i)) cs).
Proof.
  revert index h h' ls. induction cs as [|c cs IH]; intros index h h' ls.
  - by intros [= <- <-].
  - cbn [mapControllers]. unfold mapController.
    next_alloc p h1 E1.
    next_alloc r h2 E2.
    next_alloc l h3 E3.
    destruct (mapControllers (S index) cs h3) as [ls' h4] eqn:E4.
    intros [= <- <-].
    pose proof (mapControllers_subseteq _ _ _ _ _ E4) as H4.
    pose proof (alloc_read _ _ _ _ E1) as R1.
    pose proof (alloc_read _ _ _ _ E2) as R2.
    apply alloc_subseteq in E2 as [H2 _]. apply alloc_subseteq in E3 as [H3 L3].
    assert (Hc : readController h3 l = Some (controllerView index c)).
    { unfold readController. rewrite L3.
      assert (H13 : h1 ⊆ h3) by (by etrans).
      rewrite (readCoordinates_mono h1 h3 p _ H13 R1).
      by rewrite (readCoordinates_mono h2 h3 r _ H3 R2). }
    change (mapM (readController h4) (l :: ls'))
      with (y ← readController h4 l; k ← mapM (readController h4) ls';
            mret (y :: k)).
    rewrite (readController_mono _ _ _ _ H4 Hc). simpl.
    rewrite (IH _ _ _ _ E4). simpl.
    rewrite Nat.add_0_r. do 2 f_equal.
    apply imap_ext. intros i x _. simpl. f_equal. lia.
Qed.

Lemma trackHead_coreView (xr : XRReading) (cam : XRPose) (m : VRSceneManager)
    (v : SessionView) :
  camera xr = Some cam -> coreView m = Some v ->
  coreView (trackHead xr m) = Some (polled xr cam v).
Proof.
  intros Hcam Hv. unfold trackHead. rewrite Hcam.
  apply readFields_parts in Hv as (Hcs & _ & _ & Ha & Hs).
  next_alloc hp h1 E1.
  next_alloc hr h2 E2.
  pose proof (alloc_read _ _ _ _ E1) as R1.
  pose proof (alloc_read _ _ _ _ E2) as R2.
  apply alloc_subseteq in E1 as [H1 _]. apply alloc_subseteq in E2 as [H2 _].
  unfold polled. destruct (inputControllers xr) as [cs|].
  - destruct (mapControllers 0 cs h2) as [ls h3] eqn:E3.
    next_alloc arr h4 E4.
    pose proof (mapControllers_subseteq _ _ _ _ _ E3) as H3.
    pose proof (mapControllers_view _ _ _ _ _ E3) as R3.
    apply alloc_subseteq in E4 as [H4 L4].
    unfold coreView. cbn [store isActive isSupported controllers headPosition
                            headRotation].
    apply readFields_parts. cbn [view_controllers view_headPosition
      view_headRotation view_isActive view_isSupported].
    split; [|split; [|split; [|done]]].
    + unfold readControllers. rewrite L4.
      by apply (mapM_readController_mono h3).
    + apply (readCoordinates_mono h1); [|done]. by do 3 (etrans; [eassumption|]).
    + apply (readCoordinates_mono h2); [|done]. by do 2 (etrans; [eassumption|]).
  - unfold coreView. cbn [store isActive isSupported controllers headPosition
                            headRotation].
    apply readFields_parts. cbn [view_controllers view_headPosition
      view_headRotation view_isActive view_isSupported].
    split; [|split; [|split; [|done]]].
    + apply (readControllers_mono (store m)); [by etrans | done].
    + by apply (readCoordinates_mono h1).
    + done.
Qed.

Lemma constructor_sound : session_sound constructor.
Proof. split; [by eexists | intros _; split; vm_compute; reflexivity]. Qed.

Lemma flags_sound (m : VRSceneManager) (a s : bool) :
  session_sound m -> (headTrackingInterval m = None -> a = false /\ isActive m = false) ->
  session_sound (mkManager (store m) a s (controllers m) (headPosition m)
           (headRotation m) (headTrackingInterval m)).
Proof.
  intros [[v Hv] Hidle] Ha. split.
  - destruct (readFields_flags _ _ _ a s _ _ _ _ Hv) as (_ & _ & H). by eexists.
  - intros Hi. cbn [headTrackingInterval] in Hi.
    destruct (Ha Hi) as [-> _]. destruct (Hidle Hi) as [Hact Hz].
    split; [done|]. unfold coreView in *.
    cbn [store isActive isSupported controllers headPosition headRotation].
    destruct (readFields_flags _ _ _ false s _ _ _ _ Hz) as (_ & _ & H).
    exact H.
Qed.

Lemma handle_sound (e : event) (m : VRSceneManager) :
  session_sound m -> session_sound (handle e m).
Proof.
  intros Hm. destruct e as [ok|state id|xr|]; cbn [handle].
  - apply (flags_sound m (isActive m) ok Hm). intros Hi.
    by destruct Hm as [_ [? _]].
  - unfold onStateChanged. destruct state.
    + apply (flags_sound m false (isSupported m) Hm). intros Hi.
      by destruct Hm as [_ [? _]].
    + apply (flags_sound m false (isSupported m) Hm). intros Hi.
      by destruct Hm as [_ [? _]].
    + unfold startHeadTracking.
      cbn [store isActive isSupported controllers headPosition headRotation].
      destruct Hm as [[v Hv] _]. split; [|done].
      destruct (readFields_flags _ _ _ true (isSupported m) _ _ _ _ Hv)
        as (_ & _ & H). by eexists.
    + set (m1 := mkManager _ _ _ _ _ _ _).
      destruct (stopHeadTracking_view m1) as [Hv Hi]. split; [by eexists|].
      intros _. split; [|exact Hv].
      unfold stopHeadTracking.
      next_alloc hp h1 E1. next_alloc hr h2 E2. next_alloc cs h3 E3. done.
  - destruct (headTrackingInterval m) as [id|] eqn:Ei; [|done].
    destruct Hm as [[v Hv] _]. unfold trackHead.
    destruct (camera xr) as [cam|] eqn:Ecam.
    + pose proof (trackHead_coreView xr cam m v Ecam Hv) as H.
      unfold trackHead in H. rewrite Ecam in H. split; [by eexists|].
      intros Hi. exfalso. revert Hi.
      next_alloc hp h1 E1. next_alloc hr h2 E2.
      destruct (inputControllers xr) as [cs|].
      * destruct (mapControllers 0 cs h2) as [ls h3].
        next_alloc arr h4 E4. cbn [headTrackingInterval]. by rewrite Ei.
      * cbn [headTrackingInterval]. by rewrite Ei.
    + split; [by eexists|]. intros Hi. congruence.
  - unfold getVRSessionData. next_alloc s h E. cbn [snd].
    apply alloc_subseteq in E as [Hs _].
    destruct Hm as [[v Hv] Hidle]. split.
    + exists v. by apply (readFields_mono (store m)).
    + intros Hi. destruct (Hidle Hi) as [Ha Hz]. split; [done|].
      by apply (readFields_mono (store m)).
Qed.

Lemma run_sound (es : list event) (m : VRSceneManager) :
  session_sound m -> session_sound (run es m).
Proof.
  revert m. induction es as [|e es IH]; intros m Hm; [done|].
  simpl. apply IH. by apply handle_sound.
Qed.

Lemma Qfloor_half (z : Z) : Qfloor (inject_Z z + (1 # 2)) = z.
Proof.
  assert (H1 : (z <= Qfloor (inject_Z z + (1 # 2)))%Z).
  { rewrite <- (Qfloor_Z z) at 1. apply Qfloor_resp_le.
    rewrite <- (Qplus_0_r (inject_Z z)) at 1.
    apply Qplus_le_r. discriminate. }
  assert (H2 : (Qfloor (inject_Z z + (1 # 2)) < z + 1)%Z).
  { rewrite Zlt_Qlt. eapply Qle_lt_trans; [apply Qfloor_le|].
    rewrite inject_Z_plus. apply Qplus_lt_r. reflexivity. }
  lia.
Qed.

(** Rounding to hundredths. *)
Lemma hundredths (p : Q) :
  let r := inject_Z (Qfloor (p * 100 + (1 # 2))) / 100 in
  Qabs (r - p) <= 1 # 200 /\
  Qfloor (r * 100 + (1 # 2)) = Qfloor (p * 100 + (1 # 2)).
Proof.
  intros r. subst r. set (z := Qfloor (p * 100 + (1 # 2))).
  pose proof (Qfloor_le (p * 100 + (1 # 2))) as Hlo.
  pose proof (Qlt_floor (p * 100 + (1 # 2))) as Hhi.
  fold z in Hlo, Hhi. rewrite inject_Z_plus in Hhi.
  change (inject_Z 1) with 1 in Hhi.
  split.
  - apply Qabs_Qle_condition. split.
    + qlit. lra.
    + qlit. lra.
  - rewrite <- (Qfloor_half z) at 2. apply Qfloor_comp. field.
Qed.

End VRPoll.

(** X12: what a poll stores.  When the XR camera is available the
    tracking callback leaves the session data showing the camera position
    rounded to hundredths and its rotation in degrees rounded to
    hundredths; if the runtime has a controller list, one entry per
    controller in the runtime's order, numbered from 0, with the rounded
    pointer pose (zeros, as 0/100, for a controller without a pointer) and the
    connected flag, and the previous controller entries otherwise.  The
    active and supported flags are left as they were. *)
Theorem trackHead_stores_rounded_pose (xr : VR.XRReading) (cam : VR.XRPose)
    (m : VR.VRSceneManager) (v : VR.SessionView) :
  VR.camera xr = Some cam -> VR.coreView m = Some v ->
  VR.coreView (VR.trackHead xr m) = Some (polled xr cam v) /\
  (forall cs, VR.inputControllers xr = Some cs ->
     length (VR.view_controllers (polled xr cam v)) = length cs /\
     forall i c, cs !! i = Some c ->
       VR.view_controllers (polled xr cam v) !! i = Some (controllerView i c) /\
       (VR.pointer c = None ->
        VR.view_position (controllerView i c) = Vector3.Zero)).
Proof.
  intros Hcam Hv. split; [by apply VRPoll.trackHead_coreView|].
  intros cs Hcs. unfold polled. rewrite Hcs.
  cbn [VR.view_controllers]. split; [by rewrite length_imap|].
  intros i c Hi. split.
  - rewrite list_lookup_imap, Hi. done.
  - intros Hp. unfold controllerView, VR.pointerPosition.
    cbn [VR.view_position]. rewrite Hp. vm_compute. reflexivity.
Qed.

Lemma trackHead_stores_rounded_pose_witness :
  VR.coreView (VR.trackHead headOnly VR.tracking)
  = Some (polled headOnly headPose VR.tracked).
Proof.
  assert (H : VR.coreView VR.tracking = Some VR.tracked)
    by (vm_compute; reflexivity).
  exact (proj1 (trackHead_stores_rounded_pose headOnly headPose VR.tracking
                  VR.tracked eq_refl H)).
Defined.

(** The double 2.675 times 100 is the double 267.5, and the poll stores
    2.68. *)
Example poll_stores_what_the_engine_computes :
  VR.view_headPosition (polled headOnly headPose VR.tracked)
  = Vector3.make (lit 0) (B64.lit 1.7) (B64.lit 2.68) /\
  (B64.lit 2.675 * B64.lit 100)%b64 = B64.lit 267.5.
Proof. split; vm_compute; reflexivity. Qed.

Section PollRounding.
Import B64 B64Facts.
#[local] Open Scope Q_scope.

Lemma lit_100 : B64.lit 100 = Fin 100.
Proof. vm_compute. reflexivity. Qed.

Lemma lit_180 : B64.lit 180 = Fin 180.
Proof. vm_compute. reflexivity. Qed.

(** What [Math.round] returns is within a half of its argument. *)
Lemma round_near (t : Q) :
  Qabs (inject_Z (Qfloor (t + (1 # 2))) - t) <= 1 # 2.
Proof.
  pose proof (Qfloor_le (t + (1 # 2))) as Hlo.
  pose proof (Qlt_floor (t + (1 # 2))) as Hhi.
  rewrite inject_Z_plus in Hhi. change (inject_Z 1) with 1 in Hhi.
  apply Qabs_case; intros; lra.
Qed.

(** [Math.round] of a number that is nearer than a half to an integer. *)
Lemma round_of_near (z : Z) (t : Q) :
  Qabs (t - inject_Z z) < 1 # 2 -> Qfloor (t + (1 # 2)) = z.
Proof.
  intros H.
  assert (H1 : inject_Z z <= t + (1 # 2) /\ t + (1 # 2) < inject_Z z + 1).
  { revert H. apply Qabs_case; intros; lra. }
  destruct H1 as [H1 H2].
  pose proof (Qfloor_le (t + (1 # 2))) as Hlo.
  pose proof (Qlt_floor (t + (1 # 2))) as Hhi.
  rewrite inject_Z_plus in Hhi. change (inject_Z 1) with 1 in Hhi.
  assert (z <= Qfloor (t + (1 # 2)))%Z.
  { rewrite <- (Qfloor_Z z). by apply Qfloor_resp_le. }
  assert (Qfloor (t + (1 # 2)) < z + 1)%Z.
  { rewrite Zlt_Qlt, inject_Z_plus. change (inject_Z 1) with 1. lra. }
  lia.
Qed.

(** The hundredths [Math.round(t) / 100] of the poll, for a scaled value
    [t] within [d] of [c * 100]. *)
Lemma hundredths64 (c t d : Q) :
  Qabs c <= 60000 -> Qabs (t - c * 100) <= d -> 0 <= d <= 1 # 1000000 ->
  (JS.round (Fin t) / B64.lit 100)%b64
  = Fin (rnd (inject_Z (Qfloor (t + (1 # 2))) / 100)) /\
  Qabs (rnd (inject_Z (Qfloor (t + (1 # 2))) / 100) - c)
  <= (1 # 200) + (1 # 100) * d + (1 # 100000000000) /\
  Qabs (rnd (inject_Z (Qfloor (t + (1 # 2))) / 100)) <= 60001 /\
  Qabs (rnd (inject_Z (Qfloor (t + (1 # 2))) / 100) * 100
        - inject_Z (Qfloor (t + (1 # 2)))) <= 1 # 1000000000 /\
  Qabs (inject_Z (Qfloor (t + (1 # 2))) / 100) <= 60001.
Proof.
  intros Hc Ht Hd. pose proof (round_near t) as Hz.
  set (zq := inject_Z (Qfloor (t + (1 # 2)))) in *.
  assert (Hw : Qabs (zq / 100) <= 60000 + (1 # 100)).
  { revert Hz Ht Hc. qlit. intros. qabs; lra. }
  destruct (rnd_close (zq / 100) (60000 + (1 # 100)) (1 # 100000000000) Hw)
    as [Hr1 Hr2]; [vm_compute; discriminate|].
  set (r := rnd (zq / 100)) in *.
  split; [|split; [|split; [|split]]].
  - unfold B64.div. rewrite lit_100. cbn [JS.round JS.div].
    change (Qeq_bool 100 0) with false. cbv iota. fold zq.
    apply nearest_medium. lra.
  - revert Hr1 Hw Hz Ht Hc. qlit. intros. qabs; lra.
  - lra.
  - revert Hr1. qlit. intros. qabs; lra.
  - lra.
Qed.

Lemma round2_64 (q : Q) :
  Qabs q <= 1000 ->
  exists (z : Z) (r : Q),
    VR.round2 (Fin q) = Fin r /\ r = rnd (inject_Z z / 100) /\
    Qabs (r - q) <= (1 # 200) + (1 # 100000000) /\
    VR.round2 (Fin r) = Fin r.
Proof.
  intros Hq. unfold VR.round2.
  (* the product *)
  assert (Hm : forall p, Qabs p <= 60001 ->
            (Fin p * B64.lit 100)%b64 = Fin (rnd (p * 100)) /\
            Qabs (rnd (p * 100) - p * 100) <= 1 # 1000000000).
  { intros p Hp. rewrite lit_100. unfold B64.mul. cbn [JS.mul].
    assert (Hp' : Qabs (p * 100) <= 6000100) by (revert Hp; intros; qabs; lra).
    split; [apply nearest_medium; lra|].
    apply (rnd_close _ 6000100); [done | vm_compute; discriminate]. }
  destruct (Hm q) as [E1 H1]; [lra|]. rewrite E1.
  destruct (hundredths64 q (rnd (q * 100)) (1 # 1000000000))
    as (E2 & H2 & H3 & H4 & H6);
    [lra | done | split; vm_compute; discriminate |].
  set (z := Qfloor (rnd (q * 100) + (1 # 2))) in *.
  set (r := rnd (inject_Z z / 100)) in *.
  exists z, r. split; [exact E2|]. split; [done|]. split; [lra|].
  (* once more *)
  destruct (Hm r) as [E3 H5]; [done|]. rewrite E3.
  assert (Hz : Qfloor (rnd (r * 100) + (1 # 2)) = z).
  { apply round_of_near. revert H4 H5. intros. qabs; lra. }
  unfold B64.div. rewrite lit_100. cbn [JS.round JS.div].
  change (Qeq_bool 100 0) with false. cbv iota. rewrite Hz. fold r.
  apply nearest_medium. lra.
Qed.

Lemma degrees2_64 (q : Q) :
  Qabs q <= 1000 ->
  exists (z : Z) (d r : Q),
    (Fin q * Fin 180 / JS.PI)%js = Fin d /\
    VR.degrees2 (Fin q) = Fin r /\ r = rnd (inject_Z z / 100) /\
    Qabs (r - d) <= (1 # 200) + (1 # 100000000).
Proof.
  intros Hq. unfold VR.degrees2. rewrite lit_180.
  set (pi := 7074237752028440 # 2251799813685248).
  assert (Epi : JS.PI = Fin pi) by reflexivity. rewrite Epi.
  (* a * 180 *)
  assert (B1 : Qabs (q * 180) <= 180000) by (revert Hq; intros; qabs; lra).
  destruct (rnd_close (q * 180) 180000 (1 # 10000000000) B1) as [H1 H1'];
    [vm_compute; discriminate|].
  assert (E1 : (Fin q * Fin 180)%b64 = Fin (rnd (q * 180))).
  { unfold B64.mul. cbn [JS.mul]. apply nearest_medium. lra. }
  rewrite E1. set (t1 := rnd (q * 180)) in *.
  (* / Math.PI *)
  assert (B2 : Qabs (t1 / pi) <= 57296).
  { revert H1' H1 B1. unfold pi. qlit. intros. qabs; lra. }
  destruct (rnd_close (t1 / pi) 57296 (1 # 10000000000) B2) as [H2 H2'];
    [vm_compute; discriminate|].
  assert (E2 : (Fin t1 / Fin pi)%b64 = Fin (rnd (t1 / pi))).
  { unfold B64.div. cbn [JS.div]. change (Qeq_bool pi 0) with false. cbv iota.
    apply nearest_medium. lra. }
  rewrite E2. set (t2 := rnd (t1 / pi)) in *.
  (* * 100 *)
  assert (B3 : Qabs (t2 * 100) <= 5729700) by (revert H2'; intros; qabs; lra).
  destruct (rnd_close (t2 * 100) 5729700 (1 # 1000000000) B3) as [H3 H3'];
    [vm_compute; discriminate|].
  assert (E3 : (Fin t2 * B64.lit 100)%b64 = Fin (rnd (t2 * 100))).
  { rewrite lit_100. unfold B64.mul. cbn [JS.mul]. apply nearest_medium. lra. }
  rewrite E3. set (t3 := rnd (t2 * 100)) in *.
  (* the exact value *)
  set (d := q * 180 / pi).
  assert (Hd : Qabs d <= 57296).
  { revert Hq. unfold d, pi. qlit. intros. qabs; lra. }
  assert (H4 : Qabs (t3 - d * 100) <= 1 # 10000000).
  { revert H1 H2 H3. unfold d, pi. qlit. intros. qabs; lra. }
  destruct (hundredths64 d t3 (1 # 10000000))
    as (E & H5 & _); [lra | done | split; vm_compute; discriminate |].
  rewrite E.
  eexists _, d, _. split.
  { cbn [JS.mul JS.div]. change (Qeq_bool pi 0) with false. done. }
  split; [reflexivity|]. split; [reflexivity|]. lra.
Qed.

End PollRounding.

(** X13: the rounding of the poll, on the engine's numbers.  A camera
    coordinate of magnitude at most 1000 is stored as the double nearest
    to a whole number of hundredths, within 0.005 of the coordinate up
    to [10^-8], and a stored value is left unchanged by the same
    rounding; an angle of magnitude at most 1000 is stored as such a
    double within 0.005, up to [10^-8], of its value in degrees. *)
Theorem round2_nearest_hundredth (q : Q) :
  (Qabs q <= 1000)%Q ->
  (exists (z : Z) (r : Q),
     VR.round2 (Fin q) = Fin r /\ r = B64.rnd (inject_Z z / 100) /\
     (Qabs (r - q) <= (1 # 200) + (1 # 100000000))%Q /\
     VR.round2 (Fin r) = Fin r) /\
  (exists (z : Z) (d r : Q),
     (Fin q * lit 180 / JS.PI)%js = Fin d /\
     VR.degrees2 (Fin q) = Fin r /\ r = B64.rnd (inject_Z z / 100) /\
     (Qabs (r - d) <= (1 # 200) + (1 # 100000000))%Q).
Proof.
  intros Hq. split; [by apply round2_64 | by apply degrees2_64].
Qed.

Lemma round2_nearest_hundredth_witness :
  exists (z : Z) (r : Q),
    VR.round2 (B64.lit 2.675) = Fin r /\ r = B64.rnd (inject_Z z / 100) /\
    VR.round2 (Fin r) = Fin r.
Proof.
  assert (E : B64.lit 2.675 = Fin (B64.rnd 2.675)) by (vm_compute; reflexivity).
  assert (H : (Qabs (B64.rnd 2.675) <= 1000)%Q) by (vm_compute; discriminate).
  destruct (round2_nearest_hundredth (B64.rnd 2.675) H)
    as ((z & r & E1 & E2 & _ & E3) & _).
  exists z, r. rewrite E. split; [exact E1|]. split; [exact E2 | exact E3].
Defined.

(** The two values at which exact rounding and the engine part: the
    double 2.675 is stored as 2.68, and the angle -3.141505387127194 as
    -179.99. *)
Example poll_rounding_on_the_engine :
  VR.round2 (B64.lit 2.675) = B64.lit 2.68 /\
  VR.degrees2 (B64.lit (-3.141505387127194)) = B64.lit (-179.99).
Proof. split; vm_compute; reflexivity. Qed.

(** X14: the session data over the life of the manager.  In every state
    reached from the constructor through setup, session state changes,
    interval callbacks and snapshots, every reference of the session data
    resolves to an object; and whenever no tracking interval is running
    the session is reported inactive with head position and rotation
    (0, 0, 0) and no controllers.  An interval callback changes nothing
    outside a session. *)
Theorem session_data_idle_outside_session (es : list VR.event) :
  let m := VR.run es VR.constructor in
  is_Some (VR.coreView m) /\
  (VR.headTrackingInterval m = None ->
   VR.isActive m = false /\
   VR.coreView m = Some (VR.zeroed false (VR.isSupported m)) /\
   forall xr, VR.handle (VR.IntervalElapsed xr) m = m).
Proof.
  intros m.
  destruct (VRPoll.run_sound es VR.constructor VRPoll.constructor_sound)
    as [Hv Hidle].
  split; [exact Hv|]. intros Hi. destruct (Hidle Hi) as [Ha Hz].
  split; [exact Ha|]. split; [exact Hz|].
  intros xr. cbn [VR.handle]. fold m. by rewrite Hi.
Qed.

Module HslFacts.
Import Hsl.

#[local] Open Scope Q_scope.





End HslFacts.




